(** * Rue front-end: lexer and backtracking parser

    A shallow embedding of the TypeScript lexer ([Lexer.tokens],
    [Lexer.consume]) and of the recursive-descent parser ([Parser]) of
    the Rue language, together with the properties stated about them.

    JavaScript strings are sequences of UTF-16 code units; they are
    modelled as lists of [N].  Source offsets are natural numbers. *)

From Stdlib Require Import String Ascii.
From Stdlib Require Import List NArith ZArith Bool Arith Lia.
Import ListNotations.
Open Scope string_scope.
Open Scope list_scope.

Set Implicit Arguments.

(* ================================================================= *)
(** ** JavaScript strings *)

Module JsString.

Definition t := list N.

(** An ASCII literal, read as a sequence of code units. *)
Definition js (s : string) : t := map N_of_ascii (list_ascii_of_string s).

Fixpoint eqb (a b : t) : bool :=
  match a, b with
  | [], [] => true
  | x :: a', y :: b' => N.eqb x y && eqb a' b'
  | _, _ => false
  end.

(** [String.prototype.startsWith]. *)
Fixpoint startsWith (s p : t) : bool :=
  match p, s with
  | [], _ => true
  | y :: p', x :: s' => N.eqb x y && startsWith s' p'
  | _ :: _, [] => false
  end.

(** [s.slice(a, b)] for [0 <= a], [0 <= b]. *)
Definition slice (a b : nat) (s : t) : t := firstn (b - a) (skipn a s).

(** [s.slice(0, -1)]. *)
Definition dropLast (s : t) : t := removelast s.

(** [s.slice(1, -1)]. *)
Definition slice1m1 (s : t) : t := removelast (tl s).

(** [s.endsWith(c)] for a single code unit [c]. *)
Definition endsWithUnit (s : t) (c : N) : bool :=
  match rev s with
  | x :: _ => N.eqb x c
  | [] => false
  end.

Fixpoint takeWhile (p : N -> bool) (s : t) : t :=
  match s with
  | c :: r => if p c then c :: takeWhile p r else []
  | [] => []
  end.

Fixpoint dropWhile (p : N -> bool) (s : t) : t :=
  match s with
  | c :: r => if p c then dropWhile p r else s
  | [] => []
  end.

(** [m] is what [text] begins with. *)
Definition begins (text m : t) : Prop :=
  text = m ++ skipn (length m) text.

End JsString.

Import JsString.

(** Character classes used by the lexer's regular expressions. *)
Module Chars.

Definition between (lo hi c : N) : bool := (lo <=? c)%N && (c <=? hi)%N.

Definition code (a : ascii) : N := N_of_ascii a.

Definition isDigit (c : N) := between 48 57 c.                (* [0-9] *)
Definition isUpper (c : N) := between 65 90 c.                (* [A-Z] *)
Definition isLower (c : N) := between 97 122 c.               (* [a-z] *)
Definition isAlpha (c : N) := isLower c || isUpper c.         (* [a-zA-Z] *)
Definition isAlnum (c : N) := isAlpha c || isDigit c.         (* [a-zA-Z0-9] *)
Definition isHexAny (c : N) :=                                (* [0-9a-fA-F] *)
  isDigit c || between 97 102 c || between 65 70 c.
Definition isHexUpper (c : N) := isDigit c || between 65 70 c. (* [0-9A-F] *)
Definition isOctal (c : N) := between 48 55 c.                (* [0-7] *)
Definition isBinary (c : N) := between 48 49 c.               (* [0-1] *)

(** [[\r\n\f\v\t ]] *)
Definition isBlank (c : N) : bool :=
  (c =? 13)%N || (c =? 10)%N || (c =? 12)%N || (c =? 11)%N
  || (c =? 9)%N || (c =? 32)%N.

(** The characters the regular expression [.] does not match. *)
Definition isLineTerminator (c : N) : bool :=
  (c =? 10)%N || (c =? 13)%N || (c =? 8232)%N || (c =? 8233)%N.

(** White space and line terminators skipped by [parseInt]. *)
Definition isStrWhiteSpace (c : N) : bool :=
  (c =? 9)%N || (c =? 10)%N || (c =? 11)%N || (c =? 12)%N || (c =? 13)%N
  || (c =? 32)%N || (c =? 160)%N || (c =? 5760)%N || between 8192 8202 c
  || (c =? 8232)%N || (c =? 8233)%N || (c =? 8239)%N || (c =? 8287)%N
  || (c =? 12288)%N || (c =? 65279)%N.

Definition backslash : N := 92.
Definition quote1 : N := 39.   (* ' *)
Definition quote2 : N := 34.   (* double quote *)
Definition openCurly : N := 123.
Definition closeCurly : N := 125.

End Chars.

Import Chars.

(* ================================================================= *)
(** ** Tokens and diagnostics *)

(** Modelled from the spec: [token.ts] (the [TokenType] enumeration and
    the [Token] interface) is not part of the sources; the kinds are the
    ones the keyword and operator tables of the lexer and the parser
    name, and a token carries [type], [text], [start] and [stop]. *)
Inductive TokenType : Set :=
  | AndKeyword | OrKeyword | NotKeyword | ForKeyword | WhileKeyword
  | ContinueKeyword | BreakKeyword | ReturnKeyword | MacroKeyword
  | PublicKeyword | PrivateKeyword | ProtectedKeyword | DoKeyword
  | IsKeyword | AsKeyword | IfKeyword | ElseKeyword | TryKeyword
  | CatchKeyword | ThrowKeyword | FinallyKeyword | DeferKeyword
  | DefKeyword | ValKeyword | VarKeyword | InKeyword | MatchKeyword
  | FromKeyword | ImportKeyword | ExportKeyword | ExternKeyword
  | TypeKeyword | EnumKeyword | StructKeyword | ClassKeyword
  | SuperKeyword | ThisKeyword | NullKeyword
  | VoidType | IntegerType | UnsignedIntegerType | FloatType
  | BooleanType | StringType
  | Identifier | IntLiteral | FloatLiteral | BinaryLiteral | OctalLiteral
  | HexadecimalLiteral | StringLiteral | BoolLiteral
  | EqualOperator | NotEqualOperator | PlusAssignOperator
  | MinusAssignOperator | TimesAssignOperator | DivideAssignOperator
  | ModuloAssignOperator | AndAssignOperator | OrAssignOperator
  | XorAssignOperator | CoalesceAssignOperator | LeftShiftAssignOperator
  | UnsignedRightShiftAssignOperator | RightShiftAssignOperator
  | ArrowOperator | AssignOperator | PlusOperator | MinusOperator
  | TimesOperator | DivideOperator | ModuloOperator | NotOperator
  | CoalesceOperator | AndOperator | OrOperator | XorOperator
  | LeftShiftOperator | UnsignedRightShiftOperator | RightShiftOperator
  | LessThanEqualOperator | GreaterThanEqualOperator | LessThanOperator
  | GreaterThanOperator | OptionalAccessOperator | OptionalOperator
  | InclusiveRangeOperator | ExclusiveRangeOperator | AccessOperator
  | OpenParenthesis | CloseParenthesis | OpenBracket | CloseBracket
  | OpenBrace | CloseBrace | SemicolonPunctuator | ColonPunctuator
  | CommaPunctuator | UnderscorePunctuator.

Scheme Equality for TokenType.

(** The value stored in a token's [type] field.  The lexer tests
    [match[0] in keywords], which is also true of the names inherited
    from [Object.prototype]; for those [keywords[match[0]]] is the
    inherited member and not a [TokenType]. *)
Inductive TypeValue : Set :=
  | Kind (k : TokenType)
  | Inherited (key : JsString.t).

Definition isKind (v : TypeValue) (k : TokenType) : bool :=
  match v with
  | Kind k' => TokenType_beq k' k
  | Inherited _ => false
  end.

Record Token : Set := mkToken {
  type : TypeValue;
  text : JsString.t;
  start : nat;
  stop : nat
}.

Record LexerError : Set := mkLexerError {
  lmessage : string;
  lcontent : option JsString.t;
  lstart : nat;
  lstop : nat
}.

Record ParserError : Set := mkParserError {
  message : string;
  content : option JsString.t;
  estart : nat;
  estop : nat
}.

(* ================================================================= *)
(** ** The lexer *)

Module Lexer.

(** *** Keyword and operator tables *)

Definition keywords : list (string * TokenType) :=
  [ ("and", AndKeyword); ("or", OrKeyword); ("not", NotKeyword);
    ("for", ForKeyword); ("while", WhileKeyword);
    ("continue", ContinueKeyword); ("break", BreakKeyword);
    ("return", ReturnKeyword); ("macro", MacroKeyword);
    ("public", PublicKeyword); ("private", PrivateKeyword);
    ("protected", ProtectedKeyword); ("do", DoKeyword); ("is", IsKeyword);
    ("as", AsKeyword); ("if", IfKeyword); ("else", ElseKeyword);
    ("try", TryKeyword); ("catch", CatchKeyword); ("throw", ThrowKeyword);
    ("finally", FinallyKeyword); ("defer", DeferKeyword);
    ("def", DefKeyword); ("val", ValKeyword); ("var", VarKeyword);
    ("in", InKeyword); ("match", MatchKeyword); ("from", FromKeyword);
    ("import", ImportKeyword); ("export", ExportKeyword);
    ("extern", ExternKeyword); ("type", TypeKeyword); ("enum", EnumKeyword);
    ("struct", StructKeyword); ("class", ClassKeyword); ("void", VoidType);
    ("int", IntegerType); ("i8", IntegerType); ("i16", IntegerType);
    ("i32", IntegerType); ("i64", IntegerType);
    ("uint", UnsignedIntegerType); ("u8", UnsignedIntegerType);
    ("u16", UnsignedIntegerType); ("u32", UnsignedIntegerType);
    ("u64", UnsignedIntegerType); ("float", FloatType); ("f32", FloatType);
    ("f64", FloatType); ("bool", BooleanType); ("string", StringType);
    ("true", BoolLiteral); ("false", BoolLiteral); ("super", SuperKeyword);
    ("this", ThisKeyword); ("null", NullKeyword) ].

(** [Object.entries(operators)]: the entries in insertion order. *)
Definition operatorEntries : list (string * TokenType) :=
  [ ("==", EqualOperator); ("!=", NotEqualOperator);
    ("+=", PlusAssignOperator); ("-=", MinusAssignOperator);
    ("*=", TimesAssignOperator); ("/=", DivideAssignOperator);
    ("%=", ModuloAssignOperator); ("&=", AndAssignOperator);
    ("|=", OrAssignOperator); ("^=", XorAssignOperator);
    ("?=", CoalesceAssignOperator); ("<<=", LeftShiftAssignOperator);
    (">>>=", UnsignedRightShiftAssignOperator);
    (">>=", RightShiftAssignOperator); ("=>", ArrowOperator);
    ("=", AssignOperator); ("+", PlusOperator); ("-", MinusOperator);
    ("*", TimesOperator); ("/", DivideOperator); ("%", ModuloOperator);
    ("~", NotOperator); ("?:", CoalesceOperator); ("&", AndOperator);
    ("|", OrOperator); ("^", XorOperator); ("<<", LeftShiftOperator);
    (">>>", UnsignedRightShiftOperator); (">>", RightShiftOperator);
    ("<=", LessThanEqualOperator); (">=", GreaterThanEqualOperator);
    ("<", LessThanOperator); (">", GreaterThanOperator);
    ("?.", OptionalAccessOperator); ("?", OptionalOperator);
    ("...", InclusiveRangeOperator); ("..", ExclusiveRangeOperator);
    (".", AccessOperator); ("(", OpenParenthesis); (")", CloseParenthesis);
    ("[", OpenBracket); ("]", CloseBracket); ("{", OpenBrace);
    ("}", CloseBrace); (";", SemicolonPunctuator); (":", ColonPunctuator);
    (",", CommaPunctuator); ("_", UnderscorePunctuator) ].

(** The members of [Object.prototype] whose names have the shape of an
    identifier lexeme. *)
Definition objectPrototypeKeys : list string :=
  [ "constructor"; "hasOwnProperty"; "isPrototypeOf";
    "propertyIsEnumerable"; "toLocaleString"; "toString"; "valueOf" ].

Fixpoint ownProperty (tbl : list (string * TokenType)) (k : JsString.t)
  : option TokenType :=
  match tbl with
  | [] => None
  | (n, v) :: tbl' =>
      if JsString.eqb (js n) k then Some v else ownProperty tbl' k
  end.

Definition nonEmptyName (n : string) : bool :=
  match js n with
  | [] => false
  | _ :: _ => true
  end.

(** [k in keywords] *)
Definition inKeywords (k : JsString.t) : bool :=
  match ownProperty keywords k with
  | Some _ => true
  | None => existsb (fun n => JsString.eqb (js n) k) objectPrototypeKeys
  end.

(** [keywords[k]], for [k in keywords] *)
Definition keywordsGet (k : JsString.t) : TypeValue :=
  match ownProperty keywords k with
  | Some v => Kind v
  | None => Inherited k
  end.

(** [operatorEntries.find(entry => text.startsWith(entry[0]))] *)
Fixpoint findOperator (tbl : list (string * TokenType)) (text : JsString.t)
  : option (JsString.t * TokenType) :=
  match tbl with
  | [] => None
  | (n, v) :: tbl' =>
      if startsWith text (js n) then Some (js n, v)
      else findOperator tbl' text
  end.

(** *** The regular expressions

    Each matcher returns [match[0]], the matched prefix of [text]. *)

(** [/^[\r\n\f\v\t ]/] *)
Definition matchBlank (text : JsString.t) : option JsString.t :=
  match text with
  | c :: _ => if isBlank c then Some [c] else None
  | [] => None
  end.

(** [/^\/\/.*/] *)
Definition matchLineComment (text : JsString.t) : option JsString.t :=
  match text with
  | a :: b :: r =>
      if (a =? 47)%N && (b =? 47)%N then
        Some (a :: b :: takeWhile (fun c => negb (isLineTerminator c)) r)
      else None
  | _ => None
  end.

(** The shortest prefix of [s] that ends in [*/]. *)
Fixpoint throughCommentEnd (s : JsString.t) : option JsString.t :=
  match s with
  | [] => None
  | c :: r =>
      if (c =? 42)%N && match r with d :: _ => (d =? 47)%N | [] => false end
      then Some (c :: firstn 1 r)
      else option_map (cons c) (throughCommentEnd r)
  end.

(** [/^\/\*[^]*?\*\//] *)
Definition matchBlockComment (text : JsString.t) : option JsString.t :=
  match text with
  | a :: b :: r =>
      if (a =? 47)%N && (b =? 42)%N then
        option_map (fun m => a :: b :: m) (throughCommentEnd r)
      else None
  | _ => None
  end.

(** [(?:_?[a-zA-Z0-9]+)*] *)
Fixpoint identifierTail (s : JsString.t) : JsString.t :=
  match s with
  | [] => []
  | c :: r =>
      if isAlnum c then c :: identifierTail r
      else if (c =? 95)%N then
        match r with
        | d :: _ => if isAlnum d then c :: identifierTail r else []
        | [] => []
        end
      else []
  end.

(** [/^[a-zA-Z](?:_?[a-zA-Z0-9]+)*/] *)
Definition matchIdentifier (text : JsString.t) : option JsString.t :=
  match text with
  | c :: r => if isAlpha c then Some (c :: identifierTail r) else None
  | [] => None
  end.

(** [/^0[xX]D+/] for a digit class [D]. *)
Definition matchPrefixed (lower upper : N) (digit : N -> bool)
           (text : JsString.t) : option JsString.t :=
  match text with
  | zero :: x :: r =>
      if (zero =? 48)%N && ((x =? lower)%N || (x =? upper)%N) then
        match takeWhile digit r with
        | [] => None
        | ds => Some (zero :: x :: ds)
        end
      else None
  | _ => None
  end.

(** [/^0[xX][0-9a-fA-F]+/] *)
Definition matchHex := matchPrefixed 120 88 isHexAny.
(** [/^0[oO][0-7]+/] *)
Definition matchOctal := matchPrefixed 111 79 isOctal.
(** [/^0[bB][0-1]+/] *)
Definition matchBinary := matchPrefixed 98 66 isBinary.

(** [(?:[eE][+\-]?[0-9]+)?] *)
Definition exponent (s : JsString.t) : JsString.t :=
  match s with
  | e :: r =>
      if ((e =? 101)%N || (e =? 69)%N) then
        match r with
        | sg :: r' =>
            if ((sg =? 43)%N || (sg =? 45)%N) then
              match takeWhile isDigit r' with
              | [] => []
              | ds => e :: sg :: ds
              end
            else
              match takeWhile isDigit r with
              | [] => []
              | ds => e :: ds
              end
        | [] => []
        end
      else []
  | [] => []
  end.

(** [/^[0-9]+\.[0-9]+(?:[eE][+\-]?[0-9]+)?/] *)
Definition matchFloat (text : JsString.t) : option JsString.t :=
  match takeWhile isDigit text with
  | [] => None
  | ip =>
      match skipn (length ip) text with
      | dot :: r =>
          if (dot =? 46)%N then
            match takeWhile isDigit r with
            | [] => None
            | fp =>
                Some (ip ++ dot :: fp ++ exponent (skipn (length fp) r))
            end
          else None
      | [] => None
      end
  end.

(** [/^[0-9]+(?:[eE][+\-]?[0-9]+)?/] *)
Definition matchInt (text : JsString.t) : option JsString.t :=
  match takeWhile isDigit text with
  | [] => None
  | ip => Some (ip ++ exponent (skipn (length ip) text))
  end.

(** [/^[0-9A-F]{n}$/.test(hex)] *)
Definition isUpperHex (n : nat) (hex : JsString.t) : bool :=
  (length hex =? n)%nat && forallb isHexUpper hex.

(** *** Numbers: [parseInt(_, 16)] and [String.fromCharCode]

    A JavaScript number produced by [parseInt] is [NaN], an infinity
    or an integer-valued double. *)

Inductive Number : Set :=
  | NaN
  | Infinite (negative : bool)
  | Int (z : Z).

Definition hexValue (c : N) : N :=
  if isDigit c then c - 48
  else if between 97 102 c then c - 87
  else c - 55.

Definition radix16 (digits : JsString.t) : N :=
  fold_left (fun acc c => 16 * acc + hexValue c)%N digits 0%N.

(** The double nearest to the integer [m] (ties to even), or [None]
    when it is out of the range of the finite doubles. *)
Definition nearestDouble (m : N) : option N :=
  let bits := N.size m in
  if (bits <=? 53)%N then Some m
  else
    let e := (bits - 53)%N in
    let q := N.shiftr m e in
    let r := (m - N.shiftl q e)%N in
    let half := N.shiftl 1 (e - 1) in
    let q' := if (half <? r)%N || ((r =? half)%N && N.odd q)
              then (q + 1)%N else q in
    let v := N.shiftl q' e in
    if (N.shiftl 1 1024 <=? v)%N then None else Some v.

(** [parseInt(s, 16)] *)
Definition parseInt16 (s : JsString.t) : Number :=
  let s1 := dropWhile isStrWhiteSpace s in
  let negative := match s1 with c :: _ => (c =? 45)%N | [] => false end in
  let s2 := match s1 with
            | c :: r => if ((c =? 43)%N || (c =? 45)%N) then r else s1
            | [] => s1
            end in
  let s3 := match s2 with
            | zero :: x :: r =>
                if (zero =? 48)%N && ((x =? 120)%N || (x =? 88)%N)
                then r else s2
            | _ => s2
            end in
  match takeWhile isHexAny s3 with
  | [] => NaN
  | digits =>
      match nearestDouble (radix16 digits) with
      | None => Infinite negative
      | Some v => Int (if negative then - Z.of_N v else Z.of_N v)
      end
  end.

(** [number > 0x10ffff] *)
Definition aboveUnicode (number : Number) : bool :=
  match number with
  | NaN => false
  | Infinite negative => negb negative
  | Int z => (1114111 <? z)%Z
  end.

(** The code unit of [String.fromCharCode(number)]: the number
    truncated to 16 bits. *)
Definition fromCharCode (number : Number) : N :=
  match number with
  | NaN | Infinite _ => 0%N
  | Int z => Z.to_N (z mod 65536)
  end.

(** *** The lexer state

    [source] never changes; [text] is the part of it still to be read. *)

(** [Lexer.index] *)
Definition index (source text : JsString.t) : nat :=
  length source - length text.

(** [Lexer.eat] *)
Definition eat (chars : nat) (text : JsString.t) : JsString.t :=
  skipn chars text.

(** *** String literals *)

(** The [for] loop of the braced unicode escape: the characters of
    [text] up to and including the first closing brace. *)
Fixpoint throughCurly (s : JsString.t) : JsString.t :=
  match s with
  | [] => []
  | c :: r => if (c =? closeCurly)%N then [c] else c :: throughCurly r
  end.

(** The outcome of one round of the [while] loop over a literal. *)
Inductive Round : Set :=
  | Continue (str text : JsString.t)
  | Break (str text : JsString.t)
  | Abort (e : LexerError).

Definition isUnit (a : ascii) (c : N) : bool := (c =? code a)%N.

Definition round (source : JsString.t) (start : nat)
           (str text : JsString.t) : Round :=
  match text with
  | [] => Continue str text
  | char :: text1 =>
      if (char =? backslash)%N then
        match text1 with
        | [] =>
            Abort (mkLexerError "Unexpected end of escape" None start
                     (index source text1))
        | escape :: text2 =>
            if isUnit "n" escape then Continue (str ++ [10%N]) text2
            else if isUnit "r" escape then Continue (str ++ [13%N]) text2
            else if isUnit "n" escape then Continue (str ++ [10%N]) text2
            else if isUnit "f" escape then Continue (str ++ [12%N]) text2
            else if isUnit "v" escape then Continue (str ++ [11%N]) text2
            else if isUnit "t" escape then Continue (str ++ [9%N]) text2
            else if isUnit "b" escape then Continue (str ++ [8%N]) text2
            else if isUnit "0" escape then Continue (str ++ [0%N]) text2
            else if isUnit "x" escape then
              let hex := firstn 2 text2 in
              if negb (isUpperHex 2 hex) then
                Abort (mkLexerError
                         "Invalid or lowercase hexadecimal escape sequence"
                         None start (index source text2))
              else
                let text3 := eat 2 text2 in
                let number := parseInt16 hex in
                Continue (str ++ [fromCharCode number]) text3
            else if isUnit "u" escape then
              if match text2 with
                 | next :: _ => (next =? openCurly)%N
                 | [] => false
                 end
              then
                let text3 := eat 1 text2 in
                let hex := throughCurly text3 in
                if negb (endsWithUnit hex closeCurly) then
                  Abort (mkLexerError
                           "Invalid or lowercase unicode escape sequence"
                           None start (index source text3))
                else
                  let hex := dropLast hex in
                  let number := parseInt16 hex in
                  if aboveUnicode number then
                    Abort (mkLexerError
                             "Out of range unicode escape sequence"
                             None start (index source text3))
                  else
                    Continue (str ++ [fromCharCode number])
                             (eat (length hex + 1) text3)
              else
                let hex := firstn 4 text2 in
                if negb (isUpperHex 4 hex) then
                  Abort (mkLexerError
                           "Invalid or lowercase unicode escape sequence"
                           None start (index source text2))
                else
                  let text3 := eat 4 text2 in
                  let number := parseInt16 hex in
                  Continue (str ++ [fromCharCode number]) text3
            else Continue (str ++ [escape]) text2
        end
      else
        let str' := str ++ [char] in
        if match str' with
           | first :: _ => (char =? first)%N
           | [] => false
           end
        then Break str' text1
        else Continue str' text1
  end.

(** The result of [consume]: a token, [undefined] (something was
    skipped) or an error; [Stuck] is the loop running out of fuel. *)
Inductive Consumed : Set :=
  | Tok (t : Token)
  | Skipped
  | Failed (e : LexerError)
  | Stuck.

(** [while (this.text.length > 0) { ... }] and what follows it. *)
Fixpoint literal (fuel : nat) (source : JsString.t) (start : nat)
         (str text : JsString.t) : Consumed * JsString.t :=
  match text with
  | [] =>
      (Failed (mkLexerError "Unterminated string literal" None start
                 (index source text)), text)
  | _ :: _ =>
      match fuel with
      | O => (Stuck, text)
      | S fuel' =>
          match round source start str text with
          | Continue str' text' => literal fuel' source start str' text'
          | Break str' text' =>
              (Tok (mkToken (Kind StringLiteral) (slice1m1 str') start
                      (index source text')), text')
          | Abort e => (Failed e, text)
          end
      end
  end.

Definition orElse {A} (a b : option A) : option A :=
  match a with
  | Some _ => a
  | None => b
  end.

Definition lexeme (source : JsString.t) (start : nat) (k : TypeValue)
           (m text : JsString.t) : Consumed * JsString.t :=
  let text' := eat (length m) text in
  (Tok (mkToken k m start (index source text')), text').

(** [Lexer.consume] *)
Definition consume (source text : JsString.t) : Consumed * JsString.t :=
  let start := index source text in
  if (length source <=? index source text)%nat then
    (Failed (mkLexerError "Unexpected end of file" (Some []) start start),
     text)
  else
    match orElse (matchBlank text)
            (orElse (matchLineComment text) (matchBlockComment text)) with
    | Some m => (Skipped, eat (length m) text)
    | None =>
    match matchIdentifier text with
    | Some m =>
        if inKeywords m then lexeme source start (keywordsGet m) m text
        else lexeme source start (Kind Identifier) m text
    | None =>
    match matchHex text with
    | Some m => lexeme source start (Kind HexadecimalLiteral) m text
    | None =>
    match matchOctal text with
    | Some m => lexeme source start (Kind OctalLiteral) m text
    | None =>
    match matchBinary text with
    | Some m => lexeme source start (Kind BinaryLiteral) m text
    | None =>
    match matchFloat text with
    | Some m => lexeme source start (Kind FloatLiteral) m text
    | None =>
    match matchInt text with
    | Some m => lexeme source start (Kind IntLiteral) m text
    | None =>
    match text with
    | [] =>
        (Failed (mkLexerError "Unexpected character" None start
                   (index source text + 1)), text)
    | first :: _ =>
        if ((first =? quote1)%N || (first =? quote2)%N) then
          let text1 := eat 1 text in
          literal (length text1) source start [first] text1
        else
          match findOperator operatorEntries text with
          | Some (m, k) => lexeme source start (Kind k) m text
          | None =>
              (Failed (mkLexerError "Unexpected character" (Some [first])
                         start (index source text + 1)), text)
          end
    end end end end end end end end.

(** The result of [tokens]. *)
Inductive Lexed : Set :=
  | Tokens (ts : list Token)
  | LexError (e : LexerError)
  | LexStuck.

(** The [while (this.index() < this.source.length)] loop. *)
Fixpoint loop (fuel : nat) (source text : JsString.t) (acc : list Token)
  : Lexed :=
  if (index source text <? length source)%nat then
    match fuel with
    | O => LexStuck
    | S fuel' =>
        match consume source text with
        | (Failed e, _) => LexError e
        | (Stuck, _) => LexStuck
        | (Tok t, text') => loop fuel' source text' (acc ++ [t])
        | (Skipped, text') => loop fuel' source text' acc
        end
    end
  else Tokens acc.

(** [new Lexer(source).tokens()] *)
Definition tokens (source : JsString.t) : Lexed :=
  loop (length source) source source [].

End Lexer.

(* ================================================================= *)
(** ** Concrete syntax trees *)

(** [TreeType], as declared in [tree.ts] ([Parameters'] and [Parameter']
    are primed: the plain words are reserved). *)
Inductive TreeType : Set :=
  | Body
  | Statement | TypeStatement | LabeledStatement | FieldStatement
  | BlockStatement | IfStatement | MatchStatement | DefStatement
  | WhileStatement | DoStatement | ForStatement | ReturnStatement
  | ContinueStatement | BreakStatement | MethodStatement | EnumStatement
  | ExpressionStatement | EmptyStatement
  | ExpressionSequence | Expression | AssignmentExpression
  | TernaryExpression | CoalesceExpression | LogicalOrExpression
  | LogicalAndExpression | BitwiseOrExpression | BitwiseXorExpression
  | BitwiseAndExpression | EqualityExpression | ComparisonExpression
  | ShiftExpression | TermExpression | FactorExpression | RangeExpression
  | UnaryExpression | ReferenceExpression
  | UnionType | IntersectionType | ArrayType | GenericType | UnaryType
  | OptionalPropertyAccess | PropertyAccess | MatchOption | ArrayIndex
  | Parameters' | Parameter' | ArrayInitializer | ArrayValue | TypeCast
  | MethodCall | MethodCallArgument | LiteralValue.

(** [interface Tree { type; start; stop; items: (Token | Tree)[] }] *)
#[warnings="-register-all"]
Inductive Tree : Set :=
  mkTree (type : TreeType) (start stop : nat) (items : list (Token + Tree)).

Module Tree.
Definition type (t : Tree) := let 'mkTree k _ _ _ := t in k.
Definition start (t : Tree) := let 'mkTree _ s _ _ := t in s.
Definition stop (t : Tree) := let 'mkTree _ _ e _ := t in e.
Definition items (t : Tree) := let 'mkTree _ _ _ l := t in l.
End Tree.

(** An element of [items]. *)
Definition Item : Set := (Token + Tree)%type.

Definition itemStart (i : Item) : nat :=
  match i with
  | inl t => start t
  | inr t => Tree.start t
  end.

Definition itemStop (i : Item) : nat :=
  match i with
  | inl t => stop t
  | inr t => Tree.stop t
  end.

(* ================================================================= *)
(** ** The parser *)

Module Parser.

(** *** State

    [tokens] is the array [this.tokens], which is also the bottom
    element [this.stack[0]] of the cursor stack; [stack] holds the
    copies pushed above it, the most recent first. *)
Record State : Set := mkState {
  tokens : list Token;
  stack : list (list Token);
  error : option ParserError
}.

(** [new Parser(tokens, source)] *)
Definition init (ts : list Token) : State := mkState ts [] None.

(** A method either returns a value in a new state, or fails with a
    [TypeError] (an access through [undefined]), or the embedding runs
    out of fuel. *)
Inductive Outcome (A : Type) : Type :=
  | Done (a : A) (s : State)
  | TypeError
  | OutOfFuel.
Arguments TypeError {A}.
Arguments OutOfFuel {A}.

Definition M (A : Type) : Type := State -> Outcome A.

Definition ret {A} (a : A) : M A := fun s => Done a s.

Definition bind {A B} (m : M A) (k : A -> M B) : M B :=
  fun s =>
    match m s with
    | Done a s' => k a s'
    | TypeError => TypeError
    | OutOfFuel => OutOfFuel
    end.

Declare Scope parser_scope.
Delimit Scope parser_scope with parser.
Bind Scope parser_scope with M.
Open Scope parser_scope.

Notation "x <- m ;; k" := (bind m (fun x => k))
  (at level 61, m at next level, right associativity) : parser_scope.
Notation "m ;; k" := (bind m (fun _ => k))
  (at level 61, right associativity) : parser_scope.
(** [const x = m; if (!x) return h; k] *)
Notation "x <- m 'orReturn' h ;; k" :=
  (bind m (fun o => match o with Some x => k | None => h end))
  (at level 61, m at next level, h at next level, right associativity)
  : parser_scope.

(** *** Cursor stack *)

(** [this.current()] *)
Definition current (s : State) : list Token :=
  match stack s with
  | top :: _ => top
  | [] => tokens s
  end.

(** [this.parent()]; [None] stands for [undefined]. *)
Definition parent (s : State) : option (list Token) :=
  match stack s with
  | _ :: p :: _ => Some p
  | [_] => Some (tokens s)
  | [] => None
  end.

(** Assignment to the contents of the array [this.current()]. *)
Definition setCurrent (ts : list Token) (s : State) : State :=
  match stack s with
  | _ :: rest => mkState (tokens s) (ts :: rest) (error s)
  | [] => mkState ts [] (error s)
  end.

(** [this.push()] *)
Definition push : M unit :=
  fun s => Done tt (mkState (tokens s) (current s :: stack s) (error s)).

(** [this.pop(update)].  With [update], [mutate] overwrites the new
    current cursor with the popped one.  Popping the root cursor
    leaves no current cursor to work on; no production does it, each
    one pops the copy it pushed. *)
Definition pop (update : bool) : M unit :=
  fun s =>
    match stack s with
    | top :: rest =>
        let s' := mkState (tokens s) rest (error s) in
        Done tt (if update then setCurrent top s' else s')
    | [] => TypeError
    end.

(** [this.throw(error, pop)] *)
Definition throw {A} (e : ParserError) (pop_ : bool) : M (option A) :=
  fun s =>
    let s' :=
      match error s with
      | None => mkState (tokens s) (stack s) (Some e)
      | Some old =>
          if (estart old <=? estart e)%nat
          then mkState (tokens s) (stack s) (Some e)
          else s
      end in
    if pop_ then bind (pop false) (fun _ => ret None) s'
    else Done None s'.

Definition lastToken (ts : list Token) : option Token :=
  match rev ts with
  | t :: _ => Some t
  | [] => None
  end.

(** [this.start(tokens)] *)
Definition startOf (s : State) (ts : list Token) : nat :=
  match ts with
  | t :: _ => start t
  | [] =>
      match lastToken (tokens s) with
      | Some t => start t
      | None => 0
      end
  end.

(** [this.stop(tokens)] *)
Definition stopOf (s : State) (ts : list Token) : nat :=
  match ts with
  | t :: _ => stop t
  | [] =>
      match lastToken (tokens s) with
      | Some t => stop t
      | None => 0
      end
  end.

(** A missing argument takes the default value [this.current()]. *)
Definition orCurrent (s : State) (ts : option (list Token)) : list Token :=
  match ts with
  | Some l => l
  | None => current s
  end.

(** [this.tree({ type, items }, pop)] *)
Definition tree (k : TreeType) (items : list Item) (pop_ : bool) : M Tree :=
  fun s =>
    let start := startOf s (orCurrent s (parent s)) in
    let stop := startOf s (current s) in
    bind (if pop_ then pop true else ret tt)
         (fun _ => ret (mkTree k start stop items)) s.

(** [this.consume(type)] *)
Definition consume (k : TokenType) : M (option Token) :=
  fun s =>
    match current s with
    | t :: rest =>
        if isKind (type t) k then Done (Some t) (setCurrent rest s)
        else Done None s
    | [] => Done None s
    end.

(** [return this.throw(new ParserError(msg, null, this.start(),
    this.stop()))] *)
Definition expected {A} (msg : string) : M (option A) :=
  fun s =>
    throw (mkParserError msg None (startOf s (current s))
             (stopOf s (current s))) true s.

(** [a ?? b] *)
Definition orElse {A} (a b : M (option A)) : M (option A) :=
  x <- a ;;
  match x with
  | Some _ => ret x
  | None => b
  end.

Infix "??" := orElse (at level 60, right associativity) : parser_scope.

Definition leaf (m : M (option Token)) : M (option Item) :=
  x <- m ;; ret (option_map inl x).

Definition node (m : M (option Tree)) : M (option Item) :=
  x <- m ;; ret (option_map inr x).

(** [return this.tree({ type, items })], where [pop] takes its default
    value [true]. *)
Definition finish (k : TreeType) (items : list Item) : M (option Tree) :=
  t <- tree k items true ;; ret (Some t).

(** *** Loops *)

(** How one round of a loop ends: [continue], [break] or [return]. *)
Inductive Flow (A R : Type) : Type :=
  | Next (a : A)
  | Break (a : A)
  | Return (r : R).
Arguments Next {A R}.
Arguments Break {A R}.
Arguments Return {A R}.

(** [while (true) { ... }] over the loop variables [a]. *)
Fixpoint while {A R} (fuel : nat) (body : A -> M (Flow A R)) (a : A)
  : M (A + R) :=
  match fuel with
  | O => fun _ => OutOfFuel
  | S fuel' =>
      f <- body a ;;
      match f with
      | Next a' => while fuel' body a'
      | Break a' => ret (inl a')
      | Return r => ret (inr r)
      end
  end.

(** A loop that is only left by [break]. *)
Definition loop {A} (fuel : nat) (body : A -> M (Flow A Empty_set)) (a : A)
  : M A :=
  r <- while fuel body a ;;
  match r with
  | inl a' => ret a'
  | inr e => match e with end
  end.

Definition nonEmpty {A} (l : list A) : bool :=
  match l with
  | [] => false
  | _ :: _ => true
  end.

(** *** Productions

    The productions call one another; [Production] names them, and
    each body below takes the recursive calls as [call]. *)
Inductive Production : Set :=
  | ParseBody | ParseStatement | ParseLabeledStatement
  | ParseBlockStatement | ParseIfStatement | ParseWhileStatement
  | ParseMatchStatement | ParseMatchOption | ParseDefStatement
  | ParseParameters | ParseParameter | ParseDoStatement
  | ParseForStatement | ParseReturnStatement | ParseContinueStatement
  | ParseBreakStatement | ParseEmptyStatement | ParseExpressionStatement
  | ParseFieldStatement | ParseUnionType | ParseIntersectionType
  | ParseUnaryType | ParseArrayType | ParseGenericType
  | ParseExpressionSequence | ParseAssignmentExpression
  | ParseTernaryExpression | ParseCoalesceExpression
  | ParseLogicalOrExpression | ParseLogicalAndExpression
  | ParseBitwiseOrExpression | ParseBitwiseXorExpression
  | ParseBitwiseAndExpression | ParseEqualityExpression
  | ParseComparisonExpression | ParseShiftExpression
  | ParseTermExpression | ParseFactorExpression | ParseRangeExpression
  | ParseUnaryExpression | ParseReferenceExpression | ParseLiteralValue
  | ParseCast | ParsePropertyAccess | ParseOptionalPropertyAccess
  | ParseArrayIndex | ParseMethodCall | ParseArrayInitializer
  | ParseArrayValue | ParseMethodCallArgument.

Definition dq : string := String (ascii_of_nat 34) EmptyString.

Section Productions.

Variable fuel : nat.
Variable call : Production -> M (option Tree).

(** The statements of a body or block:
    [while (true) { const statement = this.parseStatement();
                    if (!statement) break; result.push(statement); }] *)
Definition statements (result : list Item) : M (list Item) :=
  loop fuel (fun result =>
    statement <- call ParseStatement ;;
    match statement with
    | None => ret (Break result)
    | Some statement => ret (Next (result ++ [inr statement]))
    end) result.

Definition parseBody_ : M (option Tree) :=
  push ;;
  result <- statements [] ;;
  finish Body result.

Definition parseStatement_ : M (option Tree) :=
  push ;;
  statement <-
    (call ParseLabeledStatement ?? call ParseFieldStatement
     ?? call ParseExpressionStatement ?? call ParseDefStatement
     ?? call ParseIfStatement ?? call ParseWhileStatement
     ?? call ParseMatchStatement ?? call ParseDoStatement
     ?? call ParseForStatement ?? call ParseReturnStatement
     ?? call ParseContinueStatement ?? call ParseBreakStatement
     ?? call ParseBlockStatement ?? call ParseEmptyStatement)
    orReturn expected "Expected statement" ;;
  finish Statement [inr statement].

Definition parseLabeledStatement_ : M (option Tree) :=
  push ;;
  identifier <- consume Identifier
    orReturn expected "Expected labeled statement" ;;
  _ <- consume ColonPunctuator
    orReturn expected
      (String.append "Expected " (String.append dq
         (String.append ":" (String.append dq " after label")))) ;;
  statement <- call ParseStatement
    orReturn expected "Expected statement" ;;
  finish LabeledStatement [inl identifier; inr statement].

Definition parseBlockStatement_ : M (option Tree) :=
  push ;;
  _ <- consume OpenBrace orReturn expected "Expected block statement" ;;
  result <- statements [] ;;
  _ <- consume CloseBrace
    orReturn expected "Unterminated block statement" ;;
  finish BlockStatement result.

Definition parseIfStatement_ : M (option Tree) :=
  push ;;
  _ <- consume IfKeyword orReturn expected "Expected if statement" ;;
  _ <- consume OpenParenthesis
    orReturn expected "Expected if condition" ;;
  condition <- call ParseExpressionSequence
    orReturn expected "Expected expression sequence" ;;
  _ <- consume CloseParenthesis
    orReturn expected "Unterminated if condition" ;;
  statement <- call ParseStatement
    orReturn expected "Expected statement" ;;
  let result := [inr condition; inr statement] in
  els <- consume ElseKeyword ;;
  match els with
  | Some _ =>
      statement <- call ParseStatement
        orReturn expected "Expected statement" ;;
      finish IfStatement (result ++ [inr statement])
  | None => finish IfStatement result
  end.

Definition parseWhileStatement_ : M (option Tree) :=
  push ;;
  _ <- consume WhileKeyword
    orReturn expected "Expected while statement" ;;
  _ <- consume OpenParenthesis
    orReturn expected "Expected while condition" ;;
  condition <- call ParseExpressionSequence
    orReturn expected "Expected expression sequence" ;;
  _ <- consume CloseParenthesis
    orReturn expected "Unterminated while condition" ;;
  statement <- call ParseStatement
    orReturn expected "Expected statement" ;;
  finish WhileStatement [inr condition; inr statement].

Definition parseMatchStatement_ : M (option Tree) :=
  push ;;
  _ <- consume MatchKeyword
    orReturn expected "Expected match statement" ;;
  _ <- consume OpenParenthesis
    orReturn expected "Expected match value" ;;
  value <- call ParseExpressionSequence
    orReturn expected "Expected expression sequence" ;;
  _ <- consume CloseParenthesis
    orReturn expected "Unterminated match value" ;;
  _ <- consume OpenBrace orReturn expected "Expected match body" ;;
  vars <- loop fuel (fun vars : bool * list Item =>
    option <- call ParseMatchOption ;;
    match option with
    | None => ret (Break vars)
    | Some option => ret (Next (false, snd vars ++ [inr option]))
    end) (false, [inr value]) ;;
  let match_ := fst vars in
  let result := snd vars in
  fallback <- call ParseBody ;;
  let close result :=
    _ <- consume CloseBrace orReturn expected "Unterminated match body" ;;
    finish MatchStatement result in
  match fallback with
  | Some fallback => close (result ++ [inr fallback])
  | None =>
      if negb match_ then expected "Expected match options or fallback"
      else close result
  end.

Definition parseMatchOption_ : M (option Tree) :=
  push ;;
  expression <- call ParseAssignmentExpression
    orReturn expected "Expected match option" ;;
  _ <- consume ArrowOperator
    orReturn expected
      (String.append "Expected " (String.append dq
         (String.append "=>" dq))) ;;
  body <- call ParseStatement
    orReturn expected "Expected match option body" ;;
  finish MatchOption [inr expression; inr body].

Definition parseDefStatement_ : M (option Tree) :=
  push ;;
  _ <- consume DefKeyword orReturn expected "Expected def statement" ;;
  identifier <- consume Identifier
    orReturn expected "Expected identifier" ;;
  parameters <- call ParseParameters
    orReturn expected "Expected parameters" ;;
  let result := [inl identifier; inr parameters] in
  let body result :=
    statement <- (call ParseBlockStatement ?? call ParseEmptyStatement)
      orReturn expected "Expected def body" ;;
    finish DefStatement (result ++ [inr statement]) in
  colon <- consume ColonPunctuator ;;
  match colon with
  | Some _ =>
      type <- call ParseUnaryType orReturn expected "Expected type" ;;
      body (result ++ [inr type])
  | None => body result
  end.

(** The loop shared by the comma-separated lists:
    [while (true) {
       if (result.length && !this.consume(CommaPunctuator)) break;
       const item = this.parseItem();
       if (!item) { if (!result.length) break; return this.throw(...); }
       result.push(item); }] *)
Definition commaSeparated (item : Production) (msg : string)
  : M (list Item + option Tree) :=
  while fuel (fun result : list Item =>
    done <- (if nonEmpty result
             then comma <- consume CommaPunctuator ;;
                  ret (match comma with Some _ => false | None => true end)
             else ret false) ;;
    if (done : bool) then ret (Break result)
    else
      parsed <- call item ;;
      match parsed with
      | None =>
          if negb (nonEmpty result) then ret (Break result)
          else r <- expected msg ;; ret (Return r)
      | Some parsed => ret (Next (result ++ [inr parsed]))
      end) [].

Definition parseParameters_ : M (option Tree) :=
  push ;;
  _ <- consume OpenParenthesis
    orReturn expected "Expected parameters" ;;
  r <- commaSeparated ParseParameter "Expected parameter" ;;
  match r with
  | inr returned => ret returned
  | inl result =>
      _ <- consume CloseParenthesis
        orReturn expected "Unterminated parameters" ;;
      finish Parameters' result
  end.

Definition parseParameter_ : M (option Tree) :=
  push ;;
  item <- (consume Identifier ?? consume InclusiveRangeOperator)
    orReturn expected "Expected parameter" ;;
  if isKind (type item) Identifier then
    _ <- consume ColonPunctuator
      orReturn expected
        (String.append "Expected " (String.append dq
           (String.append ":" (String.append dq
              " after parameter name")))) ;;
    type <- call ParseUnaryType orReturn expected "Expected type" ;;
    finish Parameter' [inl item; inr type]
  else finish Parameter' [inl item].

Definition parseDoStatement_ : M (option Tree) :=
  push ;;
  _ <- consume DoKeyword orReturn expected "Expected do statement" ;;
  statement <- call ParseStatement
    orReturn expected "Expected statement" ;;
  _ <- consume WhileKeyword orReturn expected "Expected while clause" ;;
  _ <- consume OpenParenthesis
    orReturn expected "Expected do condition" ;;
  condition <- call ParseExpressionSequence
    orReturn expected "Expected expression sequence" ;;
  _ <- consume CloseParenthesis
    orReturn expected "Unterminated while condition" ;;
  finish DoStatement [inr statement; inr condition].

Definition parseForStatement_ : M (option Tree) :=
  push ;;
  _ <- consume ForKeyword orReturn expected "Expected for statement" ;;
  _ <- consume OpenParenthesis
    orReturn expected "Expected for iterator" ;;
  identifier <- consume Identifier
    orReturn expected "Expected identifier" ;;
  _ <- consume InKeyword orReturn expected "Expected in clause" ;;
  expression <- call ParseAssignmentExpression
    orReturn expected "Expected iterator expression" ;;
  _ <- consume CloseParenthesis
    orReturn expected "Unterminated for iterator" ;;
  statement <- call ParseStatement
    orReturn expected "Expected statement" ;;
  finish ForStatement [inl identifier; inr expression; inr statement].

Definition parseReturnStatement_ : M (option Tree) :=
  push ;;
  _ <- consume ReturnKeyword
    orReturn expected "Expected return statement" ;;
  value <- call ParseExpressionSequence ;;
  let result := match value with Some v => [inr v] | None => [] end in
  _ <- consume SemicolonPunctuator
    orReturn expected "Expected semicolon" ;;
  finish ReturnStatement result.

Definition parseContinueStatement_ : M (option Tree) :=
  push ;;
  _ <- consume ContinueKeyword
    orReturn expected "Expected continue statement" ;;
  identifier <- consume Identifier ;;
  let result := match identifier with Some i => [inl i] | None => [] end in
  _ <- consume SemicolonPunctuator
    orReturn expected "Expected semicolon" ;;
  finish ContinueStatement result.

Definition parseBreakStatement_ : M (option Tree) :=
  push ;;
  _ <- consume BreakKeyword
    orReturn expected "Expected break statement" ;;
  identifier <- consume Identifier ;;
  let result := match identifier with Some i => [inl i] | None => [] end in
  _ <- consume SemicolonPunctuator
    orReturn expected "Expected semicolon" ;;
  finish BreakStatement result.

Definition parseEmptyStatement_ : M (option Tree) :=
  push ;;
  _ <- consume SemicolonPunctuator
    orReturn expected "Expected semicolon" ;;
  finish EmptyStatement [].

Definition parseExpressionStatement_ : M (option Tree) :=
  push ;;
  expressions <- call ParseExpressionSequence
    orReturn expected "Expected expression sequence" ;;
  _ <- consume SemicolonPunctuator
    orReturn expected "Expected semicolon" ;;
  finish ExpressionStatement [inr expressions].

Definition parseFieldStatement_ : M (option Tree) :=
  push ;;
  keyword <- (consume ValKeyword ?? consume VarKeyword)
    orReturn expected "Expected field statement" ;;
  identifier <- consume Identifier
    orReturn expected "Expected field name " ;;
  let result := [inl keyword; inl identifier] in
  let terminator result :=
    _ <- consume SemicolonPunctuator
      orReturn expected "Expected semicolon" ;;
    finish FieldStatement result in
  let initializer result :=
    assign <- consume AssignOperator ;;
    match assign with
    | Some _ =>
        expression <- call ParseAssignmentExpression
          orReturn expected "Expected expression" ;;
        terminator (result ++ [inr expression])
    | None => terminator result
    end in
  colon <- consume ColonPunctuator ;;
  match colon with
  | Some _ =>
      type <- call ParseUnionType
        orReturn expected "Expected field type" ;;
      initializer (result ++ [inr type])
  | None => initializer result
  end.

(** The loop shared by the left-associative productions whose
    operand follows an operator:
    [while (true) {
       this.push();
       const operator = ...;
       if (!operator) { this.pop(false); break; }
       const rhs = ...;
       if (!rhs) { this.pop(false); break; }
       result.push(rhs);            // or: result.push(operator, rhs)
       this.pop(); }]
    [keep] tells whether the operator token is pushed with [rhs]. *)
Definition operands (operator : M (option Token))
           (operand : Token -> M (option Tree)) (keep : bool)
           (result : list Item) : M (list Item) :=
  loop fuel (fun result =>
    push ;;
    operator <- operator ;;
    match operator with
    | None => pop false ;; ret (Break result)
    | Some operator =>
        rhs <- operand operator ;;
        match rhs with
        | None => pop false ;; ret (Break result)
        | Some rhs =>
            let result :=
              if keep then result ++ [inl operator; inr rhs]
              else result ++ [inr rhs] in
            pop true ;; ret (Next result)
        end
    end) result.

Definition parseUnionType_ : M (option Tree) :=
  push ;;
  lhs <- call ParseIntersectionType
    orReturn expected "Expected union type" ;;
  result <- operands (consume OrOperator)
              (fun _ => call ParseIntersectionType) false [inr lhs] ;;
  finish UnionType result.

Definition parseIntersectionType_ : M (option Tree) :=
  push ;;
  lhs <- call ParseUnaryType
    orReturn expected "Expected intersection type" ;;
  result <- operands (consume AndOperator)
              (fun _ => call ParseUnaryType) false [inr lhs] ;;
  finish IntersectionType result.

Definition parseUnaryType_ : M (option Tree) :=
  push ;;
  base <- (consume Identifier ?? consume IntegerType
           ?? consume UnsignedIntegerType ?? consume FloatType
           ?? consume BooleanType ?? consume StringType
           ?? consume VoidType)
    orReturn expected "Expected type or identifier" ;;
  result <- loop fuel (fun result =>
    match_ <- call ParseGenericType ?? call ParseArrayType ;;
    match match_ with
    | Some match_ => ret (Next (result ++ [inr match_]))
    | None =>
        operator <- consume TimesOperator ?? consume OptionalOperator ;;
        match operator with
        | None => ret (Break result)
        | Some operator => ret (Next (result ++ [inl operator]))
        end
    end) [inl base] ;;
  finish UnaryType result.

Definition parseArrayType_ : M (option Tree) :=
  push ;;
  _ <- consume OpenBracket
    orReturn expected "Expected array type modifier" ;;
  _ <- consume CloseBracket
    orReturn expected "Unterminated array type modifier" ;;
  finish ArrayType [].

Definition parseGenericType_ : M (option Tree) :=
  push ;;
  _ <- consume LessThanOperator
    orReturn expected "Expected generic type arguments" ;;
  lhs <- call ParseUnionType
    orReturn expected "Expected generic type argument" ;;
  result <- operands (consume CommaPunctuator)
              (fun _ => call ParseUnionType) false [inr lhs] ;;
  _ <- consume GreaterThanOperator
    orReturn expected "Unterminated generic type arguments" ;;
  finish GenericType result.

Definition parseExpressionSequence_ : M (option Tree) :=
  push ;;
  lhs <- call ParseAssignmentExpression
    orReturn expected "Expected expression sequence" ;;
  result <- operands (consume CommaPunctuator)
              (fun _ => call ParseAssignmentExpression) false
              [inr lhs] ;;
  finish ExpressionSequence result.

Definition parseAssignmentExpression_ : M (option Tree) :=
  push ;;
  lhs <- call ParseTernaryExpression
    orReturn expected "Expected assignment expression" ;;
  let result := [inr lhs] in
  push ;;
  operator <-
    consume PlusAssignOperator ?? consume MinusAssignOperator
    ?? consume TimesAssignOperator ?? consume DivideAssignOperator
    ?? consume ModuloAssignOperator ?? consume AndAssignOperator
    ?? consume OrAssignOperator ?? consume XorAssignOperator
    ?? consume CoalesceAssignOperator ?? consume LeftShiftAssignOperator
    ?? consume RightShiftAssignOperator
    ?? consume UnsignedRightShiftAssignOperator
    ?? consume AssignOperator ;;
  result <-
    match operator with
    | Some operator =>
        rhs <- call ParseTernaryExpression ;;
        match rhs with
        | Some rhs =>
            pop true ;; ret (result ++ [inl operator; inr rhs])
        | None => pop false ;; ret result
        end
    | None => pop false ;; ret result
    end ;;
  finish AssignmentExpression result.

Definition parseTernaryExpression_ : M (option Tree) :=
  push ;;
  condition <- call ParseCoalesceExpression
    orReturn expected "Expected ternary expression" ;;
  let result := [inr condition] in
  push ;;
  question <- consume OptionalOperator ;;
  result <-
    match question with
    | Some _ =>
        lhs <- call ParseAssignmentExpression ;;
        match lhs with
        | None => pop false ;; ret result
        | Some lhs =>
            colon <- consume ColonPunctuator ;;
            match colon with
            | None => pop false ;; ret result
            | Some _ =>
                rhs <- call ParseAssignmentExpression ;;
                match rhs with
                | None => pop false ;; ret result
                | Some rhs =>
                    pop true ;; ret (result ++ [inr lhs; inr rhs])
                end
            end
        end
    | None => pop false ;; ret result
    end ;;
  finish TernaryExpression result.

Definition parseCoalesceExpression_ : M (option Tree) :=
  push ;;
  lhs <- call ParseLogicalOrExpression
    orReturn expected "Expected coalesce expression" ;;
  result <- operands (consume CoalesceOperator)
              (fun _ => call ParseLogicalOrExpression) false
              [inr lhs] ;;
  finish CoalesceExpression result.

Definition parseLogicalOrExpression_ : M (option Tree) :=
  push ;;
  lhs <- call ParseLogicalAndExpression
    orReturn expected "Expected logical or expression" ;;
  result <- operands (consume OrKeyword)
              (fun _ => call ParseLogicalAndExpression) false
              [inr lhs] ;;
  finish LogicalOrExpression result.

Definition parseLogicalAndExpression_ : M (option Tree) :=
  push ;;
  lhs <- call ParseBitwiseOrExpression
    orReturn expected "Expected logical and expression" ;;
  result <- operands (consume AndKeyword)
              (fun _ => call ParseBitwiseOrExpression) false
              [inr lhs] ;;
  finish LogicalAndExpression result.

Definition parseBitwiseOrExpression_ : M (option Tree) :=
  push ;;
  lhs <- call ParseBitwiseXorExpression
    orReturn expected "Expected bitwise or expression" ;;
  result <- operands (consume OrOperator)
              (fun _ => call ParseBitwiseXorExpression) false
              [inr lhs] ;;
  finish BitwiseOrExpression result.

Definition parseBitwiseXorExpression_ : M (option Tree) :=
  push ;;
  lhs <- call ParseBitwiseAndExpression
    orReturn expected "Expected bitwise xor expression" ;;
  result <- operands (consume XorOperator)
              (fun _ => call ParseBitwiseAndExpression) false
              [inr lhs] ;;
  finish BitwiseXorExpression result.

Definition parseBitwiseAndExpression_ : M (option Tree) :=
  push ;;
  lhs <- call ParseEqualityExpression
    orReturn expected "Expected bitwise and expression" ;;
  result <- operands (consume AndOperator)
              (fun _ => call ParseEqualityExpression) false
              [inr lhs] ;;
  finish BitwiseAndExpression result.

Definition parseEqualityExpression_ : M (option Tree) :=
  push ;;
  lhs <- call ParseComparisonExpression
    orReturn expected "Expected equality expression" ;;
  result <- operands
              (consume EqualOperator ?? consume NotEqualOperator)
              (fun _ => call ParseComparisonExpression) true
              [inr lhs] ;;
  finish EqualityExpression result.

Definition parseComparisonExpression_ : M (option Tree) :=
  push ;;
  lhs <- call ParseShiftExpression
    orReturn expected "Expected comparison expression" ;;
  result <- operands
              (consume LessThanEqualOperator
               ?? consume GreaterThanEqualOperator
               ?? consume LessThanOperator
               ?? consume GreaterThanOperator
               ?? consume AsKeyword ?? consume IsKeyword
               ?? consume InKeyword)
              (fun operator =>
                 if isKind (type operator) AsKeyword
                    || isKind (type operator) IsKeyword
                 then call ParseUnaryType
                 else call ParseShiftExpression) true
              [inr lhs] ;;
  finish ComparisonExpression result.

Definition parseShiftExpression_ : M (option Tree) :=
  push ;;
  lhs <- call ParseTermExpression
    orReturn expected "Expected shift expression" ;;
  result <- operands
              (consume LeftShiftOperator ?? consume RightShiftOperator
               ?? consume UnsignedRightShiftOperator)
              (fun _ => call ParseTermExpression) true [inr lhs] ;;
  finish ShiftExpression result.

(** Unlike its siblings, this loop pushes the operator onto [result]
    before the right-hand side is parsed. *)
Definition parseTermExpression_ : M (option Tree) :=
  push ;;
  lhs <- call ParseFactorExpression
    orReturn expected "Expected term expression" ;;
  result <- loop fuel (fun result =>
    push ;;
    operator <- consume PlusOperator ?? consume MinusOperator ;;
    match operator with
    | None => pop false ;; ret (Break result)
    | Some operator =>
        let result := result ++ [inl operator] in
        rhs <- call ParseFactorExpression ;;
        match rhs with
        | None => pop false ;; ret (Break result)
        | Some rhs => pop true ;; ret (Next (result ++ [inr rhs]))
        end
    end) [inr lhs] ;;
  finish TermExpression result.

Definition parseFactorExpression_ : M (option Tree) :=
  push ;;
  lhs <- call ParseRangeExpression
    orReturn expected "Expected factor expression" ;;
  result <- operands
              (consume TimesOperator ?? consume DivideOperator
               ?? consume ModuloOperator)
              (fun _ => call ParseRangeExpression) true [inr lhs] ;;
  finish FactorExpression result.

Definition parseRangeExpression_ : M (option Tree) :=
  push ;;
  lhs <- call ParseUnaryExpression ;;
  operator <- consume InclusiveRangeOperator
              ?? consume ExclusiveRangeOperator ;;
  rhs <- match operator with
         | Some _ => call ParseUnaryExpression
         | None => ret None
         end ;;
  match lhs, rhs with
  | None, None => expected "Expected range expression"
  | _, _ =>
      finish RangeExpression
        (match lhs with Some l => [inr l] | None => [] end
         ++ match operator with Some o => [inl o] | None => [] end
         ++ match rhs with Some r => [inr r] | None => [] end)
  end.

Definition parseUnaryExpression_ : M (option Tree) :=
  push ;;
  result <- loop fuel (fun result =>
    operator <-
      consume NotKeyword ?? consume NotOperator ?? consume PlusOperator
      ?? consume MinusOperator ?? consume TimesOperator
      ?? consume AndOperator ;;
    match operator with
    | Some operator => ret (Next (result ++ [inl operator]))
    | None => ret (Break result)
    end) [] ;;
  operand <- call ParseReferenceExpression
    orReturn expected "Expected expression" ;;
  finish UnaryExpression (result ++ [inr operand]).

Definition parseReferenceExpression_ : M (option Tree) :=
  push ;;
  lhs <- call ParseLiteralValue orReturn expected "Expected value" ;;
  result <- loop fuel (fun result =>
    match_ <-
      call ParsePropertyAccess ?? call ParseOptionalPropertyAccess
      ?? call ParseArrayIndex ?? call ParseMethodCall ;;
    match match_ with
    | Some match_ => ret (Next (result ++ [inr match_]))
    | None => ret (Break result)
    end) [inr lhs] ;;
  finish ReferenceExpression result.

Definition parseLiteralValue_ : M (option Tree) :=
  push ;;
  value <-
    node (call ParseArrayInitializer) ?? leaf (consume Identifier)
    ?? leaf (consume StringLiteral) ?? leaf (consume IntLiteral)
    ?? leaf (consume FloatLiteral) ?? leaf (consume BinaryLiteral)
    ?? leaf (consume OctalLiteral) ?? leaf (consume HexadecimalLiteral)
    ?? leaf (consume BoolLiteral) ?? leaf (consume NullKeyword)
    ?? leaf (consume ThisKeyword) ?? leaf (consume SuperKeyword) ;;
  value <- match value with
           | Some _ => ret value
           | None => node (call ParseCast)
           end ;;
  match value with
  | Some value => finish LiteralValue [value]
  | None =>
      _ <- consume OpenParenthesis orReturn expected "Expected value" ;;
      value <- call ParseExpressionSequence
        orReturn expected "Expected expression sequence" ;;
      _ <- consume CloseParenthesis
        orReturn expected "Unterminated expression sequence" ;;
      finish LiteralValue [inr value]
  end.

Definition parseCast_ : M (option Tree) :=
  push ;;
  _ <- consume OpenParenthesis orReturn expected "Expected cast" ;;
  type <- call ParseUnaryType orReturn expected "Expected cast type" ;;
  _ <- consume CloseParenthesis orReturn expected "Unterminated cast" ;;
  value <- call ParseLiteralValue
    orReturn expected "Expected cast value" ;;
  finish TypeCast [inr type; inr value].

Definition parsePropertyAccess_ : M (option Tree) :=
  push ;;
  _ <- consume AccessOperator
    orReturn expected "Expected member access" ;;
  identifier <- consume Identifier
    orReturn expected "Expected identifier" ;;
  finish PropertyAccess [inl identifier].

Definition parseOptionalPropertyAccess_ : M (option Tree) :=
  push ;;
  _ <- consume OptionalAccessOperator
    orReturn expected "Expected optional reference" ;;
  match_ <- (leaf (consume Identifier) ?? node (call ParseArrayIndex)
             ?? node (call ParseMethodCall))
    orReturn expected "Expected reference" ;;
  finish OptionalPropertyAccess [match_].

Definition parseArrayIndex_ : M (option Tree) :=
  push ;;
  _ <- consume OpenBracket orReturn expected "Expected array index" ;;
  index <- call ParseExpressionSequence
    orReturn expected "Expected expression sequence" ;;
  _ <- consume CloseBracket
    orReturn expected "Unterminated array index" ;;
  finish ArrayIndex [inr index].

Definition parseMethodCall_ : M (option Tree) :=
  push ;;
  _ <- consume OpenParenthesis orReturn expected "Expected call" ;;
  r <- commaSeparated ParseMethodCallArgument
         "Expected call argument" ;;
  match r with
  | inr returned => ret returned
  | inl result =>
      _ <- consume CloseParenthesis
        orReturn expected "Unterminated call" ;;
      finish MethodCall result
  end.

Definition parseArrayInitializer_ : M (option Tree) :=
  push ;;
  _ <- consume OpenBracket
    orReturn expected "Expected array initializer" ;;
  r <- commaSeparated ParseArrayValue "Expected array value" ;;
  match r with
  | inr returned => ret returned
  | inl result =>
      _ <- consume CloseBracket
        orReturn expected "Unterminated array initializer" ;;
      finish ArrayInitializer result
  end.

Definition parseArrayValue_ : M (option Tree) :=
  push ;;
  argument <- call ParseAssignmentExpression
    orReturn expected "Expected expression" ;;
  finish ArrayValue [inr argument].

Definition parseMethodCallArgument_ : M (option Tree) :=
  push ;;
  argument <- call ParseAssignmentExpression
    orReturn expected "Expected expression" ;;
  finish MethodCallArgument [inr argument].

(** The body of each production. *)
Definition production (p : Production) : M (option Tree) :=
  match p with
  | ParseBody => parseBody_
  | ParseStatement => parseStatement_
  | ParseLabeledStatement => parseLabeledStatement_
  | ParseBlockStatement => parseBlockStatement_
  | ParseIfStatement => parseIfStatement_
  | ParseWhileStatement => parseWhileStatement_
  | ParseMatchStatement => parseMatchStatement_
  | ParseMatchOption => parseMatchOption_
  | ParseDefStatement => parseDefStatement_
  | ParseParameters => parseParameters_
  | ParseParameter => parseParameter_
  | ParseDoStatement => parseDoStatement_
  | ParseForStatement => parseForStatement_
  | ParseReturnStatement => parseReturnStatement_
  | ParseContinueStatement => parseContinueStatement_
  | ParseBreakStatement => parseBreakStatement_
  | ParseEmptyStatement => parseEmptyStatement_
  | ParseExpressionStatement => parseExpressionStatement_
  | ParseFieldStatement => parseFieldStatement_
  | ParseUnionType => parseUnionType_
  | ParseIntersectionType => parseIntersectionType_
  | ParseUnaryType => parseUnaryType_
  | ParseArrayType => parseArrayType_
  | ParseGenericType => parseGenericType_
  | ParseExpressionSequence => parseExpressionSequence_
  | ParseAssignmentExpression => parseAssignmentExpression_
  | ParseTernaryExpression => parseTernaryExpression_
  | ParseCoalesceExpression => parseCoalesceExpression_
  | ParseLogicalOrExpression => parseLogicalOrExpression_
  | ParseLogicalAndExpression => parseLogicalAndExpression_
  | ParseBitwiseOrExpression => parseBitwiseOrExpression_
  | ParseBitwiseXorExpression => parseBitwiseXorExpression_
  | ParseBitwiseAndExpression => parseBitwiseAndExpression_
  | ParseEqualityExpression => parseEqualityExpression_
  | ParseComparisonExpression => parseComparisonExpression_
  | ParseShiftExpression => parseShiftExpression_
  | ParseTermExpression => parseTermExpression_
  | ParseFactorExpression => parseFactorExpression_
  | ParseRangeExpression => parseRangeExpression_
  | ParseUnaryExpression => parseUnaryExpression_
  | ParseReferenceExpression => parseReferenceExpression_
  | ParseLiteralValue => parseLiteralValue_
  | ParseCast => parseCast_
  | ParsePropertyAccess => parsePropertyAccess_
  | ParseOptionalPropertyAccess => parseOptionalPropertyAccess_
  | ParseArrayIndex => parseArrayIndex_
  | ParseMethodCall => parseMethodCall_
  | ParseArrayInitializer => parseArrayInitializer_
  | ParseArrayValue => parseArrayValue_
  | ParseMethodCallArgument => parseMethodCallArgument_
  end.

End Productions.

(** A call of a production; each nested call and each round of a loop
    takes one unit of fuel. *)
Fixpoint parse (fuel : nat) (p : Production) : M (option Tree) :=
  match fuel with
  | O => fun _ => OutOfFuel
  | S fuel' => production fuel' (parse fuel') p
  end.

Definition parseBody (fuel : nat) := parse fuel ParseBody.
Definition parseStatement (fuel : nat) := parse fuel ParseStatement.
Definition parseMatchStatement (fuel : nat) := parse fuel ParseMatchStatement.
Definition parseAssignmentExpression (fuel : nat) :=
  parse fuel ParseAssignmentExpression.
Definition parseTermExpression (fuel : nat) := parse fuel ParseTermExpression.

(** What [ast] returns: a tree, the stored error, or [null] when no
    error was stored. *)
Inductive Ast : Set :=
  | AstTree (t : Tree)
  | AstError (e : ParserError)
  | AstNull.

(** The part of [ast] that follows [const result = this.parseBody()]. *)
Definition astResult (result : option Tree) : M Ast :=
  fun s =>
    let finish s :=
      match result, tokens s with
      | Some t, [] => AstTree t
      | _, _ =>
          match error s with
          | Some e => AstError e
          | None => AstNull
          end
      end in
    match tokens s with
    | token :: _ =>
        bind (throw (A := unit)
                (mkParserError "Unexpected token" (Some (text token))
                   (start token) (stop token)) false)
             (fun _ s' => Done (finish s') s') s
    | [] => Done (finish s) s
    end.

(** [Parser.ast] *)
Definition ast (fuel : nat) : M Ast :=
  result <- parseBody fuel ;; astResult result.

End Parser.

(** The span invariant of a tree: its span starts no later than its
    first child, ends no earlier than its last child, the children are
    in source order, and the same holds of every sub-tree. *)
Fixpoint inOrder (items : list Item) : bool :=
  match items with
  | a :: (b :: _) as rest => (itemStop a <=? itemStart b)%nat && inOrder rest
  | _ => true
  end.

Definition lastItem (items : list Item) : option Item :=
  match rev items with
  | i :: _ => Some i
  | [] => None
  end.

Fixpoint spanInvariant (t : Tree) : bool :=
  let 'mkTree _ s e items := t in
  match items with
  | first :: _ => (s <=? itemStart first)%nat
  | [] => true
  end
  && match lastItem items with
     | Some l => (itemStop l <=? e)%nat
     | None => true
     end
  && inOrder items
  && (fix all (l : list Item) : bool :=
        match l with
        | [] => true
        | inl _ :: r => all r
        | inr c :: r => spanInvariant c && all r
        end) items.

(** Lexing followed by parsing, as the test driver does it. *)
Inductive Parsed : Set :=
  | ParsedTree (t : Tree)
  | ParseFailed (e : ParserError)
  | LexFailed (e : LexerError)
  | Unfinished.

Definition compile (fuel : nat) (source : JsString.t) : Parsed :=
  match Lexer.tokens source with
  | Lexer.Tokens ts =>
      match Parser.ast fuel (Parser.init ts) with
      | Parser.Done (Parser.AstTree t) _ => ParsedTree t
      | Parser.Done (Parser.AstError e) _ => ParseFailed e
      | _ => Unfinished
      end
  | Lexer.LexError e => LexFailed e
  | Lexer.LexStuck => Unfinished
  end.

(* ================================================================= *)
(** ** Utilities

    [toPosition] and [mutate] of [utils.ts]. *)

Module Utils.

(** [interface Position { line; column; index }] *)
Record Position : Set := mkPosition {
  line : nat;
  column : nat;
  index : nat
}.

(** The [for] loop of [toPosition]: [count] rounds are left, [text]
    holds the characters from [text[i]] on; past its end [text[i]] is
    [undefined], which is neither a carriage return nor a line feed. *)
Fixpoint scan (count : nat) (text : JsString.t) (line column : nat)
  : nat * nat :=
  match count with
  | O => (line, column)
  | S count' =>
      match text with
      | [] => scan count' [] line (S column)
      | c :: text' =>
          if (c =? 13)%N then scan count' text' line column
          else if (c =? 10)%N then scan count' text' (S line) 1
          else scan count' text' line (S column)
      end
  end.

(** [toPosition(index, text)] *)
Definition toPosition (index : nat) (text : JsString.t) : Position :=
  let (line, column) := scan index text 1 1 in
  mkPosition line column index.

(** Arrays live in a store and are passed by reference. *)
Definition Store (T : Type) : Type := nat -> list T.

Definition write {T} (ref : nat) (items : list T) (h : Store T) : Store T :=
  fun r => if (r =? ref)%nat then items else h r.

(** [for (const item of content) original.push(item)]: the iterator
    reads [content[i]] from the array as it is at that moment, and the
    loop ends when there is none; [None] is the loop running out of
    fuel. *)
Fixpoint pushAll {T} (fuel : nat) (original content : nat) (i : nat)
         (h : Store T) : option (Store T) :=
  match fuel with
  | O => None
  | S fuel' =>
      match nth_error (h content) i with
      | None => Some h
      | Some item =>
          pushAll fuel' original content (S i)
                  (write original (h original ++ [item]) h)
      end
  end.

(** [mutate(original, content)]: [original.length = 0], then the
    loop. *)
Definition mutate {T} (original content : nat) (h : Store T)
  : option (Store T) :=
  let h0 := write original [] h in
  pushAll (S (length (h0 content))) original content 0 h0.

End Utils.

(* ================================================================= *)
(** ** Specification vocabulary *)

(** The only child of a tree, when it is a tree. *)
Definition onlyChild (t : Tree) : option Tree :=
  match Tree.items t with
  | [inr c] => Some c
  | _ => None
  end.

(** The tree reached from [t] through [n] only children. *)
Fixpoint descend (n : nat) (t : Tree) : option Tree :=
  match n with
  | O => Some t
  | S n' =>
      match onlyChild t with
      | Some c => descend n' c
      | None => None
      end
  end.

(** A literal in double quotes. *)
Definition quoted (s : string) : JsString.t := quote2 :: js s ++ [quote2].

(** The code points of a string, read as UTF-16. *)
Fixpoint codePoints (s : JsString.t) : list N :=
  match s with
  | [] => []
  | hi :: r =>
      match r with
      | lo :: r' =>
          if between 55296 56319 hi && between 56320 57343 lo
          then (65536 + (hi - 55296) * 1024 + (lo - 56320))%N :: codePoints r'
          else hi :: codePoints r
      | [] => [hi]
      end
  end.

(** The token kinds [parseAssignmentExpression] takes for an operator. *)
Definition assignmentOperators : list TokenType :=
  [ PlusAssignOperator; MinusAssignOperator; TimesAssignOperator;
    DivideAssignOperator; ModuloAssignOperator; AndAssignOperator;
    OrAssignOperator; XorAssignOperator; CoalesceAssignOperator;
    LeftShiftAssignOperator; RightShiftAssignOperator;
    UnsignedRightShiftAssignOperator; AssignOperator ].

Definition isAssignment (t : Token) : bool :=
  existsb (isKind (type t)) assignmentOperators.

(** The shape of the children of an [AssignmentExpression]: a ternary
    expression, alone or followed by one assignment operator and one
    more ternary expression. *)
Definition assignmentShape (t : Tree) : Prop :=
  exists lhs,
    Tree.type lhs = TernaryExpression /\
    (Tree.items t = [inr lhs]
     \/ exists operator rhs,
         Tree.items t = [inr lhs; inl operator; inr rhs] /\
         isAssignment operator = true /\
         Tree.type rhs = TernaryExpression).

(** The tokens of [a +]. *)
Definition danglingPlus : list Token :=
  [ mkToken (Kind Identifier) (js "a") 0 1;
    mkToken (Kind PlusOperator) (js "+") 2 3 ].

Module LexerSpec.

Import Lexer.

(** A regular expression matches a non-empty prefix of the text. *)
Definition matcherOk (f : JsString.t -> option JsString.t) : Prop :=
  forall text m, f text = Some m -> m <> [] /\ begins text m.

(** What a round that does not abort has read: a non-empty prefix
    [pre] of the text, and the same round is played on any text that
    begins with [pre]. *)
Definition readBy (str text : JsString.t) (r : Round) : Prop :=
  match r with
  | Continue str' text' =>
      exists pre add,
        pre <> [] /\ text = pre ++ text' /\ str' = str ++ add /\
        forall source start rest,
          round source start str (pre ++ rest) = Continue str' rest
  | Break str' text' =>
      exists c,
        text = c :: text' /\ str' = str ++ [c] /\
        hd c str = c /\
        forall source start rest,
          round source start str (c :: rest) = Break str' rest
  | Abort _ => True
  end.

(** The part [m] of the source that a token was made from, and how
    the token's text relates to it. *)
Definition madeFrom (m : JsString.t) (t : Token) : Prop :=
  (type t <> Kind StringLiteral /\ text t = m)
  \/ (type t = Kind StringLiteral /\
      exists q body,
        (q = quote1 \/ q = quote2) /\ m = q :: body ++ [q] /\
        tokens m = Tokens [mkToken (Kind StringLiteral) (text t) 0
                             (length m)]).

Definition consumeOk (pre text : JsString.t)
           (r : Consumed * JsString.t) : Prop :=
  match fst r with
  | Tok t =>
      exists m, m <> [] /\ text = m ++ snd r /\
                start t = length pre /\
                stop t = length pre + length m /\
                madeFrom m t
  | Skipped => exists m, m <> [] /\ text = m ++ snd r
  | Failed _ => True
  | Stuck => False
  end.

(** The token was made from the slice of the source it spans. *)
Definition lexemeAt (source : JsString.t) (t : Token) : Prop :=
  madeFrom (slice (start t) (stop t) source) t.

End LexerSpec.

Module ParserSpec.

Import Parser.

(** [m'] returns whatever [m] returns. *)
Definition refines {A} (m m' : M A) : Prop :=
  forall s a s', m s = Done a s' -> m' s = Done a s'.

(** The message of the branch of [parseMatchStatement] that is taken
    when [parseBody] returns [undefined]. *)
Definition dead : string := "Expected match options or fallback".

Definition live (msg : string) : bool := negb (String.eqb msg dead).

(** How the error slot may change: it is left alone, or it holds a
    new error that starts no earlier than the one it held. *)
Definition furthest (s s' : State) : Prop :=
  error s' = error s
  \/ exists e',
      error s' = Some e' /\ live (message e') = true /\
      forall e, error s = Some e -> estart e <= estart e'.

Definition respects {A} (m : M A) : Prop :=
  forall s a s', m s = Done a s' -> furthest s s'.

(** What [m] returns satisfies [P]. *)
Definition returns {A} (P : A -> Prop) (m : M A) : Prop :=
  forall s a s', m s = Done a s' -> P a.

(** The error slot after [throw]: the new error replaces the stored
    one if the slot is empty or the new error starts no earlier. *)
Definition stored (old : option ParserError) (e : ParserError)
  : option ParserError :=
  match old with
  | None => Some e
  | Some o => if (estart o <=? estart e)%nat then Some e else Some o
  end.

(** The kind of tree each production builds. *)
Definition builds (p : Production) : TreeType :=
  match p with
  | ParseBody => Body
  | ParseStatement => Statement
  | ParseLabeledStatement => LabeledStatement
  | ParseBlockStatement => BlockStatement
  | ParseIfStatement => IfStatement
  | ParseWhileStatement => WhileStatement
  | ParseMatchStatement => MatchStatement
  | ParseMatchOption => MatchOption
  | ParseDefStatement => DefStatement
  | ParseParameters => Parameters'
  | ParseParameter => Parameter'
  | ParseDoStatement => DoStatement
  | ParseForStatement => ForStatement
  | ParseReturnStatement => ReturnStatement
  | ParseContinueStatement => ContinueStatement
  | ParseBreakStatement => BreakStatement
  | ParseEmptyStatement => EmptyStatement
  | ParseExpressionStatement => ExpressionStatement
  | ParseFieldStatement => FieldStatement
  | ParseUnionType => UnionType
  | ParseIntersectionType => IntersectionType
  | ParseUnaryType => UnaryType
  | ParseArrayType => ArrayType
  | ParseGenericType => GenericType
  | ParseExpressionSequence => ExpressionSequence
  | ParseAssignmentExpression => AssignmentExpression
  | ParseTernaryExpression => TernaryExpression
  | ParseCoalesceExpression => CoalesceExpression
  | ParseLogicalOrExpression => LogicalOrExpression
  | ParseLogicalAndExpression => LogicalAndExpression
  | ParseBitwiseOrExpression => BitwiseOrExpression
  | ParseBitwiseXorExpression => BitwiseXorExpression
  | ParseBitwiseAndExpression => BitwiseAndExpression
  | ParseEqualityExpression => EqualityExpression
  | ParseComparisonExpression => ComparisonExpression
  | ParseShiftExpression => ShiftExpression
  | ParseTermExpression => TermExpression
  | ParseFactorExpression => FactorExpression
  | ParseRangeExpression => RangeExpression
  | ParseUnaryExpression => UnaryExpression
  | ParseReferenceExpression => ReferenceExpression
  | ParseLiteralValue => LiteralValue
  | ParseCast => TypeCast
  | ParsePropertyAccess => PropertyAccess
  | ParseOptionalPropertyAccess => OptionalPropertyAccess
  | ParseArrayIndex => ArrayIndex
  | ParseMethodCall => MethodCall
  | ParseArrayInitializer => ArrayInitializer
  | ParseArrayValue => ArrayValue
  | ParseMethodCallArgument => MethodCallArgument
  end.

(** The error [ast] makes of the first token left in the root cursor. *)
Definition unexpected (token : Token) : ParserError :=
  mkParserError "Unexpected token" (Some (text token)) (start token)
    (stop token).

Definition ofKind (k : TreeType) (r : option Tree) : Prop :=
  match r with
  | Some t => Tree.type t = k
  | None => True
  end.

(** *** Termination *)

(** [m] returns from [s], and the result and the state it returns
    satisfy [Q]. *)
Definition wp {A} (m : M A) (Q : A -> State -> Prop) (s : State) : Prop :=
  exists a s', m s = Done a s' /\ Q a s'.

(** [c'] is what is left of the cursor [c] once its first tokens are
    consumed. *)
Definition rest (c' c : list Token) : Prop := exists pre, c = pre ++ c'.

(** The longest chain of productions that call one another before a
    token is consumed, counted from each production. *)
Definition rank (p : Production) : nat :=
  match p with
  | ParseBody => 22
  | ParseStatement => 21
  | ParseExpressionStatement => 20
  | ParseExpressionSequence | ParseArrayValue | ParseMethodCallArgument
  | ParseMatchOption => 19
  | ParseAssignmentExpression => 18
  | ParseTernaryExpression => 17
  | ParseCoalesceExpression => 16
  | ParseLogicalOrExpression => 15
  | ParseLogicalAndExpression => 14
  | ParseBitwiseOrExpression => 13
  | ParseBitwiseXorExpression => 12
  | ParseBitwiseAndExpression => 11
  | ParseEqualityExpression => 10
  | ParseComparisonExpression => 9
  | ParseShiftExpression => 8
  | ParseTermExpression => 7
  | ParseFactorExpression => 6
  | ParseRangeExpression => 5
  | ParseUnaryExpression => 4
  | ParseReferenceExpression | ParseUnionType => 3
  | ParseLiteralValue | ParseIntersectionType => 2
  | _ => 1
  end.

(** Fuel that is enough for production [p] on a cursor of [n] tokens. *)
Definition need (p : Production) (n : nat) : nat := n * 23 + rank p + 1.

(** How a production that was entered with the cursor [c] on top of
    the frames [stk] leaves the state: with a tree, the cursor holds
    what is left of [c] after the tokens of the tree; without one, the
    cursor is [c] again.  Only the error slot changes besides. *)
Definition lands (p : Production) (tks : list Token)
           (stk : list (list Token)) (c : list Token)
           (r : option Tree) (s' : State) : Prop :=
  match r with
  | Some _ =>
      exists c' e',
        s' = setCurrent c' (mkState tks stk e') /\
        rest c' c /\
        (p <> ParseBody -> length c' < length c)
  | None => exists e', s' = mkState tks stk e'
  end.

(** [m] returns from [s] as production [p] should. *)
Definition finishes (p : Production) (m : M (option Tree)) (s : State)
  : Prop :=
  wp m (lands p (tokens s) (stack s) (current s)) s.

End ParserSpec.

(* ================================================================= *)
(** ** Vocabulary of the further properties *)

(** The tokens lie one after another between [lo] and [hi], and none
    is empty. *)
Fixpoint spansWithin (lo hi : nat) (ts : list Token) : bool :=
  match ts with
  | [] => (lo <=? hi)%nat
  | t :: r =>
      (lo <=? start t)%nat && (start t <? stop t)%nat
      && spansWithin (stop t) hi r
  end.

(** No entry of the table is a proper prefix of an entry that comes
    after it. *)
Fixpoint longestFirst (tbl : list (string * TokenType)) : bool :=
  match tbl with
  | [] => true
  | (n, _) :: tbl' =>
      forallb (fun e => negb (startsWith (js (fst e)) (js n)
                              && (length (js n) <? length (js (fst e)))%nat))
              tbl'
      && longestFirst tbl'
  end.

(** The shape of the tail of an identifier: letters, digits and
    underscores, each underscore followed by a letter or a digit. *)
Definition underscoresJoin (m : JsString.t) : Prop :=
  Forall (fun c => isAlnum c = true \/ c = 95%N) m /\
  forall a b, m = a ++ 95%N :: b ->
    exists d b', b = d :: b' /\ isAlnum d = true.

(** The text that follows an identifier cannot extend it. *)
Definition endsWord (rest : JsString.t) : Prop :=
  match rest with
  | [] => True
  | d :: rest' =>
      isAlnum d = false /\
      (d = 95%N -> match rest' with
                   | e :: _ => isAlnum e = false
                   | [] => True
                   end)
  end.


(** The messages of the errors the token loop can return. *)
Definition lexerMessages : list string :=
  [ "Unexpected end of escape";
    "Invalid or lowercase hexadecimal escape sequence";
    "Invalid or lowercase unicode escape sequence";
    "Out of range unicode escape sequence";
    "Unterminated string literal";
    "Unexpected character" ].

(** The messages of the errors of the literal loop. *)
Definition literalMessages : list string :=
  [ "Unexpected end of escape";
    "Invalid or lowercase hexadecimal escape sequence";
    "Invalid or lowercase unicode escape sequence";
    "Out of range unicode escape sequence";
    "Unterminated string literal" ].

(** The error [e] is the one of a text whose first lexeme cannot be
    read.  When the text begins with a quote, [e] is an error of the
    literal loop, without content, that ends within the text, at its
    end when the literal or an escape is cut off by it; otherwise [e]
    is the error for an unexpected character, which spans and holds
    the first character of the text. *)
Definition failsAt (rest : JsString.t) (e : LexerError) : Prop :=
  match rest with
  | [] => False
  | c :: _ =>
      if ((c =? quote1)%N || (c =? quote2)%N)%bool then
        lstart e = 0 /\ lcontent e = None /\
        In (lmessage e) literalMessages /\
        1 <= lstop e <= length rest /\
        (lmessage e = "Unterminated string literal"
         \/ lmessage e = "Unexpected end of escape" ->
         lstop e = length rest)
      else e = mkLexerError "Unexpected character" (Some [c]) 0 1
  end.

(** A regular expression reads no further than its match: on a text
    cut after the match it matches the same, and it matches nothing
    on a text cut from one it matches nothing on. *)
Definition stable (f : JsString.t -> option JsString.t) : Prop :=
  forall x w,
    match f (x ++ w) with
    | Some m => length m <= length x -> f x = Some m
    | None => f x = None
    end.

(** The token that the spelling [n] of a table entry of kind [k] makes
    when it is lexed on its own. *)
Definition spelled (n : string) (k : TokenType) : Token :=
  mkToken (Kind k) (js n) 0 (length (js n)).

(** The uppercase hexadecimal digit of value [d]. *)
Definition hexDigit (d : N) : N := if (d <? 10)%N then (48 + d)%N else (55 + d)%N.

(** [p] holds of every number below [n]. *)
Fixpoint allBelow (p : N -> bool) (n : nat) : bool :=
  match n with
  | O => true
  | S n' => if p (N.of_nat n') then allBelow p n' else false
  end.

(** A hexadecimal digit is no white space, no sign, no [x] and no
    brace, and its value is below 16. *)
Definition plainDigit (c : N) : bool :=
  implb (Chars.isHexAny c)
        (negb (Chars.isStrWhiteSpace c) && negb (c =? 43)%N && negb (c =? 45)%N
         && negb (c =? 120)%N && negb (c =? 88)%N && negb (c =? Chars.openCurly)%N
         && (Lexer.hexValue c <? 16)%N).

(** The [w] uppercase hexadecimal digits of [n], most significant
    first. *)
Fixpoint hexDigits (w : nat) (n : N) : JsString.t :=
  match w with
  | O => []
  | S w' => hexDigits w' (n / 16) ++ [hexDigit (n mod 16)]
  end.

(** A token, an error or a result of the lexer moved [d] code units to
    the right. *)
Definition shiftToken (d : nat) (t : Token) : Token :=
  mkToken (type t) (text t) (d + start t) (d + stop t).

Definition shiftError (d : nat) (e : LexerError) : LexerError :=
  mkLexerError (lmessage e) (lcontent e) (d + lstart e) (d + lstop e).

Definition shiftLexed (d : nat) (r : Lexer.Lexed) : Lexer.Lexed :=
  match r with
  | Lexer.Tokens ts => Lexer.Tokens (map (shiftToken d) ts)
  | Lexer.LexError e => Lexer.LexError (shiftError d e)
  | Lexer.LexStuck => Lexer.LexStuck
  end.

Definition shiftConsumed (d : nat) (c : Lexer.Consumed) : Lexer.Consumed :=
  match c with
  | Lexer.Tok t => Lexer.Tok (shiftToken d t)
  | Lexer.Failed e => Lexer.Failed (shiftError d e)
  | other => other
  end.

(** An error of the literal loop: it starts where the literal starts
    and ends where the text [x] still to be read starts, [x] of at most
    [bound] code units. *)
Definition literalError (source : JsString.t) (from bound : nat)
           (e : LexerError) : Prop :=
  lstart e = from /\ lcontent e = None /\
  In (lmessage e) lexerMessages /\
  exists x, lstop e = Lexer.index source x /\ length x <= bound.

(** A round of the literal loop, moved one code unit to the right. *)
Definition shiftRound (r : Lexer.Round) : Lexer.Round :=
  match r with
  | Lexer.Abort e => Lexer.Abort (shiftError 1 e)
  | other => other
  end.

Definition isLineFeed (c : N) : bool := (c =? 10)%N.
Definition isCarriageReturn (c : N) : bool := (c =? 13)%N.

(** The kinds of the tokens whose text is not fixed by a table. *)
Definition freeKinds : list TokenType :=
  [ Identifier; StringLiteral; IntLiteral; FloatLiteral; BinaryLiteral;
    OctalLiteral; HexadecimalLiteral ].

(** The text of a token is a spelling of its kind in the tables of
    keywords and operators, unless its kind is one of the free ones;
    and an [Identifier] is no keyword. *)
Definition wellSpelled (t : Token) : Prop :=
  match type t with
  | Kind k =>
      (In k freeKinds
       \/ exists n,
           In (n, k) (Lexer.keywords ++ Lexer.operatorEntries)
           /\ text t = js n)
      /\ (k = Identifier -> Lexer.inKeywords (text t) = false)
  | Inherited _ => True
  end.

(** A part [pre] of a literal that a round of its loop reads as the
    code units [add], whatever comes before and after it. *)
Definition readsAs (q : N) (pre add : JsString.t) : Prop :=
  pre <> [] /\
  forall source from str after,
    Lexer.round source from (q :: str) (pre ++ after)
    = Lexer.Continue ((q :: str) ++ add) after.

(** A code unit written as an escape of four digits. *)
Definition escaped (c : N) : JsString.t :=
  backslash :: code "u" :: hexDigits 4 c.

(** A code unit as it can be written between the quotes [q]: as it
    is, or as an escape when it is a backslash or the quote. *)
Definition written (q c : N) : JsString.t :=
  if (c =? backslash)%N || (c =? q)%N then escaped c else [c].

(** The text holds the end [*/] of a block comment. *)
Fixpoint closesComment (s : JsString.t) : bool :=
  match s with
  | [] => false
  | c :: r =>
      ((c =? 42)%N && match r with d :: _ => (d =? 47)%N | [] => false end)
      || closesComment r
  end.

(** Tokens in source order: none ends before it starts, and each
    starts no earlier than the one before it ends. *)
Fixpoint ordered (ts : list Token) : bool :=
  match ts with
  | [] => true
  | t :: r =>
      (start t <=? stop t)%nat
      && match r with
         | [] => true
         | u :: _ => (stop t <=? start u)%nat
         end
      && ordered r
  end.

(** The tokens of [a + b;] and the tree [parseTermExpression] makes of
    them. *)
Definition sumTokens : list Token :=
  [ mkToken (Kind Identifier) (js "a") 0 1;
    mkToken (Kind PlusOperator) (js "+") 2 3;
    mkToken (Kind Identifier) (js "b") 4 5;
    mkToken (Kind SemicolonPunctuator) (js ";") 5 6 ].

Definition operandTree (t : Token) (lo hi : nat) : Tree :=
  mkTree FactorExpression lo hi
    [inr (mkTree RangeExpression lo hi
       [inr (mkTree UnaryExpression lo hi
          [inr (mkTree ReferenceExpression lo hi
             [inr (mkTree LiteralValue lo hi [inl t])])])])].

Definition sumTree : Tree :=
  mkTree TermExpression 0 5
    [ inr (operandTree (mkToken (Kind Identifier) (js "a") 0 1) 0 2);
      inl (mkToken (Kind PlusOperator) (js "+") 2 3);
      inr (operandTree (mkToken (Kind Identifier) (js "b") 4 5) 4 5) ].

(** The tokens of [{ ; }] and the tree [ast] makes of them. *)
Definition blockTokens : list Token :=
  [ mkToken (Kind OpenBrace) (js "{") 0 1;
    mkToken (Kind SemicolonPunctuator) (js ";") 2 3;
    mkToken (Kind CloseBrace) (js "}") 4 5 ].

Definition blockTree : Tree :=
  mkTree Body 0 4
    [inr (mkTree Statement 0 4
       [inr (mkTree BlockStatement 0 4
          [inr (mkTree Statement 2 4
             [inr (mkTree EmptyStatement 2 4 [])])])])].

(** The tokens of [while a], which is no statement. *)
Definition whileTokens : list Token :=
  [ mkToken (Kind WhileKeyword) (js "while") 0 5;
    mkToken (Kind Identifier) (js "a") 6 7 ].

(** The tokens of [a.b], and the parser state after the receiver [a]:
    a frame over [.b] above the root cursor. *)
Definition accessTokens : list Token :=
  [ mkToken (Kind Identifier) (js "a") 0 1;
    mkToken (Kind AccessOperator) (js ".") 1 2;
    mkToken (Kind Identifier) (js "b") 2 3 ].

Definition accessState : Parser.State :=
  Parser.mkState accessTokens (tl accessTokens :: nil) None.

(** The tree that lexing and parsing [a + b;] return: a chain of
    nodes of one child from the [Body] down to the [TermExpression]
    [sumTree]. *)
Definition sumProgram : Tree :=
  fold_right (fun k t => mkTree k 0 5 [inr t]) sumTree
    [ Body; Statement; ExpressionStatement; ExpressionSequence;
      AssignmentExpression; TernaryExpression; CoalesceExpression;
      LogicalOrExpression; LogicalAndExpression; BitwiseOrExpression;
      BitwiseXorExpression; BitwiseAndExpression; EqualityExpression;
      ComparisonExpression; ShiftExpression ].

(** The span invariant at one node: the span starts no later than the
    first child, ends no earlier than the last child, and the children
    are in source order. *)
Definition spanned (t : Tree) : bool :=
  match Tree.items t with
  | first :: _ => (Tree.start t <=? itemStart first)%nat
  | [] => true
  end
  && match lastItem (Tree.items t) with
     | Some l => (itemStop l <=? Tree.stop t)%nat
     | None => true
     end
  && inOrder (Tree.items t).

(** The nodes contained in a tree: the tree and the nodes contained in
    the trees among its children. *)
Fixpoint nodes (t : Tree) : list Tree :=
  let 'mkTree _ _ _ items := t in
  t :: (fix each (l : list Item) : list Tree :=
          match l with
          | [] => []
          | inl _ :: r => each r
          | inr c :: r => nodes c ++ each r
          end) items.

Module SpanSpec.

Import Parser ParserSpec.

(** [this.start(c)] while the root array holds [tks]. *)
Definition pos (tks c : list Token) : nat := startOf (mkState tks [] None) c.

(** The cursor [c0] that a production finds when it is entered with
    the frames [stk] above the root array [tks]. *)
Definition entered (tks : list Token) (stk : list (list Token))
           (c0 : list Token) : Prop :=
  c0 = current (mkState tks stk None).

(** How far the span invariant of a returned tree depends on what
    follows it.  A [Closed] tree ends with a statement or with a
    terminator that was consumed, and keeps the invariant wherever it
    ends.  A [Tight] tree may end with a token, which lies within the
    tree if another token follows: at the end of the input [stop]
    falls back to the start of the last token.  A [Loose] tree may end
    with a [TermExpression], whose last child can be an operator that
    was given back to the cursor. *)
Inductive Class : Set := Closed | Tight | Loose.

Definition class (p : Production) : Class :=
  match p with
  | ParseBody | ParseStatement | ParseLabeledStatement
  | ParseBlockStatement | ParseIfStatement | ParseWhileStatement
  | ParseMatchStatement | ParseMatchOption | ParseDefStatement
  | ParseParameters | ParseDoStatement | ParseForStatement
  | ParseReturnStatement | ParseContinueStatement | ParseBreakStatement
  | ParseEmptyStatement | ParseExpressionStatement | ParseFieldStatement
  | ParseArrayType | ParseGenericType | ParseArrayIndex | ParseMethodCall
  | ParseArrayInitializer => Closed
  | ParseParameter | ParseUnionType | ParseIntersectionType
  | ParseUnaryType | ParseFactorExpression | ParseRangeExpression
  | ParseUnaryExpression | ParseReferenceExpression | ParseLiteralValue
  | ParseCast | ParsePropertyAccess | ParseOptionalPropertyAccess => Tight
  | ParseExpressionSequence | ParseAssignmentExpression
  | ParseTernaryExpression | ParseCoalesceExpression
  | ParseLogicalOrExpression | ParseLogicalAndExpression
  | ParseBitwiseOrExpression | ParseBitwiseXorExpression
  | ParseBitwiseAndExpression | ParseEqualityExpression
  | ParseComparisonExpression | ParseShiftExpression
  | ParseTermExpression | ParseArrayValue | ParseMethodCallArgument => Loose
  end.

(** The cursor begins with an operator of [parseTermExpression]. *)
Definition startsTerm (c : list Token) : bool :=
  match c with
  | t :: _ =>
      isKind (type t) PlusOperator || isKind (type t) MinusOperator
  | [] => false
  end.

(** What is left in the cursor lets a tree of class [k] keep the span
    invariant. *)
Definition settledAt (k : Class) (c : list Token) : bool :=
  match k with
  | Closed => true
  | Tight => nonEmpty c
  | Loose => nonEmpty c && negb (startsTerm c)
  end.

Definition settled (p : Production) (c : list Token) : bool :=
  settledAt (class p) c.

Definition itemGood (i : Item) : Prop :=
  match i with
  | inl _ => True
  | inr t => spanInvariant t = true
  end.

(** The items lie one after another between [lo] and [hi], and every
    tree among them keeps the span invariant. *)
Fixpoint placed (lo : nat) (items : list Item) (hi : nat) : Prop :=
  match items with
  | [] => lo <= hi
  | i :: r => lo <= itemStart i /\ itemGood i /\ placed (itemStop i) r hi
  end.

(** The token [t] ends before what follows it in the cursor. *)
Definition follows (t : Token) (c : list Token) : Prop :=
  match c with
  | [] => True
  | u :: _ => stop t <= start u
  end.

(** What a production entered with the cursor [c] returns: as [lands]
    has it, and besides, a tree spans from the start of [c] to the
    start of what is left, it keeps the span invariant if the tokens
    are in order and what is left settles it, and an error is stored
    whenever no tree is returned. *)
Definition delivers (p : Production) (tks : list Token)
           (stk : list (list Token)) (c : list Token)
           (r : option Tree) (s' : State) : Prop :=
  match r with
  | Some t =>
      exists c' e',
        s' = setCurrent c' (mkState tks stk e') /\
        rest c' c /\
        (p <> ParseBody -> length c' < length c) /\
        Tree.start t = pos tks c /\
        Tree.stop t = pos tks c' /\
        (ordered tks = true -> rest c tks -> settled p c' = true ->
         spanInvariant t = true)
  | None => exists e', s' = mkState tks stk (Some e')
  end.

(** The invariant of a loop that collects [result]: the cursor holds
    what is left of [cl], and the items collected lie in their places
    once what is left settles trees of class [k]. *)
Definition collects (tks : list Token) (stk : list (list Token))
           (k : Class) (c0 cl : list Token) (result : list Item)
           (s : State) : Prop :=
  exists c' e',
    s = mkState tks (c' :: stk) e' /\ rest c' cl /\
    (ordered tks = true -> rest c0 tks -> settledAt k c' = true ->
     placed (pos tks c0) result (pos tks c')).

(** The class of the trees that the loop of a production collects. *)
Definition inner (p : Production) : Class :=
  match p with
  | ParseBody | ParseBlockStatement | ParseMatchStatement => Closed
  | ParseParameters | ParseMethodCall | ParseArrayInitializer
  | ParseGenericType => Loose
  | ParseTermExpression => Tight
  | _ => class p
  end.

(** Marks left on the cursors that were looked at. *)
Definition surveyed (c : list Token) : Prop := True.
Definition compared (c c' : list Token) : Prop := True.

End SpanSpec.

(* ================================================================= *)
(** * Properties *)

(** ** Facts about strings *)

Module JsStringFacts.

Lemma eqb_eq a b : JsString.eqb a b = true <-> a = b.
Proof.
  revert b; induction a as [|x a IH]; intros [|y b]; simpl; split;
    try congruence; try reflexivity.
  - intros H. apply andb_true_iff in H as [H1 H2].
    apply N.eqb_eq in H1. apply IH in H2. congruence.
  - intros H. injection H as -> ->. rewrite N.eqb_refl. simpl.
    now apply IH.
Qed.

Lemma begins_app m r : begins (m ++ r) m.
Proof.
  unfold begins. rewrite skipn_app, skipn_all, Nat.sub_diag. reflexivity.
Qed.

Lemma begins_cons c m r : begins r m -> begins (c :: r) (c :: m).
Proof. unfold begins. simpl. intros <-. reflexivity. Qed.

Lemma begins_nil r : begins r [].
Proof. reflexivity. Qed.

Lemma begins_skip text m n :
  begins text m -> begins (skipn (length m) text) n -> begins text (m ++ n).
Proof.
  unfold begins. intros H1 H2.
  rewrite length_app, Nat.add_comm, <- skipn_skipn, <- app_assoc, <- H2.
  exact H1.
Qed.

Lemma startsWith_begins s p : startsWith s p = true -> begins s p.
Proof.
  revert s; induction p as [|y p IH]; intros s H; simpl in *.
  - reflexivity.
  - destruct s as [|x s]; [discriminate|].
    apply andb_true_iff in H as [H1 H2]. apply N.eqb_eq in H1. subst.
    apply begins_cons. now apply IH.
Qed.

Lemma takeWhile_begins p s : begins s (takeWhile p s).
Proof.
  induction s as [|c r IH]; simpl; [reflexivity|].
  destruct (p c); [now apply begins_cons | reflexivity].
Qed.

End JsStringFacts.

(** ** Facts about the lexer *)

Module LexerFacts.

Import JsStringFacts Lexer LexerSpec.

(** *** Every regular expression matches a non-empty prefix *)

Lemma matchBlank_ok : matcherOk matchBlank.
Proof.
  intros [|c r] m; simpl; [discriminate|].
  destruct (isBlank c); [|discriminate].
  intros [= <-]. split; [discriminate | reflexivity].
Qed.

Lemma matchLineComment_ok : matcherOk matchLineComment.
Proof.
  intros text m H. unfold matchLineComment in H.
  destruct text as [|a [|b r]]; try discriminate.
  destruct ((a =? 47)%N && (b =? 47)%N); [|discriminate].
  injection H as <-. split; [discriminate|].
  do 2 apply begins_cons. apply takeWhile_begins.
Qed.

Lemma throughCommentEnd_ok : matcherOk throughCommentEnd.
Proof.
  intros text; induction text as [|c r IH]; intros m H; simpl in H.
  - discriminate.
  - destruct ((c =? 42)%N
              && match r with d :: _ => (d =? 47)%N | [] => false end).
    + injection H as <-. split; [discriminate|].
      apply begins_cons. destruct r; reflexivity.
    + destruct (throughCommentEnd r) as [m'|]; [|discriminate].
      injection H as <-. destruct (IH m' eq_refl) as [_ Hb].
      split; [discriminate | now apply begins_cons].
Qed.

Lemma matchBlockComment_ok : matcherOk matchBlockComment.
Proof.
  intros text m H. unfold matchBlockComment in H.
  destruct text as [|a [|b r]]; try discriminate.
  destruct ((a =? 47)%N && (b =? 42)%N); [|discriminate].
  destruct (throughCommentEnd r) as [m'|] eqn:E; [|discriminate].
  injection H as <-. apply throughCommentEnd_ok in E as [_ E].
  split; [discriminate|]. now do 2 apply begins_cons.
Qed.

Lemma identifierTail_begins s : begins s (identifierTail s).
Proof.
  induction s as [|c r IH]; simpl; [reflexivity|].
  destruct (isAlnum c); [now apply begins_cons|].
  destruct (c =? 95)%N; [|reflexivity].
  destruct r as [|d r']; [reflexivity|].
  destruct (isAlnum d); [now apply begins_cons | reflexivity].
Qed.

Lemma matchIdentifier_ok : matcherOk matchIdentifier.
Proof.
  intros [|c r] m; simpl; [discriminate|].
  destruct (isAlpha c); [|discriminate].
  intros [= <-]. split; [discriminate|].
  apply begins_cons, identifierTail_begins.
Qed.

Lemma matchPrefixed_ok lower upper digit :
  matcherOk (matchPrefixed lower upper digit).
Proof.
  intros text m H. unfold matchPrefixed in H.
  destruct text as [|a [|x r]]; try discriminate.
  destruct ((a =? 48)%N && ((x =? lower)%N || (x =? upper)%N));
    [|discriminate].
  pose proof (takeWhile_begins digit r) as Hb.
  destruct (takeWhile digit r) as [|d ds]; [discriminate|].
  injection H as <-. split; [discriminate|].
  now do 2 apply begins_cons.
Qed.

Lemma exponent_begins s : begins s (exponent s).
Proof.
  unfold exponent. destruct s as [|e r]; [reflexivity|].
  destruct ((e =? 101)%N || (e =? 69)%N); [|reflexivity].
  destruct r as [|sg r']; [reflexivity|].
  destruct ((sg =? 43)%N || (sg =? 45)%N).
  - pose proof (takeWhile_begins isDigit r') as Hb.
    destruct (takeWhile isDigit r'); [reflexivity|].
    now do 2 apply begins_cons.
  - pose proof (takeWhile_begins isDigit (sg :: r')) as Hb.
    destruct (takeWhile isDigit (sg :: r')); [reflexivity|].
    now apply begins_cons.
Qed.

Lemma matchInt_ok : matcherOk matchInt.
Proof.
  intros text m H. unfold matchInt in H.
  pose proof (takeWhile_begins isDigit text) as Hb.
  destruct (takeWhile isDigit text) as [|d ds] eqn:E; [discriminate|].
  injection H as <-. split; [discriminate|].
  change (begins text
            ((d :: ds) ++ exponent (skipn (length (d :: ds)) text))).
  apply begins_skip; [exact Hb | apply exponent_begins].
Qed.

Lemma matchFloat_ok : matcherOk matchFloat.
Proof.
  intros text m H. unfold matchFloat in H.
  pose proof (takeWhile_begins isDigit text) as Hb.
  destruct (takeWhile isDigit text) as [|d ds] eqn:E; [discriminate|].
  destruct (skipn (length (d :: ds)) text) as [|dot r] eqn:Er;
    [discriminate|].
  destruct (dot =? 46)%N; [|discriminate].
  pose proof (takeWhile_begins isDigit r) as Hf.
  destruct (takeWhile isDigit r) as [|f fs] eqn:Ef; [discriminate|].
  injection H as <-. split; [discriminate|].
  change (begins text
            ((d :: ds)
               ++ dot :: (f :: fs)
               ++ exponent (skipn (length (f :: fs)) r))).
  apply begins_skip; [exact Hb|]. rewrite Er.
  apply begins_cons.
  apply begins_skip; [exact Hf | apply exponent_begins].
Qed.

Lemma findOperator_ok tbl text m k :
  forallb (fun e => nonEmptyName (fst e)) tbl = true ->
  findOperator tbl text = Some (m, k) ->
  m <> [] /\ begins text m /\ In k (map snd tbl).
Proof.
  induction tbl as [|[n v] tbl IH]; simpl; [discriminate|].
  intros Hne H. apply andb_true_iff in Hne as [Hn Hne].
  destruct (startsWith text (js n)) eqn:E.
  - injection H as <- <-. repeat split.
    + intros C. unfold nonEmptyName in Hn. simpl in Hn. rewrite C in Hn.
      discriminate.
    + now apply startsWith_begins.
    + now left.
  - destruct (IH Hne H) as (? & ? & ?). auto.
Qed.

(** *** String literals are read from a prefix of the text *)

Lemma endsWithUnit_cons c x s u :
  endsWithUnit (c :: x :: s) u = endsWithUnit (x :: s) u.
Proof.
  unfold endsWithUnit.
  change (rev (c :: x :: s)) with (rev (x :: s) ++ [c]).
  destruct (rev (x :: s)) eqn:E; [|reflexivity].
  apply (f_equal (@length N)) in E. rewrite length_rev in E. discriminate.
Qed.

Lemma throughCurly_split s :
  endsWithUnit (throughCurly s) closeCurly = true ->
  exists body rest,
    s = body ++ closeCurly :: rest /\
    forall rest', throughCurly (body ++ closeCurly :: rest')
                  = body ++ [closeCurly].
Proof.
  induction s as [|c r IH]; simpl; [discriminate|].
  destruct (c =? closeCurly)%N eqn:E.
  - apply N.eqb_eq in E. subst. intros _. exists [], r. split; [reflexivity|].
    intros rest'. simpl. reflexivity.
  - intros H. destruct (throughCurly r) as [|x s'] eqn:Et.
    + unfold endsWithUnit in H. simpl in H. congruence.
    + rewrite endsWithUnit_cons in H. destruct (IH H) as (body & rest & -> & Hl).
      exists (c :: body), rest. split; [reflexivity|].
      intros rest'. simpl. rewrite E, Hl. reflexivity.
Qed.

Lemma isUpperHex_length n hex : isUpperHex n hex = true -> length hex = n.
Proof.
  unfold isUpperHex. intros H. apply andb_true_iff in H as [H _].
  now apply Nat.eqb_eq.
Qed.

Lemma round_readBy source start str text :
  text <> [] -> readBy str text (round source start str text).
Proof.
  destruct text as [|char text1]; [congruence|]. intros _.
  unfold round.
  destruct (char =? backslash)%N eqn:Eb.
  - destruct text1 as [|escape text2]; [exact I|].
    assert (simple : forall add,
               (forall source start rest,
                   round source start str (char :: escape :: rest)
                   = Continue (str ++ add) rest) ->
               readBy str (char :: escape :: text2)
                 (Continue (str ++ add) text2)).
    { intros add H. exists [char; escape], add.
      repeat split; [discriminate | exact H]. }
    destruct (isUnit "n" escape) eqn:E1.
    { apply simple. intros. unfold round. now rewrite Eb, E1. }
    destruct (isUnit "r" escape) eqn:E2.
    { apply simple. intros. unfold round. now rewrite Eb, E1, E2. }
    destruct (isUnit "f" escape) eqn:E3.
    { apply simple. intros. unfold round. now rewrite Eb, E1, E2, E3. }
    destruct (isUnit "v" escape) eqn:E4.
    { apply simple. intros. unfold round.
      now rewrite Eb, E1, E2, E3, E4. }
    destruct (isUnit "t" escape) eqn:E5.
    { apply simple. intros. unfold round.
      now rewrite Eb, E1, E2, E3, E4, E5. }
    destruct (isUnit "b" escape) eqn:E6.
    { apply simple. intros. unfold round.
      now rewrite Eb, E1, E2, E3, E4, E5, E6. }
    destruct (isUnit "0" escape) eqn:E7.
    { apply simple. intros. unfold round.
      now rewrite Eb, E1, E2, E3, E4, E5, E6, E7. }
    destruct (isUnit "x" escape) eqn:E8.
    { destruct (isUpperHex 2 (firstn 2 text2)) eqn:Eh; [|exact I].
      simpl negb. cbv iota.
      pose proof (isUpperHex_length _ _ Eh) as Hl.
      destruct text2 as [|h1 [|h2 text3]]; try discriminate.
      exists [char; escape; h1; h2], [fromCharCode (parseInt16 [h1; h2])].
      repeat split; [discriminate|].
      intros. cbn [app]. unfold round.
      rewrite Eb, E1, E2, E3, E4, E5, E6, E7, E8.
      change (firstn 2 (h1 :: h2 :: rest)) with [h1; h2].
      change (firstn 2 (h1 :: h2 :: text3)) with [h1; h2] in Eh.
      now rewrite Eh. }
    destruct (isUnit "u" escape) eqn:E9.
    { destruct text2 as [|next text3].
      - exact I.
      - destruct (next =? openCurly)%N eqn:En.
        + change (eat 1 (next :: text3)) with text3.
          destruct (endsWithUnit (throughCurly text3) closeCurly) eqn:Ec;
            [|exact I].
          simpl negb. cbv iota.
          destruct (throughCurly_split _ Ec) as (body & rest0 & -> & Hl).
          rewrite Hl in Ec |- *. unfold dropLast. rewrite removelast_last.
          destruct (aboveUnicode (parseInt16 body)) eqn:Ea; [exact I|].
          exists (char :: escape :: next :: body ++ [closeCurly]),
            [fromCharCode (parseInt16 body)].
          unfold eat. rewrite skipn_app, skipn_all2 by lia.
          replace (length body + 1 - length body) with 1 by lia.
          repeat split; [discriminate | |].
          * simpl. now rewrite <- app_assoc.
          * intros. cbn [app]. unfold round.
            rewrite Eb, E1, E2, E3, E4, E5, E6, E7, E8, E9, En.
            change (eat 1 (next :: (body ++ [closeCurly]) ++ rest))
              with ((body ++ [closeCurly]) ++ rest).
            rewrite <- app_assoc. cbn [app]. rewrite Hl, Ec.
            simpl negb. cbv iota.
            unfold dropLast. rewrite removelast_last, Ea.
            unfold eat. rewrite skipn_app, skipn_all2 by lia.
            replace (length body + 1 - length body) with 1 by lia.
            reflexivity.
        + destruct (isUpperHex 4 (firstn 4 (next :: text3))) eqn:Eh;
            [|exact I].
          simpl negb. cbv iota.
          pose proof (isUpperHex_length _ _ Eh) as Hl.
          destruct text3 as [|h2 [|h3 [|h4 text4]]]; try discriminate.
          exists [char; escape; next; h2; h3; h4],
            [fromCharCode (parseInt16 [next; h2; h3; h4])].
          repeat split; [discriminate|].
          intros. cbn [app]. unfold round.
          rewrite Eb, E1, E2, E3, E4, E5, E6, E7, E8, E9, En.
          change (firstn 4 (next :: h2 :: h3 :: h4 :: rest))
            with [next; h2; h3; h4].
          change (firstn 4 (next :: h2 :: h3 :: h4 :: text4))
            with [next; h2; h3; h4] in Eh.
          now rewrite Eh. }
    apply (simple [escape]). intros. unfold round.
    now rewrite Eb, E1, E2, E3, E4, E5, E6, E7, E8, E9.
  - destruct str as [|q str0].
    + simpl. rewrite N.eqb_refl. exists char. repeat split.
      intros. unfold round. rewrite Eb. simpl. now rewrite N.eqb_refl.
    + simpl. destruct (char =? q)%N eqn:Eq.
      * apply N.eqb_eq in Eq. subst q. exists char. repeat split.
        intros. unfold round. rewrite Eb. simpl. now rewrite N.eqb_refl.
      * exists [char], [char]. repeat split; [discriminate|].
        intros. unfold round. simpl. now rewrite Eb, Eq.
Qed.

Lemma throughCurly_body body rest :
  forallb (fun c => negb (c =? closeCurly)%N) body = true ->
  throughCurly (body ++ closeCurly :: rest) = body ++ [closeCurly].
Proof.
  induction body as [|c body IH]; simpl; intros H.
  - reflexivity.
  - apply andb_true_iff in H as [Hc Hb].
    apply negb_true_iff in Hc. rewrite Hc. now rewrite IH.
Qed.

Lemma endsWithUnit_last body c : endsWithUnit (body ++ [c]) c = true.
Proof.
  unfold endsWithUnit. rewrite rev_app_distr. simpl. apply N.eqb_refl.
Qed.

(** The braced unicode escape does not look at its digits: whatever
    stands between the braces goes to [parseInt], and only the number
    that comes back is tested. *)
Lemma round_braced_escape source start str body rest :
  forallb (fun c => negb (c =? closeCurly)%N) body = true ->
  round source start str
    (backslash :: code "u" :: openCurly :: body ++ closeCurly :: rest)
  = if aboveUnicode (parseInt16 body)
    then Abort (mkLexerError "Out of range unicode escape sequence" None
                  start (index source (body ++ closeCurly :: rest)))
    else Continue (str ++ [fromCharCode (parseInt16 body)]) rest.
Proof.
  intros H. unfold round.
  change (backslash =? backslash)%N with true. cbv iota.
  change (isUnit "n" (code "u")) with false.
  change (isUnit "r" (code "u")) with false.
  change (isUnit "f" (code "u")) with false.
  change (isUnit "v" (code "u")) with false.
  change (isUnit "t" (code "u")) with false.
  change (isUnit "b" (code "u")) with false.
  change (isUnit "0" (code "u")) with false.
  change (isUnit "x" (code "u")) with false.
  change (isUnit "u" (code "u")) with true.
  change (openCurly =? openCurly)%N with true. cbv iota.
  change (eat 1 (openCurly :: body ++ closeCurly :: rest))
    with (body ++ closeCurly :: rest).
  rewrite (throughCurly_body _ _ H), endsWithUnit_last. simpl negb. cbv iota.
  unfold dropLast. rewrite removelast_last.
  destruct (aboveUnicode (parseInt16 body)); [reflexivity|].
  unfold eat. rewrite skipn_app, skipn_all2 by lia.
  replace (length body + 1 - length body) with 1 by lia. reflexivity.
Qed.

(** A literal that is read to its end is read from a prefix
    [consumed] of the text that ends in the opening quote, and the
    same token is read from any text that begins with [consumed]. *)
Lemma literal_read fuel : forall source start str text c text',
  literal fuel source start str text = (c, text') ->
  match c with
  | Tok tok =>
      exists consumed txt,
        text = consumed ++ text' /\
        tok = mkToken (Kind StringLiteral) txt start (index source text') /\
        (forall q str0, str = q :: str0 ->
                        exists body, consumed = body ++ [q]) /\
        forall source2 start2 rest2 fuel2,
          length consumed <= fuel2 ->
          literal fuel2 source2 start2 str (consumed ++ rest2)
          = (Tok (mkToken (Kind StringLiteral) txt start2
                    (index source2 rest2)), rest2)
  | Skipped => False
  | Failed _ => True
  | Stuck => fuel < length text
  end.
Proof.
  induction fuel as [|fuel IH]; intros source start str text c text' H.
  - destruct text as [|x text]; simpl in H; injection H as <- <-.
    + exact I.
    + simpl. lia.
  - destruct text as [|x text]; [simpl in H; injection H as <- <-; exact I|].
    cbn [literal] in H.
    pose proof (round_readBy source start str (text := x :: text)
                  ltac:(discriminate)) as R.
    destruct (round source start str (x :: text)) as [str1 text1|str1 text1|e].
    + destruct R as (pre & add & Hpre & Ht & Hs & Hr).
      specialize (IH _ _ _ _ _ _ H).
      destruct c as [tok| | |]; try exact IH.
      * destruct IH as (consumed & txt & Ht1 & Htok & Hq & Hl).
        exists (pre ++ consumed), txt. rewrite <- app_assoc, <- Ht1.
        repeat split; try assumption.
        -- intros q str0 Es. subst str. destruct (Hq q (str0 ++ add)) as [b Hb].
           { rewrite Hs. reflexivity. }
           exists (pre ++ b). rewrite Hb. now rewrite app_assoc.
        -- intros source2 start2 rest2 fuel2 Hf.
           rewrite length_app in Hf.
           destruct pre as [|p pre]; [congruence|].
           destruct fuel2 as [|fuel2]; [simpl in Hf; lia|].
           rewrite <- app_assoc.
           change ((p :: pre) ++ consumed ++ rest2)
             with (p :: (pre ++ consumed ++ rest2)).
           cbn [literal].
           change (p :: pre ++ consumed ++ rest2)
             with ((p :: pre) ++ consumed ++ rest2).
           rewrite Hr. apply Hl. simpl in Hf. lia.
      * rewrite Ht, length_app.
        assert (0 < length pre) by (destruct pre; [congruence | simpl; lia]).
        lia.
    + injection H as <- <-. destruct R as (ch & Ht & Hs & Hh & Hr).
      exists [ch], (slice1m1 str1). rewrite Ht.
      repeat split.
      * intros q str0 Es. subst str. simpl in Hh. subst ch. now exists [].
      * intros source2 start2 rest2 fuel2 Hf.
        destruct fuel2 as [|fuel2]; [simpl in Hf; lia|].
        change ([ch] ++ rest2) with (ch :: rest2).
        cbn [literal]. now rewrite Hr.
    + injection H as <- <-. exact I.
Qed.

(** *** One call of [consume] *)

Lemma index_app pre text : index (pre ++ text) text = length pre.
Proof. unfold index. rewrite length_app. lia. Qed.

Lemma lexeme_ok pre text k m :
  m <> [] -> begins text m -> k <> Kind StringLiteral ->
  consumeOk pre text
    (lexeme (pre ++ text) (index (pre ++ text) text) k m text).
Proof.
  intros Hm Hb Hk. unfold consumeOk, lexeme, eat. simpl.
  unfold begins in Hb.
  remember (skipn (length m) text) as rest eqn:Er. clear Er. subst text.
  exists m. repeat split; try assumption.
  - apply index_app.
  - rewrite app_assoc, index_app, length_app. reflexivity.
  - left. split; [assumption | reflexivity].
Qed.

Lemma ownProperty_In tbl k v :
  ownProperty tbl k = Some v -> In v (map snd tbl).
Proof.
  induction tbl as [|[n w] tbl IH]; simpl; [discriminate|].
  destruct (JsString.eqb (js n) k).
  - intros [= <-]. now left.
  - auto.
Qed.

Lemma no_literal_In (l : list TokenType) k :
  forallb (fun v => negb (TokenType_beq v StringLiteral)) l = true ->
  In k l -> Kind k <> Kind StringLiteral.
Proof.
  intros H Hin [= ->]. rewrite forallb_forall in H.
  apply H in Hin. discriminate.
Qed.

Lemma keywordsGet_kind m : keywordsGet m <> Kind StringLiteral.
Proof.
  unfold keywordsGet. destruct (ownProperty keywords m) eqn:E.
  - apply ownProperty_In in E. revert E. now apply no_literal_In.
  - discriminate.
Qed.

Lemma index_self s : index s s = 0.
Proof. unfold index. apply Nat.sub_diag. Qed.

Lemma index_nil s : index s [] = length s.
Proof. unfold index. simpl. apply Nat.sub_0_r. Qed.

Lemma loop_end fuel source acc : loop fuel source [] acc = Tokens acc.
Proof.
  destruct fuel; cbn [loop]; rewrite index_nil, Nat.ltb_irrefl; reflexivity.
Qed.

(** A quoted literal on its own lexes to the one token read from it. *)
Lemma relex q consumed txt :
  q = quote1 \/ q = quote2 -> consumed <> [] ->
  (forall source2 start2 rest2 fuel2,
      length consumed <= fuel2 ->
      literal fuel2 source2 start2 [q] (consumed ++ rest2)
      = (Tok (mkToken (Kind StringLiteral) txt start2
                (index source2 rest2)), rest2)) ->
  tokens (q :: consumed)
  = Tokens [mkToken (Kind StringLiteral) txt 0 (length (q :: consumed))].
Proof.
  intros Hq Hne Hl. destruct consumed as [|b r]; [congruence|].
  clear Hne. unfold tokens.
  set (source := q :: b :: r).
  change (length source) with (S (length (b :: r))).
  cbn [loop]. rewrite index_self. cbn [Nat.ltb Nat.leb].
  assert (Hc : consume source source
               = literal (length (b :: r)) source 0 [q] (b :: r)).
  { unfold consume. rewrite index_self. subst source.
    destruct Hq as [-> | ->]; reflexivity. }
  rewrite Hc. specialize (Hl source 0 [] (length (b :: r)) (le_n _)).
  rewrite app_nil_r in Hl. rewrite Hl, loop_end, index_nil. reflexivity.
Qed.

Lemma consume_ok pre text :
  consumeOk pre text (consume (pre ++ text) text).
Proof.
  unfold consume.
  destruct (length (pre ++ text) <=? index (pre ++ text) text)%nat;
    [exact I|].
  destruct (Lexer.orElse (matchBlank text)
              (Lexer.orElse (matchLineComment text)
                 (matchBlockComment text))) as [m|] eqn:Es.
  { assert (m <> [] /\ begins text m) as [Hm Hb].
    { unfold Lexer.orElse in Es.
      destruct (matchBlank text) eqn:E1;
        [injection Es as ->; now apply matchBlank_ok in E1|].
      destruct (matchLineComment text) eqn:E2;
        [injection Es as ->; now apply matchLineComment_ok in E2|].
      now apply matchBlockComment_ok in Es. }
    unfold consumeOk, eat. simpl. exists m. split; assumption. }
  destruct (matchIdentifier text) as [m|] eqn:Ei.
  { apply matchIdentifier_ok in Ei as [Hm Hb].
    destruct (inKeywords m);
      apply lexeme_ok; try assumption;
      [apply keywordsGet_kind | discriminate]. }
  destruct (matchHex text) as [m|] eqn:E1.
  { apply matchPrefixed_ok in E1 as [Hm Hb].
    apply lexeme_ok; try assumption; discriminate. }
  destruct (matchOctal text) as [m|] eqn:E2.
  { apply matchPrefixed_ok in E2 as [Hm Hb].
    apply lexeme_ok; try assumption; discriminate. }
  destruct (matchBinary text) as [m|] eqn:E3.
  { apply matchPrefixed_ok in E3 as [Hm Hb].
    apply lexeme_ok; try assumption; discriminate. }
  destruct (matchFloat text) as [m|] eqn:E4.
  { apply matchFloat_ok in E4 as [Hm Hb].
    apply lexeme_ok; try assumption; discriminate. }
  destruct (matchInt text) as [m|] eqn:E5.
  { apply matchInt_ok in E5 as [Hm Hb].
    apply lexeme_ok; try assumption; discriminate. }
  destruct text as [|first text1]; [exact I|].
  destruct ((first =? quote1)%N || (first =? quote2)%N) eqn:Eq.
  - change (eat 1 (first :: text1)) with text1.
    destruct (literal (length text1) (pre ++ first :: text1)
                (index (pre ++ first :: text1) (first :: text1))
                [first] text1) as [c text'] eqn:El.
    pose proof (literal_read _ _ _ _ _ El) as R.
    unfold consumeOk. cbn [fst snd].
    destruct c as [tok| | |]; [| destruct R | exact I | lia].
    destruct R as (consumed & txt & Ht & Htok & Hquote & Hl).
    destruct (Hquote first [] eq_refl) as [body Hbody].
    exists (first :: consumed). subst tok. cbn [start stop type].
    repeat split.
    + discriminate.
    + now rewrite Ht.
    + apply index_app.
    + rewrite Ht.
      change (pre ++ first :: consumed ++ text')
        with (pre ++ (first :: consumed) ++ text').
      rewrite app_assoc, index_app, length_app. reflexivity.
    + right. split; [reflexivity|]. exists first, body.
      assert (Hq : first = quote1 \/ first = quote2).
      { apply orb_true_iff in Eq as [Eq|Eq]; apply N.eqb_eq in Eq; auto. }
      split; [assumption|]. split; [now rewrite Hbody|].
      apply relex; try assumption.
      rewrite Hbody. destruct body; discriminate.
  - destruct (findOperator operatorEntries (first :: text1))
      as [[m k]|] eqn:Eo; [|exact I].
    apply findOperator_ok in Eo as (Hm & Hb & Hin); [|reflexivity].
    apply lexeme_ok; try assumption.
    revert Hin. now apply no_literal_In.
Qed.

(** *** The token loop *)

Lemma slice_middle (pre m rest : JsString.t) :
  slice (length pre) (length pre + length m) (pre ++ m ++ rest) = m.
Proof.
  unfold slice. rewrite skipn_app, skipn_all, Nat.sub_diag. simpl.
  replace (length pre + length m - length pre) with (length m) by lia.
  rewrite firstn_app, firstn_all, Nat.sub_diag. simpl. apply app_nil_r.
Qed.

Lemma loop_ok fuel : forall pre text acc,
  Forall (lexemeAt (pre ++ text)) acc ->
  match loop fuel (pre ++ text) text acc with
  | Tokens ts => Forall (lexemeAt (pre ++ text)) ts
  | LexError _ => True
  | LexStuck => fuel < length text
  end.
Proof.
  induction fuel as [|fuel IH]; intros pre text acc Hacc; cbn [loop];
    rewrite index_app, length_app;
    destruct (length pre <? length pre + length text)%nat eqn:El;
    try exact Hacc; apply Nat.ltb_lt in El; [lia|].
  pose proof (consume_ok pre text) as C. unfold consumeOk in C.
  destruct (consume (pre ++ text) text) as [c text']. cbn [fst snd] in C.
  destruct c as [t| | |]; [| |exact I|destruct C].
  - destruct C as (m & Hm & Ht & Hs & He & Hmade). subst text.
    rewrite app_assoc.
    specialize (@IH (pre ++ m) text' (acc ++ [t])).
    rewrite <- app_assoc in IH.
    assert (Hall : Forall (lexemeAt (pre ++ m ++ text')) (acc ++ [t])).
    { apply Forall_app. split; [exact Hacc|]. constructor; [|constructor].
      unfold lexemeAt. rewrite Hs, He, slice_middle. exact Hmade. }
    specialize (IH Hall). rewrite <- app_assoc.
    destruct (loop fuel (pre ++ m ++ text') text' (acc ++ [t]));
      try exact IH.
    rewrite length_app. destruct m; [congruence | simpl; lia].
  - destruct C as (m & Hm & Ht). subst text.
    specialize (@IH (pre ++ m) text' acc).
    rewrite <- app_assoc in IH. specialize (IH Hacc).
    destruct (loop fuel (pre ++ m ++ text') text' acc); try exact IH.
    rewrite length_app. destruct m; [congruence | simpl; lia].
Qed.

(** The lexer returns: it never runs out of fuel. *)
Lemma tokens_total source : tokens source <> LexStuck.
Proof.
  unfold tokens. pose proof (@loop_ok (length source) [] source []) as H.
  simpl in H. specialize (H (Forall_nil _)).
  destruct (loop (length source) source source []); try discriminate.
  lia.
Qed.

Lemma tokens_lexemeAt source ts :
  tokens source = Tokens ts -> Forall (lexemeAt source) ts.
Proof.
  unfold tokens. intros H.
  pose proof (@loop_ok (length source) [] source []) as L.
  simpl in L. specialize (L (Forall_nil _)). now rewrite H in L.
Qed.

End LexerFacts.

(** ** Facts about the parser *)

Module ParserFacts.

Import Parser ParserSpec.

Lemma bind_Done {A B} (m : M A) (k : A -> M B) s b s'' :
  bind m k s = Done b s'' ->
  exists a s', m s = Done a s' /\ k a s' = Done b s''.
Proof.
  unfold bind. destruct (m s) as [a s'| |]; try discriminate. eauto.
Qed.

(** *** More fuel does not change a result *)

Lemma refines_refl {A} (m : M A) : refines m m.
Proof. intros s a s' H. exact H. Qed.

Lemma refines_bind {A B} (m m' : M A) (k k' : A -> M B) :
  refines m m' -> (forall a, refines (k a) (k' a)) ->
  refines (bind m k) (bind m' k').
Proof.
  intros Hm Hk s b s'' H. apply bind_Done in H as (a & s' & H1 & H2).
  unfold bind. rewrite (Hm _ _ _ H1). now apply Hk.
Qed.

Lemma refines_orElse {A} (a a' b b' : M (option A)) :
  refines a a' -> refines b b' -> refines (a ?? b) (a' ?? b').
Proof.
  intros Ha Hb. unfold orElse. apply refines_bind; [exact Ha|].
  intros [x|]; [apply refines_refl | exact Hb].
Qed.

Lemma refines_while {A R} fuel fuel' (body body' : A -> M (Flow A R)) :
  fuel <= fuel' -> (forall a, refines (body a) (body' a)) ->
  forall a, refines (while fuel body a) (while fuel' body' a).
Proof.
  intros Hle Hb. revert fuel' Hle.
  induction fuel as [|fuel IH]; intros fuel' Hle a.
  - intros s x s' H. discriminate.
  - destruct fuel' as [|fuel']; [lia|]. cbn [while].
    apply refines_bind; [apply Hb|].
    intros [a'|a'|r]; try apply refines_refl. apply IH. lia.
Qed.

Lemma refines_loop {A} fuel fuel' (body body' : A -> M (Flow A Empty_set)) :
  fuel <= fuel' -> (forall a, refines (body a) (body' a)) ->
  forall a, refines (loop fuel body a) (loop fuel' body' a).
Proof.
  intros Hle Hb a. unfold loop. apply refines_bind.
  - now apply refines_while.
  - intros x. apply refines_refl.
Qed.

Ltac refine_step call call' :=
  first
    [ match goal with
      | H : forall p, refines (call p) (call' p) |- refines (call _) (call' _) =>
          apply H
      end
    | apply refines_bind; [|intros ?]
    | apply refines_orElse
    | apply refines_loop; [assumption|intros ?]
    | apply refines_while; [assumption|intros ?]
    | match goal with
      | |- refines (match ?x with _ => _ end) _ => destruct x
      end
    | apply refines_refl ].

Ltac unfold_production :=
    cbn [production];
    unfold parseBody_, parseStatement_, parseLabeledStatement_,
      parseBlockStatement_, parseIfStatement_, parseWhileStatement_,
      parseMatchStatement_, parseMatchOption_, parseDefStatement_,
      parseParameters_, parseParameter_, parseDoStatement_,
      parseForStatement_, parseReturnStatement_, parseContinueStatement_,
      parseBreakStatement_, parseEmptyStatement_,
      parseExpressionStatement_, parseFieldStatement_, parseUnionType_,
      parseIntersectionType_, parseUnaryType_, parseArrayType_,
      parseGenericType_, parseExpressionSequence_,
      parseAssignmentExpression_, parseTernaryExpression_,
      parseCoalesceExpression_, parseLogicalOrExpression_,
      parseLogicalAndExpression_, parseBitwiseOrExpression_,
      parseBitwiseXorExpression_, parseBitwiseAndExpression_,
      parseEqualityExpression_, parseComparisonExpression_,
      parseShiftExpression_, parseTermExpression_, parseFactorExpression_,
      parseRangeExpression_, parseUnaryExpression_,
      parseReferenceExpression_, parseLiteralValue_, parseCast_,
      parsePropertyAccess_, parseOptionalPropertyAccess_, parseArrayIndex_,
      parseMethodCall_, parseArrayInitializer_, parseArrayValue_,
      parseMethodCallArgument_;
    cbv zeta.

Ltac unfold_helpers :=
  unfold statements, operands, commaSeparated, node, leaf; cbv zeta.

Lemma production_mono fuel fuel' call call' :
  fuel <= fuel' -> (forall p, refines (call p) (call' p)) ->
  forall p, refines (production fuel call p) (production fuel' call' p).
Proof.
  intros Hle Hc p.
  destruct p; unfold_production; unfold_helpers;
    repeat refine_step call call'.
Qed.

Lemma parse_mono fuel : forall fuel' p,
  fuel <= fuel' -> refines (parse fuel p) (parse fuel' p).
Proof.
  induction fuel as [|fuel IH]; intros fuel' p Hle.
  - intros s a s' H. discriminate.
  - destruct fuel' as [|fuel']; [lia|]. cbn [parse].
    apply production_mono; [lia|]. intros q. apply IH. lia.
Qed.

(** *** What the productions return *)

Lemma returns_ret {A} (P : A -> Prop) a : P a -> returns P (ret a).
Proof. intros H s x s' [= <- <-]. exact H. Qed.

Lemma returns_bind {A B} (P : B -> Prop) (m : M A) (k : A -> M B) :
  (forall a, returns P (k a)) -> returns P (bind m k).
Proof.
  intros Hk s b s'' H. apply bind_Done in H as (a & s' & _ & H).
  eapply Hk, H.
Qed.

Lemma returns_throw {A} e b : returns (fun r => r = None) (@throw A e b).
Proof.
  intros s a s' H. unfold throw in H. destruct b.
  - apply bind_Done in H as (? & ? & _ & [= <- _]). reflexivity.
  - injection H as <- _. reflexivity.
Qed.

Lemma returns_expected {A} (P : option A -> Prop) msg :
  P None -> returns P (expected msg).
Proof.
  intros H s a s' E. unfold expected in E.
  pose proof (@returns_throw A _ _ _ _ _ E) as ->. exact H.
Qed.

Lemma returns_finish (P : option Tree -> Prop) k items :
  (forall a b, P (Some (mkTree k a b items))) -> returns P (finish k items).
Proof.
  intros H s a s' E. unfold finish, tree in E.
  apply bind_Done in E as (t & s1 & E1 & [= <- <-]).
  apply bind_Done in E1 as (? & ? & _ & [= <- _]). apply H.
Qed.

Lemma returns_while {A R} (P : A + R -> Prop) (Q : R -> Prop)
      fuel (body : A -> M (Flow A R)) :
  (forall a, P (inl a)) -> (forall r, Q r -> P (inr r)) ->
  (forall a, returns (fun f => match f with
                               | Return r => Q r
                               | _ => True
                               end) (body a)) ->
  forall a, returns P (while fuel body a).
Proof.
  intros Hl Hr Hb. induction fuel as [|fuel IH]; intros a s x s' E.
  - discriminate.
  - cbn [while] in E. apply bind_Done in E as (f & s1 & E1 & E2).
    specialize (Hb _ _ _ _ E1). destruct f as [a'|a'|r].
    + eapply IH, E2.
    + injection E2 as <- _. apply Hl.
    + injection E2 as <- _. now apply Hr.
Qed.

(** A comma-separated list returns its items, or [undefined] after
    it has stored an error. *)
Lemma returns_commaSeparated fuel call item msg :
  returns (fun r => match r with
                    | inl _ => True
                    | inr returned => returned = None
                    end) (commaSeparated fuel call item msg).
Proof.
  unfold commaSeparated.
  apply returns_while with (Q := fun r => r = None); auto.
  intros result. apply returns_bind. intros [|]; [now apply returns_ret|].
  apply returns_bind. intros [parsed|]; [now apply returns_ret|].
  destruct (negb (nonEmpty result)); [now apply returns_ret|].
  intros s f s' E. apply bind_Done in E as (r & s1 & E1 & [= <- _]).
  unfold expected in E1.
  now pose proof (@returns_throw _ _ _ _ _ _ E1) as ->.
Qed.

Lemma returns_commaList (P : option Tree -> Prop) fuel call item msg
      (k : list Item -> M (option Tree)) :
  P None -> (forall result, returns P (k result)) ->
  returns P (r <- commaSeparated fuel call item msg ;;
             match r with
             | inr returned => ret returned
             | inl result => k result
             end).
Proof.
  intros HN Hk s r s' E. apply bind_Done in E as (x & s1 & E1 & E2).
  apply returns_commaSeparated in E1. destruct x as [result|returned].
  - eapply Hk, E2.
  - injection E2 as <- _. now subst.
Qed.

Ltac returns_step :=
  first
    [ apply returns_finish; intros; reflexivity
    | apply returns_expected; exact I
    | apply returns_ret; assumption
    | apply returns_commaList; [exact I | intros ?]
    | apply returns_bind; intros ?
    | match goal with
      | |- returns _ (match ?x with _ => _ end) => destruct x
      end ].

(** Every production returns a tree of its own kind, or [undefined]. *)
Lemma production_builds fuel call p :
  returns (ofKind (builds p)) (production fuel call p).
Proof.
  destruct p; cbn [builds]; unfold_production; repeat returns_step.
Qed.

Lemma parse_builds fuel p : returns (ofKind (builds p)) (parse fuel p).
Proof.
  destruct fuel as [|fuel]; [intros s a s' [=]|]. apply production_builds.
Qed.

(** [parseBody] never returns [undefined]. *)
Lemma parseBody_returns fuel :
  returns (fun r => r <> None) (parse fuel ParseBody).
Proof.
  destruct fuel as [|fuel]; [intros s a s' [=]|].
  cbn [parse production]. unfold parseBody_.
  do 2 (apply returns_bind; intros ?).
  apply returns_finish. discriminate.
Qed.

Lemma returns_bind_with {A B} (Q : A -> Prop) (P : B -> Prop)
      (m : M A) (k : A -> M B) :
  returns Q m -> (forall a, Q a -> returns P (k a)) ->
  returns P (bind m k).
Proof.
  intros Hm Hk s b s'' H. apply bind_Done in H as (a & s' & H1 & H2).
  eapply Hk; [eapply Hm, H1 | exact H2].
Qed.

Lemma returns_consume k :
  returns (fun o => forall t, o = Some t -> isKind (type t) k = true)
          (consume k).
Proof.
  intros s o s' H t ->. unfold consume in H.
  destruct (current s) as [|t0 rest]; [discriminate|].
  destruct (isKind (type t0) k) eqn:E; [|discriminate].
  now injection H as <- _.
Qed.

Lemma returns_consume_in k ks :
  In k ks ->
  returns (fun o => forall t, o = Some t ->
                              existsb (isKind (type t)) ks = true)
          (consume k).
Proof.
  intros Hin s o s' H t ->. apply existsb_exists. exists k.
  split; [exact Hin|]. eapply returns_consume; [exact H | reflexivity].
Qed.

Lemma returns_orElse {A} (P : option A -> Prop) (a b : M (option A)) :
  returns P a -> returns P b -> returns P (a ?? b).
Proof.
  intros Ha Hb. unfold orElse.
  apply returns_bind_with with (Q := P); [exact Ha|].
  intros [x|] Hx; [now apply returns_ret | exact Hb].
Qed.

(** An assignment expression has one operator at most, and ternary
    expressions on both sides of it. *)
Lemma parseAssignmentExpression_shape fuel :
  returns (fun r => forall t, r = Some t -> assignmentShape t)
          (parseAssignmentExpression fuel).
Proof.
  destruct fuel as [|fuel]; [intros s a s' [=]|].
  unfold parseAssignmentExpression. cbn [parse production].
  unfold parseAssignmentExpression_.
  apply returns_bind; intros _.
  apply returns_bind_with with (Q := ofKind TernaryExpression);
    [apply (parse_builds fuel ParseTernaryExpression)|].
  intros [lhs|] Hl; [|apply returns_expected; discriminate].
  cbv zeta. apply returns_bind; intros _.
  apply returns_bind_with
    with (Q := fun o => forall t, o = Some t -> isAssignment t = true).
  { unfold isAssignment.
    repeat (apply returns_orElse;
            [apply returns_consume_in; simpl; tauto|]).
    apply returns_consume_in; simpl; tauto. }
  intros operator Ho.
  apply returns_bind_with
    with (Q := fun result =>
                 result = [inr lhs]
                 \/ exists operator rhs,
                     result = [inr lhs; inl operator; inr rhs] /\
                     isAssignment operator = true /\
                     Tree.type rhs = TernaryExpression).
  - destruct operator as [operator|].
    + apply returns_bind_with with (Q := ofKind TernaryExpression);
        [apply (parse_builds fuel ParseTernaryExpression)|].
      intros [rhs|] Hr; apply returns_bind; intros _; apply returns_ret.
      * right. exists operator, rhs. repeat split; auto.
      * now left.
    + apply returns_bind; intros _. apply returns_ret. now left.
  - intros result Hres. apply returns_finish.
    intros a b t [= <-]. exists lhs. split; [exact Hl | exact Hres].
Qed.

(** *** The error slot *)

Lemma furthest_refl s : furthest s s.
Proof. now left. Qed.

Lemma furthest_same s s' : error s' = error s -> furthest s s'.
Proof. now left. Qed.

Lemma furthest_trans s1 s2 s3 :
  furthest s1 s2 -> furthest s2 s3 -> furthest s1 s3.
Proof.
  intros [E12 | (e2 & E2 & L2 & H2)] [E23 | (e3 & E3 & L3 & H3)].
  - left. congruence.
  - right. exists e3. repeat split; try assumption.
    intros e He. apply H3. congruence.
  - right. exists e2. repeat split; try assumption. congruence.
  - right. exists e3. repeat split; try assumption.
    intros e He. specialize (H2 _ He). specialize (H3 _ E2). lia.
Qed.

Lemma respects_ret {A} (a : A) : respects (ret a).
Proof. intros s x s' [= _ <-]. apply furthest_refl. Qed.

Lemma respects_bind {A B} (m : M A) (k : A -> M B) :
  respects m -> (forall a, respects (k a)) -> respects (bind m k).
Proof.
  intros Hm Hk s b s'' H. apply bind_Done in H as (a & s' & H1 & H2).
  eapply furthest_trans; [eapply Hm, H1 | eapply Hk, H2].
Qed.

Lemma push_error s a s' : push s = Done a s' -> error s' = error s.
Proof. intros [= _ <-]. reflexivity. Qed.

Lemma setCurrent_error ts s : error (setCurrent ts s) = error s.
Proof. unfold setCurrent. destruct (stack s); reflexivity. Qed.

Lemma pop_error b s a s' : pop b s = Done a s' -> error s' = error s.
Proof.
  unfold pop. destruct (stack s) as [|top rest]; [discriminate|].
  intros [= _ <-]. destruct b; [now rewrite setCurrent_error | reflexivity].
Qed.

Lemma consume_error k s a s' : consume k s = Done a s' -> error s' = error s.
Proof.
  unfold consume. destruct (current s) as [|t rest].
  - intros [= _ <-]. reflexivity.
  - destruct (isKind (type t) k); intros [= _ <-];
      [apply setCurrent_error | reflexivity].
Qed.

Lemma tree_error k items b s a s' :
  tree k items b s = Done a s' -> error s' = error s.
Proof.
  unfold tree. intros H. apply bind_Done in H as (x & s1 & H1 & [= _ <-]).
  destruct b; [eapply pop_error, H1 | now injection H1 as _ <-].
Qed.

(** [throw] stores the error by the furthest-match-wins rule. *)
Lemma throw_error {A} e b s (a : option A) s' :
  throw e b s = Done a s' -> error s' = stored (error s) e.
Proof.
  unfold throw, stored. intros H.
  assert (E : forall s0, (if b then bind (pop false) (fun _ => ret None) s0
                          else Done None s0) = Done a s' ->
                         error s' = error s0).
  { intros s0 H0. destruct b.
    - apply bind_Done in H0 as (x & s1 & H1 & [= _ <-]).
      eapply pop_error, H1.
    - now injection H0 as _ <-. }
  apply E in H. rewrite H.
  destruct (error s) as [old|] eqn:Eo; [|reflexivity].
  destruct (estart old <=? estart e)%nat; [reflexivity | exact Eo].
Qed.

Lemma stored_furthest s s' e :
  live (message e) = true -> error s' = stored (error s) e -> furthest s s'.
Proof.
  intros L E. unfold stored in E. destruct (error s) as [old|] eqn:Eo.
  - destruct (estart old <=? estart e)%nat eqn:El.
    + right. exists e. repeat split; try assumption.
      intros e0 He. assert (e0 = old) by congruence. subst e0.
      now apply Nat.leb_le.
    + left. congruence.
  - right. exists e. repeat split; try assumption. congruence.
Qed.

Lemma respects_push : respects push.
Proof. intros s a s' H. eapply furthest_same, push_error, H. Qed.

Lemma respects_pop b : respects (pop b).
Proof. intros s a s' H. eapply furthest_same, pop_error, H. Qed.

Lemma respects_consume k : respects (consume k).
Proof. intros s a s' H. eapply furthest_same, consume_error, H. Qed.

Lemma respects_throw {A} e b :
  live (message e) = true -> respects (@throw A e b).
Proof.
  intros L s a s' H. eapply stored_furthest, throw_error, H. exact L.
Qed.

Lemma respects_expected {A} msg :
  live msg = true -> respects (@expected A msg).
Proof.
  intros L s a s' H. unfold expected in H.
  eapply respects_throw, H. exact L.
Qed.

Lemma respects_finish k items : respects (finish k items).
Proof.
  unfold finish. apply respects_bind; [|intros; apply respects_ret].
  intros s a s' H. eapply furthest_same, tree_error, H.
Qed.

Lemma respects_orElse {A} (a b : M (option A)) :
  respects a -> respects b -> respects (a ?? b).
Proof.
  intros Ha Hb. unfold orElse. apply respects_bind; [exact Ha|].
  intros [x|]; [apply respects_ret | exact Hb].
Qed.

Lemma respects_while {A R} fuel (body : A -> M (Flow A R)) :
  (forall a, respects (body a)) -> forall a, respects (while fuel body a).
Proof.
  intros Hb. induction fuel as [|fuel IH]; intros a.
  - intros s x s' [=].
  - cbn [while]. apply respects_bind; [apply Hb|].
    intros [a'|a'|r]; [apply IH | apply respects_ret..].
Qed.

Lemma respects_loop {A} fuel (body : A -> M (Flow A Empty_set)) :
  (forall a, respects (body a)) -> forall a, respects (loop fuel body a).
Proof.
  intros Hb a. unfold loop. apply respects_bind.
  - now apply respects_while.
  - intros [x|[]]. apply respects_ret.
Qed.

(** After [parseBody], only the branch for a tree is taken. *)
Lemma respects_body (call : Production -> M (option Tree)) {B}
      (k : option Tree -> M B) :
  returns (fun r => r <> None) (call ParseBody) ->
  respects (call ParseBody) -> (forall t, respects (k (Some t))) ->
  respects (bind (call ParseBody) k).
Proof.
  intros Hr Hm Hk s b s'' H. apply bind_Done in H as (a & s' & H1 & H2).
  pose proof (Hr _ _ _ H1) as Ha. destruct a as [t|]; [|congruence].
  eapply furthest_trans; [eapply Hm, H1 | eapply Hk, H2].
Qed.

Ltac respects_step call :=
  first
    [ match goal with
      | H : forall p, respects (call p) |- respects (call _) => apply H
      end
    | apply respects_ret | apply respects_push | apply respects_pop
    | apply respects_consume | apply respects_finish
    | apply respects_expected; reflexivity
    | apply respects_body; [assumption | auto | intros ?; cbv beta iota]
    | apply respects_bind; [|intros ?]
    | apply respects_orElse
    | apply respects_loop; intros ?
    | apply respects_while; intros ?
    | match goal with
      | |- respects (match ?x with _ => _ end) => destruct x
      end ].

Lemma production_respects fuel call :
  returns (fun r => r <> None) (call ParseBody) ->
  (forall p, respects (call p)) ->
  forall p, respects (production fuel call p).
Proof.
  intros Hb Hc p.
  destruct p; unfold_production; unfold_helpers;
    repeat respects_step call.
Qed.

(** Every production changes the error slot only by storing a later
    error of a branch that can be taken. *)
Lemma parse_respects fuel : forall p, respects (parse fuel p).
Proof.
  induction fuel as [|fuel IH]; intros p.
  - intros s a s' [=].
  - cbn [parse]. apply production_respects; [|exact IH].
    apply parseBody_returns.
Qed.

Lemma respects_astResult result : respects (astResult result).
Proof.
  intros s a s' H. unfold astResult in H.
  destruct (tokens s) as [|token rest].
  - injection H as _ <-. apply furthest_refl.
  - apply bind_Done in H as (x & s1 & H1 & [= _ <-]).
    eapply respects_throw, H1. reflexivity.
Qed.

Lemma respects_ast fuel : respects (ast fuel).
Proof.
  unfold ast. apply respects_bind; [apply parse_respects|].
  intros result. apply respects_astResult.
Qed.

(** *** [ast] *)

Lemma ast_mono fuel fuel' :
  fuel <= fuel' -> refines (ast fuel) (ast fuel').
Proof.
  intros Hle. unfold ast, parseBody. apply refines_bind.
  - now apply parse_mono.
  - intros r. apply refines_refl.
Qed.

Lemma astResult_leftover result s token rest :
  tokens s = token :: rest ->
  exists s',
    astResult result s
    = Done (match stored (error s) (unexpected token) with
            | Some e => AstError e
            | None => AstNull
            end) s'
    /\ tokens s' = tokens s.
Proof.
  intros Ht. unfold astResult. rewrite Ht.
  fold (unexpected token).
  destruct (throw (A := unit) (unexpected token) false s)
    as [x s1| |] eqn:E; try discriminate.
  - pose proof (throw_error _ _ _ E) as Es.
    assert (Etok : tokens s1 = tokens s).
    { unfold throw in E. destruct (error s) as [old|].
      - destruct (estart old <=? estart (unexpected token))%nat;
          now injection E as _ <-.
      - now injection E as _ <-. }
    exists s1. split; [|congruence].
    unfold bind. rewrite E, Etok, Ht, Es.
    destruct result; reflexivity.
Qed.

Lemma astResult_consumed t s :
  tokens s = [] -> astResult (Some t) s = Done (AstTree t) s.
Proof. intros Ht. unfold astResult. now rewrite Ht. Qed.

Lemma compile_mono fuel fuel' source :
  fuel <= fuel' -> compile fuel source <> Unfinished ->
  compile fuel' source = compile fuel source.
Proof.
  intros Hle. unfold compile.
  destruct (Lexer.tokens source) as [ts| |]; try reflexivity.
  destruct (ast fuel (init ts)) as [a s| |] eqn:E; try congruence.
  apply (ast_mono Hle) in E. rewrite E. reflexivity.
Qed.

End ParserFacts.

(** ** The parser returns *)

Module ParserTermination.

Import Parser ParserSpec ParserFacts.

Lemma rest_refl c : rest c c.
Proof. now exists []. Qed.

Lemma rest_trans a b c : rest a b -> rest b c -> rest a c.
Proof.
  intros [p1 ->] [p2 ->]. exists (p2 ++ p1). now rewrite app_assoc.
Qed.

Lemma rest_cons t c : rest c (t :: c).
Proof. now exists [t]. Qed.

Lemma rest_length a b : rest a b -> length a <= length b.
Proof. intros [p ->]. rewrite length_app. lia. Qed.

Lemma rest_same a b : rest a b -> length b <= length a -> a = b.
Proof.
  intros [p ->] H. rewrite length_app in H.
  destruct p; [reflexivity | simpl in H; lia].
Qed.

Create HintDb rest.
#[local] Hint Resolve rest_refl rest_cons : rest.

(** *** Weakest preconditions of the cursor operations *)

Lemma wp_ret {A} (a : A) Q s : Q a s -> wp (ret a) Q s.
Proof. intros H. now exists a, s. Qed.

Lemma wp_bind {A B} (m : M A) (k : A -> M B) Q s :
  wp m (fun a s' => wp (k a) Q s') s -> wp (bind m k) Q s.
Proof.
  unfold wp. intros (a & s1 & E1 & b & s2 & E2 & H). exists b, s2.
  unfold bind. now rewrite E1.
Qed.

Lemma wp_weaken {A} (m : M A) (Q Q' : A -> State -> Prop) s :
  wp m Q s -> (forall a s', Q a s' -> Q' a s') -> wp m Q' s.
Proof. unfold wp. intros (a & s' & E & H) HQ. exists a, s'. auto. Qed.

Lemma wp_push tks stk e (Q : unit -> State -> Prop) :
  Q tt (mkState tks (current (mkState tks stk e) :: stk) e) ->
  wp push Q (mkState tks stk e).
Proof. intros H. eexists. eexists. split; [reflexivity | exact H]. Qed.

Lemma wp_pop (b : bool) tks c stk e (Q : unit -> State -> Prop) :
  Q tt (if b then setCurrent c (mkState tks stk e) else mkState tks stk e) ->
  wp (pop b) Q (mkState tks (c :: stk) e).
Proof. intros H. eexists. eexists. split; [reflexivity | exact H]. Qed.

Lemma wp_consume k tks c stk e (Q : option Token -> State -> Prop) :
  (forall t c1, c = t :: c1 -> Q (Some t) (mkState tks (c1 :: stk) e)) ->
  Q None (mkState tks (c :: stk) e) ->
  wp (consume k) Q (mkState tks (c :: stk) e).
Proof.
  intros Hs Hn. unfold wp, consume. cbn [current stack].
  destruct c as [|t c1].
  - eexists. eexists. split; [reflexivity | exact Hn].
  - destruct (isKind (type t) k).
    + eexists. eexists. split; [reflexivity | now apply Hs].
    + eexists. eexists. split; [reflexivity | exact Hn].
Qed.

Lemma wp_expected {A} msg tks c stk e (Q : option A -> State -> Prop) :
  (forall e', Q None (mkState tks stk e')) ->
  wp (expected msg) Q (mkState tks (c :: stk) e).
Proof.
  intros H. unfold wp, expected, throw.
  destruct e as [old|]; cbn [error];
    [destruct (estart old <=? _)%nat|]; eexists; eexists;
    (split; [reflexivity | apply H]).
Qed.

Lemma wp_finish k items tks c stk e (Q : option Tree -> State -> Prop) :
  (forall t, Q (Some t) (setCurrent c (mkState tks stk e))) ->
  wp (finish k items) Q (mkState tks (c :: stk) e).
Proof.
  intros H. eexists. eexists. split; [reflexivity | apply H].
Qed.

Lemma wp_orElse {A} (a b : M (option A)) Q s :
  wp a (fun x s' => match x with
                    | Some _ => Q x s'
                    | None => wp b Q s'
                    end) s ->
  wp (a ?? b) Q s.
Proof.
  intros H. unfold orElse. apply wp_bind.
  eapply wp_weaken; [exact H|].
  intros [x|] s' Hx; [now apply wp_ret | exact Hx].
Qed.

Lemma wp_while {A R} (I : A -> State -> Prop) (body : A -> M (Flow A R))
      (Q : A + R -> State -> Prop) :
  (forall a s,
      I a s ->
      wp (body a)
         (fun f s' =>
            match f with
            | Next a' =>
                I a' s' /\ length (current s') < length (current s)
            | Break a' => Q (inl a') s'
            | Return r => Q (inr r) s'
            end) s) ->
  forall fuel a s,
    I a s -> length (current s) < fuel -> wp (while fuel body a) Q s.
Proof.
  intros Hb. induction fuel as [|fuel IHf]; intros a s Hi Hl; [lia|].
  cbn [while]. apply wp_bind.
  eapply wp_weaken; [apply Hb, Hi|].
  intros [a'|a'|r] s' H.
  - destruct H as [Hi' Hl']. apply IHf; [exact Hi' | lia].
  - now apply wp_ret.
  - now apply wp_ret.
Qed.

Lemma wp_loop {A} (I : A -> State -> Prop)
      (body : A -> M (Flow A Empty_set)) (Q : A -> State -> Prop) :
  (forall a s,
      I a s ->
      wp (body a)
         (fun f s' =>
            match f with
            | Next a' =>
                I a' s' /\ length (current s') < length (current s)
            | Break a' => Q a' s'
            | Return r => False
            end) s) ->
  forall fuel a s,
    I a s -> length (current s) < fuel -> wp (loop fuel body a) Q s.
Proof.
  intros Hb fuel a s Hi Hl. unfold loop. apply wp_bind.
  eapply wp_while with (I := I); [|exact Hi|exact Hl].
  intros a0 s0 Hi0. eapply wp_weaken; [apply Hb, Hi0|].
  intros [a'|a'|[]] s' H; [exact H | now apply wp_ret].
Qed.

(** *** The productions, given calls that return *)

Section Calls.

Variable n : nat.
Variable call : Production -> M (option Tree).
Hypothesis calls_finish :
  forall q s, need q (length (current s)) <= n -> finishes q (call q) s.

Lemma wp_call q tks c stk e (Q : option Tree -> State -> Prop) :
  need q (length c) <= n ->
  (forall e', Q None (mkState tks (c :: stk) e')) ->
  (forall t c' e',
      rest c' c -> length c' <= length c ->
      (q <> ParseBody -> length c' < length c) ->
      Q (Some t) (mkState tks (c' :: stk) e')) ->
  wp (call q) Q (mkState tks (c :: stk) e).
Proof.
  intros Hn HN HS.
  eapply wp_weaken; [apply (calls_finish q (mkState tks (c :: stk) e) Hn)|].
  cbn [tokens stack current]. intros [t|] s' H; cbn [lands] in H.
  - destruct H as (c' & e' & -> & Hr & Hl). cbn [setCurrent stack tokens error].
    apply HS; [exact Hr | now apply rest_length | exact Hl].
  - destruct H as (e' & ->). apply HN.
Qed.

Ltac fuel_enough :=
  unfold need in *; cbn [rank length current stack tokens] in *; lia.

Ltac rest_known :=
  eauto 8 using rest_trans, rest_cons, rest_refl.

Ltac lands_here :=
  cbn [lands];
  first
    [ eexists; reflexivity
    | do 2 eexists; split; [reflexivity|];
      split; [rest_known | intros ?; try congruence; fuel_enough] ].

Ltac wp_step :=
  cbn [setCurrent stack tokens error option_map]; cbv beta iota;
  lazymatch goal with
  | |- wp (bind _ _) _ _ => apply wp_bind
  | |- wp (ret _) _ _ => apply wp_ret
  | |- wp push _ _ => apply wp_push; cbn [current stack]
  | |- wp (pop _) _ _ => apply wp_pop
  | |- wp (consume _) _ _ =>
      apply wp_consume;
      [ let H := fresh in
        intros ? ? H; first [injection H as <- <- | subst] |]
  | |- wp (expected _) _ _ => apply wp_expected; intros ?
  | |- wp (finish _ _) _ _ => apply wp_finish; intros ?
  | |- wp (orElse _ _) _ _ => apply wp_orElse
  | |- wp (leaf _) _ _ => unfold leaf
  | |- wp (node _) _ _ => unfold node
  | |- wp (call _) _ _ =>
      eapply wp_call;
      [ fuel_enough
      | intros ?
      | let H := fresh "Hlt" in
        intros ? ? ? ? ? H; try specialize (H ltac:(discriminate)) ]
  | |- wp (loop _ _ _) _ (mkState ?tks (?c :: ?stk) _) =>
      eapply (wp_loop
                (fun _ s => exists c' e',
                     s = mkState tks (c' :: stk) e' /\ rest c' c));
      [ let H := fresh "Hrest" in
        intros ? ? (? & ? & -> & H); pose proof (rest_length H)
      | do 2 eexists; split; [reflexivity | apply rest_refl]
      | fuel_enough ]
  | |- wp (while _ _ _) _ (mkState ?tks (?c :: ?stk) _) =>
      eapply (wp_while
                (fun _ s => exists c' e',
                     s = mkState tks (c' :: stk) e' /\ rest c' c));
      [ let H := fresh "Hrest" in
        intros ? ? (? & ? & -> & H); pose proof (rest_length H)
      | do 2 eexists; split; [reflexivity | apply rest_refl]
      | fuel_enough ]
  | |- wp (match ?x with _ => _ end) _ _ => destruct x
  | |- _ /\ _ =>
      split; [do 2 eexists; split; [reflexivity | rest_known] | fuel_enough]
  | |- lands _ _ _ _ _ _ => lands_here
  | |- False => fail
  end.

Lemma production_finishes p tks stk e :
  need p (length (current (mkState tks stk e))) <= S n ->
  finishes p (production n call p) (mkState tks stk e).
Proof.
  unfold finishes. cbn [tokens stack]. intros Hfuel.
  remember (current (mkState tks stk e)) as c0 eqn:Hc0.
  destruct p; unfold_production;
    apply wp_bind; apply wp_push; rewrite <- Hc0; clear Hc0.
  all: unfold_helpers; repeat wp_step.
Qed.

End Calls.

(** Every production returns, given fuel in proportion to the tokens in
    the cursor, and leaves the cursor stack as it found it but for the
    tokens of the tree it returns. *)
Lemma parse_finishes n : forall p s,
  need p (length (current s)) <= n -> finishes p (parse n p) s.
Proof.
  induction n as [|n IH]; intros p s H.
  - unfold need in H. lia.
  - destruct s as [tks stk e]. cbn [parse].
    now apply production_finishes.
Qed.

Lemma parse_returns p s :
  exists fuel,
    forall fuel', fuel <= fuel' -> exists r s', parse fuel' p s = Done r s'.
Proof.
  exists (need p (length (current s))). intros fuel' H.
  destruct (parse_finishes p s H) as (r & s' & E & _). eauto.
Qed.

(** [parseBody] returns a tree from the initial state, with a root
    cursor that holds what is left of the tokens. *)
Lemma parseBody_finishes ts fuel :
  need ParseBody (length ts) <= fuel ->
  exists body left_ e,
    parseBody fuel (init ts) = Done (Some body) (mkState left_ [] e)
    /\ rest left_ ts.
Proof.
  intros H. destruct (parse_finishes ParseBody (init ts) H)
    as (r & s' & E & L).
  pose proof (@parseBody_returns fuel _ _ _ E) as Hr.
  destruct r as [body|]; [|congruence]. cbn [lands init tokens stack] in L.
  destruct L as (c' & e' & -> & Hrest & _). cbn in Hrest.
  exists body, c', e'. split; [exact E | exact Hrest].
Qed.

(** [ast] returns a tree or an error for every token sequence. *)
Lemma ast_returns ts fuel :
  need ParseBody (length ts) <= fuel ->
  exists a s', ast fuel (init ts) = Done a s' /\ a <> AstNull.
Proof.
  intros H. destruct (parseBody_finishes ts H) as (body & l & e & E & _).
  unfold ast, bind. rewrite E. destruct l as [|token l'].
  - eexists. eexists. split; [reflexivity | discriminate].
  - destruct (@astResult_leftover (Some body) (mkState (token :: l') [] e)
                token l' eq_refl) as (s' & Ea & _).
    rewrite Ea. eexists. eexists. split; [reflexivity|].
    unfold stored. cbn [error].
    destruct e as [old|];
      [destruct (estart old <=? estart (unexpected token))%nat|];
      discriminate.
Qed.

End ParserTermination.

(* ================================================================= *)
(** * More facts about the lexer, the utilities and the parser *)

Module LexerOrder.
Import Lexer LexerSpec LexerFacts.

Lemma spansWithin_snoc lo mid hi acc t :
  spansWithin lo mid acc = true ->
  mid <= start t -> start t < stop t -> stop t <= hi ->
  spansWithin lo hi (acc ++ [t]) = true.
Proof.
  revert lo. induction acc as [|a acc IH]; intros lo; cbn [spansWithin app].
  - intros H1 H2 H3 H4. apply Nat.leb_le in H1.
    apply andb_true_iff; split; [apply andb_true_iff; split|].
    + apply Nat.leb_le. lia.
    + apply Nat.ltb_lt. lia.
    + apply Nat.leb_le. lia.
  - intros H H2 H3 H4.
    apply andb_true_iff in H as [H H1]. rewrite H. cbn [andb].
    now apply IH.
Qed.

Lemma spansWithin_weaken lo mid hi acc :
  spansWithin lo mid acc = true -> mid <= hi ->
  spansWithin lo hi acc = true.
Proof.
  revert lo. induction acc as [|a acc IH]; intros lo; cbn [spansWithin].
  - intros H1 H2. apply Nat.leb_le in H1. apply Nat.leb_le. lia.
  - intros H H2. apply andb_true_iff in H as [H H1]. rewrite H. cbn [andb].
    now apply IH.
Qed.

Lemma loop_spans fuel : forall pre text acc,
  spansWithin 0 (length pre) acc = true ->
  match loop fuel (pre ++ text) text acc with
  | Tokens ts => spansWithin 0 (length (pre ++ text)) ts = true
  | _ => True
  end.
Proof.
  assert (Hend : forall (pre text : JsString.t) acc,
             spansWithin 0 (length pre) acc = true ->
             spansWithin 0 (length pre + length text) acc = true).
  { intros pre text acc H. eapply spansWithin_weaken; [exact H | lia]. }
  induction fuel as [|fuel IH]; intros pre text acc Hacc; cbn [loop];
    rewrite index_app, length_app;
    destruct (length pre <? length pre + length text)%nat eqn:El;
    try exact I; try now apply Hend.
  pose proof (consume_ok pre text) as C. unfold consumeOk in C.
  destruct (consume (pre ++ text) text) as [c text']. cbn [fst snd] in C.
  destruct c as [t| | |]; [| |exact I|exact I].
  - destruct C as (m & Hm & Ht & Hs & He & _). subst text.
    specialize (@IH (pre ++ m) text' (acc ++ [t])).
    rewrite <- app_assoc in IH. rewrite <- length_app.
    apply IH. rewrite length_app.
    apply spansWithin_snoc with (mid := length pre); try assumption; try lia.
    destruct m; [congruence | simpl in *; lia].
  - destruct C as (m & Hm & Ht). subst text.
    specialize (@IH (pre ++ m) text' acc).
    rewrite <- app_assoc in IH. rewrite <- length_app. apply IH.
    rewrite length_app.
    eapply spansWithin_weaken; [exact Hacc | lia].
Qed.

Lemma tokens_spans source ts :
  tokens source = Tokens ts -> spansWithin 0 (length source) ts = true.
Proof.
  unfold tokens. intros H.
  pose proof (@loop_spans (length source) [] source [] eq_refl) as L.
  simpl in L. now rewrite H in L.
Qed.

End LexerOrder.

Module OperatorFacts.
Import Lexer LexerSpec LexerFacts JsStringFacts.

Lemma startsWith_shorter : forall s a b,
  startsWith s a = true -> startsWith s b = true ->
  length a <= length b -> startsWith b a = true.
Proof.
  induction s as [|x s IH]; intros [|y a] [|z b]; simpl; intros Ha Hb Hl;
    try reflexivity; try discriminate; try lia.
  apply andb_true_iff in Ha as [Ha1 Ha2].
  apply andb_true_iff in Hb as [Hb1 Hb2].
  apply N.eqb_eq in Ha1, Hb1. subst. rewrite N.eqb_refl. simpl.
  apply IH; [assumption | assumption | lia].
Qed.

Lemma findOperator_longest tbl : 
  longestFirst tbl = true ->
  forall text m k, findOperator tbl text = Some (m, k) ->
  forall n' k', In (n', k') tbl -> startsWith text (js n') = true ->
  length (js n') <= length m.
Proof.
  induction tbl as [|[n v] tbl IH]; intros Hl text m k Hf n' k' Hin Hs;
    [destruct Hin|].
  cbn [longestFirst] in Hl. apply andb_true_iff in Hl as [Hh Ht].
  cbn [findOperator] in Hf.
  destruct (startsWith text (js n)) eqn:En.
  - injection Hf as <- <-. destruct Hin as [[= <- <-]|Hin]; [lia|].
    rewrite forallb_forall in Hh. specialize (Hh _ Hin). cbn [fst] in Hh.
    destruct (Nat.le_gt_cases (length (js n')) (length (js n))) as [|Hgt];
      [assumption|].
    assert (startsWith (js n') (js n) = true) as E
      by (apply (startsWith_shorter text); [assumption|assumption|lia]).
    rewrite E in Hh. apply Nat.ltb_lt in Hgt. rewrite Hgt in Hh. discriminate.
  - destruct Hin as [[= <- <-]|Hin]; [congruence|].
    eapply IH; eassumption.
Qed.

Lemma findOperator_none tbl text :
  findOperator tbl text = None <->
  forall n k, In (n, k) tbl -> startsWith text (js n) = false.
Proof.
  induction tbl as [|[n v] tbl [IH1 IH2]]; cbn [findOperator]; split.
  - intros _ ? ? [].
  - reflexivity.
  - destruct (startsWith text (js n)) eqn:E; [discriminate|].
    intros H n' k' [[= <- <-]|Hin]; [assumption|].
    now apply (IH1 H n' k').
  - intros H. rewrite (H n v (or_introl eq_refl)). apply IH2.
    intros n' k' Hin. apply (H n' k'). now right.
Qed.

End OperatorFacts.

Module IdentifierFacts.
Import Lexer LexerSpec LexerFacts JsStringFacts.

Lemma underscore_not_alnum : isAlnum 95 = false.
Proof. reflexivity. Qed.

Lemma identifierTail_head s d m :
  identifierTail s = d :: m -> isAlnum d = true \/ d = 95%N.
Proof.
  destruct s as [|c r]; cbn [identifierTail]; [discriminate|].
  destruct (isAlnum c) eqn:Ec.
  - intros [= <- _]. now left.
  - destruct (c =? 95)%N eqn:E5; [|discriminate].
    destruct r as [|e r']; [discriminate|].
    destruct (isAlnum e); [|discriminate].
    intros [= <- _]. right. now apply N.eqb_eq.
Qed.

Lemma identifierTail_join : forall s, underscoresJoin (identifierTail s).
Proof.
  unfold underscoresJoin.
  induction s as [|c r [IHf IHu]]; cbn [identifierTail].
  - split; [constructor|]. intros [|x a] b H; discriminate.
  - assert (Hcons : forall x, (isAlnum x = true \/ x = 95%N) ->
              (x = 95%N -> exists d b', identifierTail r = d :: b'
                                        /\ isAlnum d = true) ->
              Forall (fun c => isAlnum c = true \/ c = 95%N)
                     (x :: identifierTail r) /\
              forall a b, x :: identifierTail r = a ++ 95%N :: b ->
                exists d b', b = d :: b' /\ isAlnum d = true).
    { intros x Hx Hu. split; [now constructor|].
      intros [|y a] b H; cbn [app] in H.
      - injection H as -> <-. now apply Hu.
      - injection H as _ H. eapply IHu. exact H. }
    destruct (isAlnum c) eqn:Ec.
    + apply Hcons; [now left|]. intros ->. discriminate.
    + destruct (c =? 95)%N eqn:E5;
        [|split; [constructor | intros [|x a] b H; discriminate]].
      apply N.eqb_eq in E5. subst c.
      destruct r as [|e r'];
        [split; [constructor | intros [|x a] b H; discriminate]|].
      destruct (isAlnum e) eqn:Ee;
        [|split; [constructor | intros [|x a] b H; discriminate]].
      apply Hcons; [now right|]. intros _.
      cbn [identifierTail]. rewrite Ee. eauto.
Qed.

Lemma identifierTail_stops s :
  endsWord (skipn (length (identifierTail s)) s).
Proof.
  induction s as [|c r IH]; cbn [identifierTail]; [exact I|].
  destruct (isAlnum c) eqn:Ec; [exact IH|].
  destruct (c =? 95)%N eqn:E5.
  - apply N.eqb_eq in E5. subst c.
    destruct r as [|e r']; [cbn; split; [reflexivity | trivial]|].
    destruct (isAlnum e) eqn:Ee; [exact IH|].
    cbn. split; [reflexivity | intros _; exact Ee].
  - cbn. split; [exact Ec|]. intros ->. discriminate.
Qed.

Lemma identifierTail_whole : forall m rest,
  underscoresJoin m -> endsWord rest -> identifierTail (m ++ rest) = m.
Proof.
  induction m as [|c m IH]; intros rest [Hf Hu] He.
  - cbn [app]. destruct rest as [|d rest']; [reflexivity|].
    cbn [identifierTail]. destruct He as [Hd He]. rewrite Hd.
    destruct (d =? 95)%N eqn:E5; [|reflexivity].
    apply N.eqb_eq in E5. specialize (He E5).
    destruct rest' as [|e r]; [reflexivity|]. now rewrite He.
  - assert (Hm : underscoresJoin m).
    { split; [now inversion Hf|].
      intros a b ->. apply (Hu (c :: a) b). reflexivity. }
    cbn [app identifierTail]. rewrite (IH rest Hm He).
    inversion Hf as [|? ? [Hc|Hc] _]; subst.
    + now rewrite Hc.
    + destruct (Hu [] m eq_refl) as (d & b' & -> & Hd).
      cbn [app]. now rewrite Hd.
Qed.

End IdentifierFacts.

Module LexerLoop.
Import Lexer LexerSpec LexerFacts JsStringFacts.

(** What holds of every token [consume] returns holds of the tokens
    of the source. *)
Lemma loop_Forall (P : Token -> Prop) source :
  (forall text t text', consume source text = (Tok t, text') -> P t) ->
  forall fuel text acc ts,
    Forall P acc -> loop fuel source text acc = Tokens ts -> Forall P ts.
Proof.
  intros Hc. induction fuel as [|fuel IH]; intros text acc ts Hacc;
    cbn [loop]; destruct (index source text <? length source)%nat;
    try discriminate; try (now intros [= <-]).
  destruct (consume source text) as [c text'] eqn:E.
  destruct c as [t| | |]; try discriminate.
  - apply IH. apply Forall_app. split; [exact Hacc|].
    constructor; [|constructor]. eapply Hc, E.
  - now apply IH.
Qed.


(** *** Errors *)

Lemma round_shrinks source start str c text str' text' :
  round source start str (c :: text) = Continue str' text' ->
  length text' <= length text.
Proof.
  intros H.
  pose proof (@round_readBy source start str (c :: text)
                ltac:(discriminate)) as R.
  rewrite H in R. destruct R as (pre & add & Hne & Ht & _).
  apply (f_equal (@length N)) in Ht. rewrite length_app in Ht.
  destruct pre; [congruence|]. simpl in Ht. lia.
Qed.

Lemma round_abort source start str text e :
  round source start str text = Abort e ->
  literalError source start (length text - 1) e.
Proof.
  unfold round, literalError.
  destruct text as [|char text1]; [discriminate|].
  destruct (char =? backslash)%N;
    [|destruct (match str ++ [char] with _ :: _ => _ | [] => _ end);
      discriminate].
  destruct text1 as [|escape text2].
  { intros [= <-]. cbn [lstart lcontent lmessage lstop length lexerMessages].
    repeat split; [simpl; tauto|]. exists []. split; [reflexivity | simpl; lia]. }
  repeat (match goal with
          | |- context [if isUnit ?a escape then _ else _] =>
              destruct (isUnit a escape)
          end; try discriminate).
  - destruct (negb (isUpperHex 2 (firstn 2 text2))); [|discriminate].
    intros [= <-]. cbn [lstart lcontent lmessage lstop lexerMessages].
    repeat split; [simpl; tauto|]. exists text2.
    split; [reflexivity | simpl; lia].
  - destruct (match text2 with next :: _ => _ | [] => _ end).
    + destruct (negb (endsWithUnit (throughCurly (eat 1 text2)) closeCurly)).
      * intros [= <-]. cbn [lstart lcontent lmessage lstop lexerMessages].
        repeat split; [simpl; tauto|]. exists (eat 1 text2).
        split; [reflexivity|]. unfold eat. rewrite length_skipn. simpl. lia.
      * destruct (aboveUnicode _); [|discriminate].
        intros [= <-]. cbn [lstart lcontent lmessage lstop lexerMessages].
        repeat split; [simpl; tauto|]. exists (eat 1 text2).
        split; [reflexivity|]. unfold eat. rewrite length_skipn. simpl. lia.
    + destruct (negb (isUpperHex 4 (firstn 4 text2))); [|discriminate].
      intros [= <-]. cbn [lstart lcontent lmessage lstop lexerMessages].
      repeat split; [simpl; tauto|]. exists text2.
      split; [reflexivity | simpl; lia].
Qed.

Lemma literal_failed fuel : forall source start str text e text',
  literal fuel source start str text = (Failed e, text') ->
  literalError source start (length text) e.
Proof.
  induction fuel as [|fuel IH]; intros source start str text e text';
    destruct text as [|c text1]; cbn [literal];
    try (intros [= <- _]; unfold literalError;
         cbn [lstart lcontent lmessage lstop lexerMessages];
         repeat split; [simpl; tauto|]; exists [];
         split; [reflexivity | simpl; lia]);
    try discriminate.
  destruct (round source start str (c :: text1)) as [s' t'|s' t'|e'] eqn:Er.
  - intros H. apply IH in H. apply round_shrinks in Er.
    destruct H as (H1 & H2 & H3 & x & H4 & H5).
    repeat split; try assumption. exists x. split; [assumption|].
    simpl. lia.
  - discriminate.
  - intros [= <- _]. apply round_abort in Er.
    destruct Er as (H1 & H2 & H3 & x & H4 & H5).
    repeat split; try assumption. exists x. split; [assumption|].
    simpl in *. lia.
Qed.

End LexerLoop.

Module EscapeFacts.
Import Lexer LexerSpec LexerFacts JsStringFacts.

Lemma keywords_spelled :
  Forall (fun e => tokens (js (fst e)) = Tokens [spelled (fst e) (snd e)])
         keywords.
Proof. repeat constructor. Qed.

Lemma operators_spelled :
  Forall (fun e => tokens (js (fst e)) = Tokens [spelled (fst e) (snd e)])
         operatorEntries.
Proof. repeat constructor. Qed.

(** *** [parseInt] on a string of hexadecimal digits *)

Lemma isHexAny_bound c : isHexAny c = true -> (c < 103)%N.
Proof.
  unfold isHexAny, isDigit, between. intros H.
  repeat (apply orb_true_iff in H as [H|H]);
    apply andb_true_iff in H as [_ H]; apply N.leb_le in H; lia.
Qed.

Lemma allBelow_spec p n :
  allBelow p n = true -> forall i, (i < N.of_nat n)%N -> p i = true.
Proof.
  induction n as [|n IH]; cbn [allBelow]; intros H i Hi; [lia|].
  destruct (p (N.of_nat n)) eqn:E; [|discriminate].
  destruct (N.eq_dec i (N.of_nat n)) as [->|Hne]; [exact E|].
  apply IH; [exact H | lia].
Qed.

Lemma hex_plain c : isHexAny c = true -> plainDigit c = true.
Proof.
  intros H. apply isHexAny_bound in H.
  apply (@allBelow_spec plainDigit 103); [vm_compute; reflexivity | exact H].
Qed.

Lemma hex_facts c :
  isHexAny c = true ->
  isStrWhiteSpace c = false /\ (c =? 43)%N = false /\ (c =? 45)%N = false
  /\ (c =? 120)%N = false /\ (c =? 88)%N = false
  /\ (c =? openCurly)%N = false /\ (hexValue c < 16)%N.
Proof.
  intros H. pose proof (hex_plain c H) as P. unfold plainDigit in P.
  rewrite H in P. cbn [implb] in P.
  repeat (apply andb_true_iff in P as [P ?]).
  repeat match goal with
         | H : negb _ = true |- _ => apply negb_true_iff in H
         end.
  apply N.ltb_lt in H0. auto 10.
Qed.

Lemma takeWhile_all p s : forallb p s = true -> takeWhile p s = s.
Proof.
  induction s as [|c r IH]; cbn [forallb takeWhile]; [reflexivity|].
  intros H. apply andb_true_iff in H as [-> H]. now rewrite IH.
Qed.

Lemma radix16_bound ds : forall acc,
  forallb isHexAny ds = true ->
  (fold_left (fun a c => 16 * a + hexValue c) ds acc
   < (acc + 1) * 16 ^ N.of_nat (length ds))%N.
Proof.
  induction ds as [|c r IH]; intros acc H.
  - cbn. lia.
  - cbn [forallb] in H. apply andb_true_iff in H as [Hc Hr].
    cbn [fold_left length]. specialize (IH (16 * acc + hexValue c)%N Hr).
    apply hex_facts in Hc as (_ & _ & _ & _ & _ & _ & Hv).
    rewrite Nat2N.inj_succ, N.pow_succ_r'. nia.
Qed.

Lemma nearestDouble_small m : (m < 2 ^ 53)%N -> nearestDouble m = Some m.
Proof.
  intros H. unfold nearestDouble.
  assert (N.size m <= 53)%N as Hs.
  { destruct (N.eq_dec m 0) as [->|Hm]; [cbn; lia|].
    rewrite N.size_log2 by assumption.
    assert (N.log2 m < 53)%N by (apply N.log2_lt_pow2; lia). lia. }
  apply N.leb_le in Hs. now rewrite Hs.
Qed.

(** A string of one to thirteen hexadecimal digits is read as the
    number it spells in base 16. *)
Lemma parseInt16_digits ds :
  ds <> [] -> forallb isHexAny ds = true -> length ds <= 13 ->
  parseInt16 ds = Int (Z.of_N (radix16 ds)).
Proof.
  intros Hne Hall Hlen. unfold parseInt16.
  destruct ds as [|c r]; [congruence|].
  pose proof Hall as Hall'. cbn [forallb] in Hall'.
  apply andb_true_iff in Hall' as [Hc Hr].
  destruct (hex_facts c Hc) as (Hw & Hp & Hm & _).
  cbn [dropWhile]. rewrite Hw, Hm, Hp. cbn [orb].
  match goal with
  | |- context [takeWhile isHexAny ?a] => replace a with (c :: r)
  end.
  2:{ destruct r as [|x r0]; [reflexivity|].
      cbn [forallb] in Hr. apply andb_true_iff in Hr as [Hx _].
      destruct (hex_facts x Hx) as (_ & _ & _ & H1 & H2 & _).
      rewrite H1, H2. cbn [orb]. now rewrite andb_false_r. }
  rewrite (takeWhile_all _ _ Hall).
  pose proof (radix16_bound (c :: r) 0 Hall) as Hb.
  change (fold_left _ (c :: r) 0%N) with (radix16 (c :: r)) in Hb.
  rewrite nearestDouble_small; [reflexivity|].
  eapply N.lt_le_trans; [exact Hb|].
  rewrite N.add_0_l, N.mul_1_l.
  change (2 ^ 53)%N with (2 * 16 ^ 13)%N.
  assert (16 ^ N.of_nat (length (c :: r)) <= 16 ^ 13)%N
    by (apply N.pow_le_mono_r; lia).
  lia.
Qed.

Lemma upper_any c : isHexUpper c = true -> isHexAny c = true.
Proof.
  unfold isHexUpper, isHexAny. intros H.
  apply orb_true_iff in H as [->| ->]; [reflexivity|].
  now rewrite !orb_true_r.
Qed.

Lemma upper_all ds : forallb isHexUpper ds = true -> forallb isHexAny ds = true.
Proof.
  induction ds as [|c r IH]; cbn [forallb]; [reflexivity|].
  intros H. apply andb_true_iff in H as [Hc Hr].
  now rewrite (upper_any _ Hc), IH.
Qed.

Lemma fromCharCode_small v :
  (v < 65536)%N -> fromCharCode (Int (Z.of_N v)) = v.
Proof.
  intros H. unfold fromCharCode. rewrite Z.mod_small by lia.
  apply N2Z.id.
Qed.

Lemma fromCharCode_mod v :
  fromCharCode (Int (Z.of_N v)) = (v mod 65536)%N.
Proof.
  unfold fromCharCode. change 65536%Z with (Z.of_N 65536).
  rewrite <- N2Z.inj_mod. apply N2Z.id.
Qed.

Lemma radix16_lt ds :
  forallb isHexAny ds = true ->
  (radix16 ds < 16 ^ N.of_nat (length ds))%N.
Proof.
  intros H. pose proof (radix16_bound ds 0 H) as B.
  rewrite N.add_0_l, N.mul_1_l in B. exact B.
Qed.

Ltac escape_u :=
  unfold round;
  change (backslash =? backslash)%N with true; cbv iota;
  change (isUnit "n" (code "u")) with false;
  change (isUnit "r" (code "u")) with false;
  change (isUnit "f" (code "u")) with false;
  change (isUnit "v" (code "u")) with false;
  change (isUnit "t" (code "u")) with false;
  change (isUnit "b" (code "u")) with false;
  change (isUnit "0" (code "u")) with false;
  change (isUnit "x" (code "u")) with false;
  change (isUnit "u" (code "u")) with true; cbv iota.

Ltac escape_x :=
  unfold round;
  change (backslash =? backslash)%N with true; cbv iota;
  change (isUnit "n" (code "x")) with false;
  change (isUnit "r" (code "x")) with false;
  change (isUnit "f" (code "x")) with false;
  change (isUnit "v" (code "x")) with false;
  change (isUnit "t" (code "x")) with false;
  change (isUnit "b" (code "x")) with false;
  change (isUnit "0" (code "x")) with false;
  change (isUnit "x" (code "x")) with true; cbv iota.

Lemma round_unicode4 source start str ds rest :
  isUpperHex 4 ds = true ->
  round source start str (backslash :: code "u" :: ds ++ rest)
  = Continue (str ++ [radix16 ds]) rest.
Proof.
  intros H. unfold isUpperHex in H. apply andb_true_iff in H as [Hl Hd].
  apply Nat.eqb_eq in Hl.
  destruct ds as [|a [|b [|c [|d [|? ?]]]]]; try discriminate. clear Hl.
  pose proof (upper_all _ Hd) as Ha.
  assert (Hfirst : (a =? openCurly)%N = false).
  { cbn [forallb] in Ha. apply andb_true_iff in Ha as [Ha _].
    now destruct (hex_facts a Ha) as (_ & _ & _ & _ & _ & ? & _). }
  escape_u. cbn [app]. rewrite Hfirst. cbv iota.
  cbn [firstn]. unfold isUpperHex. rewrite Hd. cbn [length Nat.eqb andb negb].
  cbv iota. change (eat 4 (a :: b :: c :: d :: rest)) with rest.
  rewrite parseInt16_digits by (try discriminate; try assumption; simpl; lia).
  rewrite fromCharCode_small; [reflexivity|].
  apply (radix16_lt _ Ha).
Qed.

Lemma round_hex2 source start str ds rest :
  isUpperHex 2 ds = true ->
  round source start str (backslash :: code "x" :: ds ++ rest)
  = Continue (str ++ [radix16 ds]) rest.
Proof.
  intros H. unfold isUpperHex in H. apply andb_true_iff in H as [Hl Hd].
  apply Nat.eqb_eq in Hl.
  destruct ds as [|a [|b [|? ?]]]; try discriminate. clear Hl.
  pose proof (upper_all _ Hd) as Ha.
  escape_x. cbn [app firstn]. unfold isUpperHex. rewrite Hd.
  cbn [length Nat.eqb andb negb]. cbv iota.
  change (eat 2 (a :: b :: rest)) with rest.
  rewrite parseInt16_digits by (try discriminate; try assumption; simpl; lia).
  rewrite fromCharCode_small; [reflexivity|].
  eapply N.lt_trans; [apply (radix16_lt _ Ha)|]. reflexivity.
Qed.

Lemma hex_not_curly ds :
  forallb isHexAny ds = true ->
  forallb (fun c => negb (c =? closeCurly)%N) ds = true.
Proof.
  induction ds as [|c r IH]; cbn [forallb]; [reflexivity|].
  intros H. apply andb_true_iff in H as [Hc Hr]. rewrite (IH Hr).
  apply isHexAny_bound in Hc.
  assert ((c =? closeCurly)%N = false) as ->
    by (apply N.eqb_neq; unfold closeCurly; lia).
  reflexivity.
Qed.

Lemma round_braced source start str ds rest :
  ds <> [] -> forallb isHexAny ds = true -> length ds <= 13 ->
  round source start str
    (backslash :: code "u" :: openCurly :: ds ++ closeCurly :: rest)
  = if (1114111 <? radix16 ds)%N
    then Abort (mkLexerError "Out of range unicode escape sequence" None
                  start (index source (ds ++ closeCurly :: rest)))
    else Continue (str ++ [(radix16 ds mod 65536)%N]) rest.
Proof.
  intros Hne Hd Hl.
  rewrite round_braced_escape by now apply hex_not_curly.
  rewrite parseInt16_digits by assumption.
  rewrite fromCharCode_mod. unfold aboveUnicode.
  assert ((1114111 <? Z.of_N (radix16 ds))%Z = (1114111 <? radix16 ds)%N)
    as ->.
  { destruct (N.ltb_spec 1114111 (radix16 ds));
      [apply Z.ltb_lt | apply Z.ltb_ge]; lia. }
  reflexivity.
Qed.

(** *** Writing a code unit as an escape *)

Lemma hexDigit_upper d : (d < 16)%N -> isHexUpper (hexDigit d) = true.
Proof.
  intros H.
  apply (@allBelow_spec (fun d => isHexUpper (hexDigit d)) 16);
    [vm_compute; reflexivity | exact H].
Qed.

Lemma hexDigit_value d : (d < 16)%N -> hexValue (hexDigit d) = d.
Proof.
  intros H.
  assert ((hexValue (hexDigit d) =? d)%N = true) as E.
  { apply (@allBelow_spec (fun d => (hexValue (hexDigit d) =? d)%N) 16);
      [vm_compute; reflexivity | exact H]. }
  now apply N.eqb_eq.
Qed.

Lemma hexDigits_length w : forall n, length (hexDigits w n) = w.
Proof.
  induction w as [|w IH]; intros n; cbn [hexDigits]; [reflexivity|].
  rewrite length_app, IH. simpl. lia.
Qed.

Lemma hexDigits_upper w : forall n, forallb isHexUpper (hexDigits w n) = true.
Proof.
  induction w as [|w IH]; intros n; cbn [hexDigits]; [reflexivity|].
  rewrite forallb_app, IH. cbn [forallb andb].
  rewrite hexDigit_upper; [reflexivity|]. apply N.mod_lt. lia.
Qed.

Lemma radix16_snoc ds d :
  radix16 (ds ++ [d]) = (16 * radix16 ds + hexValue d)%N.
Proof. unfold radix16. now rewrite fold_left_app. Qed.

Lemma radix16_hexDigits w : forall n,
  (n < 16 ^ N.of_nat w)%N -> radix16 (hexDigits w n) = n.
Proof.
  induction w as [|w IH]; intros n H; cbn [hexDigits].
  - cbn in H. assert (n = 0%N) as -> by lia. reflexivity.
  - rewrite radix16_snoc, IH, hexDigit_value.
    + symmetry. apply N.div_mod. lia.
    + apply N.mod_lt. lia.
    + rewrite Nat2N.inj_succ, N.pow_succ_r' in H.
      apply N.Div0.div_lt_upper_bound; lia.
Qed.

End EscapeFacts.

Module LiteralFacts.
Import Lexer LexerSpec LexerFacts JsStringFacts LexerLoop EscapeFacts.

Lemma ownProperty_spelling tbl k v :
  ownProperty tbl k = Some v -> exists n, In (n, v) tbl /\ k = js n.
Proof.
  induction tbl as [|[n w] tbl IH]; cbn [ownProperty]; [discriminate|].
  destruct (JsString.eqb (js n) k) eqn:E.
  - intros [= <-]. apply eqb_eq in E. exists n. split; [now left | auto].
  - intros H. destruct (IH H) as (n' & Hin & ->). exists n'. split;
      [now right | reflexivity].
Qed.

Lemma findOperator_spelling tbl input m k :
  findOperator tbl input = Some (m, k) -> exists n, In (n, k) tbl /\ m = js n.
Proof.
  induction tbl as [|[n w] tbl IH]; cbn [findOperator]; [discriminate|].
  destruct (startsWith input (js n)).
  - intros [= <- <-]. exists n. split; [now left | reflexivity].
  - intros H. destruct (IH H) as (n' & Hin & ->). exists n'. split;
      [now right | reflexivity].
Qed.

Lemma consume_wellSpelled source input t input' :
  consume source input = (Tok t, input') -> wellSpelled t.
Proof.
  unfold consume, lexeme, wellSpelled.
  destruct (length source <=? index source input)%nat; [discriminate|].
  destruct (Lexer.orElse _ _); [discriminate|].
  assert (free : forall k, In k freeKinds -> k <> Identifier ->
            (In k freeKinds
             \/ exists n, In (n, k) (keywords ++ operatorEntries)
                          /\ (text t) = js n)
            /\ (k = Identifier -> inKeywords (text t) = false))
    by (intros k Hk Hn; split; [now left | congruence]).
  assert (none : forall (tbl : list (string * TokenType)) (n : string),
            forallb (fun e => negb (TokenType_beq (snd e) Identifier)) tbl
            = true ->
            In (n, Identifier) tbl -> False).
  { intros tbl n F Hin. rewrite forallb_forall in F.
    specialize (F _ Hin). discriminate. }
  destruct (matchIdentifier input) as [m|].
  { destruct (inKeywords m) eqn:Ek; intros [= <- _]; cbn [type text].
    - unfold keywordsGet. destruct (ownProperty keywords m) as [v|] eqn:Eo;
        [|exact I].
      destruct (ownProperty_spelling _ _ Eo) as (n & Hin & ->).
      split.
      + right. exists n. split; [apply in_or_app; now left | reflexivity].
      + intros ->. exfalso. exact (none keywords n eq_refl Hin).
    - split; [left; now left | intros _; exact Ek]. }
  destruct (matchHex input);
    [intros [= <- _]; apply free;
     [cbn [freeKinds In]; tauto | discriminate]|].
  destruct (matchOctal input);
    [intros [= <- _]; apply free;
     [cbn [freeKinds In]; tauto | discriminate]|].
  destruct (matchBinary input);
    [intros [= <- _]; apply free;
     [cbn [freeKinds In]; tauto | discriminate]|].
  destruct (matchFloat input);
    [intros [= <- _]; apply free;
     [cbn [freeKinds In]; tauto | discriminate]|].
  destruct (matchInt input);
    [intros [= <- _]; apply free;
     [cbn [freeKinds In]; tauto | discriminate]|].
  destruct input as [|first text1]; [discriminate|].
  destruct ((first =? quote1)%N || (first =? quote2)%N).
  - intros H. apply literal_read in H.
    destruct H as (? & ? & _ & -> & _). cbn [type text].
    split; [left; cbn [freeKinds In]; tauto | discriminate].
  - destruct (findOperator operatorEntries (first :: text1)) as [[m k]|] eqn:Eo;
      [|discriminate].
    intros [= <- _]. cbn [type text].
    destruct (findOperator_spelling _ _ Eo) as (n & Hin & ->). split.
    + right. exists n. split; [apply in_or_app; now right | reflexivity].
    + intros ->. exfalso. exact (none operatorEntries n eq_refl Hin).
Qed.

(** *** Literals, part by part *)

Lemma readsAs_plain q c :
  (c =? backslash)%N = false -> (c =? q)%N = false -> readsAs q [c] [c].
Proof.
  intros Hb Hq. split; [discriminate|].
  intros source from str after. cbn [app]. unfold round.
  rewrite Hb. cbn [app]. now rewrite Hq.
Qed.

Lemma readsAs_escaped q c : (c < 65536)%N -> readsAs q (escaped c) [c].
Proof.
  intros H. split; [discriminate|].
  intros source from str after. unfold escaped. cbn [app].
  rewrite <- (app_nil_l (hexDigits 4 c ++ after)).
  cbn [app].
  pose proof (@round_unicode4 source from (q :: str) (hexDigits 4 c) after)
    as R.
  rewrite R.
  - rewrite radix16_hexDigits; [reflexivity | exact H].
  - unfold isUpperHex. rewrite hexDigits_length, hexDigits_upper.
    reflexivity.
Qed.

(** A literal made of parts that are read one by one, and closed by
    its quote, is read as what the parts stand for. *)
Lemma literal_parts q :
  (q =? backslash)%N = false ->
  forall parts fuel source from str after,
    Forall (fun p => readsAs q (fst p) (snd p)) parts ->
    length parts < fuel ->
    literal fuel source from (q :: str)
      (flat_map fst parts ++ q :: after)
    = (Tok (mkToken (Kind StringLiteral)
              (slice1m1 ((q :: str) ++ flat_map snd parts ++ [q]))
              from (index source after)), after).
Proof.
  intros Hq.
  induction parts as [|[pre add] parts IH];
    intros fuel source from str after Hall Hf.
  - cbn [flat_map app]. destruct fuel as [|fuel]; [cbn in Hf; lia|].
    cbn [literal]. unfold round. rewrite Hq. cbn [app].
    now rewrite N.eqb_refl.
  - inversion Hall as [|? ? [Hne Hr] Hrest]; subst. cbn [fst snd] in *.
    destruct fuel as [|fuel]; [cbn in Hf; lia|].
    cbn [flat_map fst snd]. rewrite <- app_assoc.
    destruct pre as [|c pre']; [congruence|].
    cbn [app literal].
    change (c :: pre' ++ flat_map fst parts ++ q :: after)
      with ((c :: pre') ++ flat_map fst parts ++ q :: after).
    rewrite Hr.
    change ((q :: str) ++ add) with (q :: (str ++ add)).
    rewrite IH; [|assumption|cbn [length] in Hf; lia].
    cbn [app]. now rewrite <- !app_assoc.
Qed.

(** A quoted literal made of such parts lexes to one token. *)
Lemma tokens_parts q parts :
  q = quote1 \/ q = quote2 ->
  Forall (fun p => readsAs q (fst p) (snd p)) parts ->
  tokens (q :: flat_map fst parts ++ [q])
  = Tokens [mkToken (Kind StringLiteral) (flat_map snd parts) 0
              (length (q :: flat_map fst parts ++ [q]))].
Proof.
  intros Hq Hall.
  assert (Hb : (q =? backslash)%N = false)
    by (destruct Hq as [-> | ->]; reflexivity).
  apply relex; [exact Hq | destruct (flat_map fst parts); discriminate |].
  intros source2 start2 rest2 fuel2 Hf.
  rewrite <- app_assoc. cbn [app].
  rewrite (@literal_parts q Hb parts fuel2 source2 start2 [] rest2 Hall).
  - cbn [app]. unfold slice1m1. cbn [tl].
    now rewrite removelast_last.
  - rewrite length_app in Hf. cbn [length] in Hf.
    assert (length parts <= length (flat_map fst parts)).
    { clear -Hall. induction Hall as [|[pre add] l [Hne _] _ IH];
        [cbn; lia|].
      cbn [flat_map fst length] in *. rewrite length_app.
      destruct pre; [congruence | cbn [length]; lia]. }
    lia.
Qed.

Lemma readsAs_written q c : (c < 65536)%N -> readsAs q (written q c) [c].
Proof.
  intros H. unfold written.
  destruct ((c =? backslash)%N || (c =? q)%N) eqn:E.
  - now apply readsAs_escaped.
  - apply orb_false_iff in E as [Eb Eq]. now apply readsAs_plain.
Qed.

End LiteralFacts.

Module ShiftFacts.
Import Lexer LexerSpec LexerFacts JsStringFacts LexerLoop.

Section Shift.

Variable b : N.
Variable source : JsString.t.

Lemma index_shift x :
  length x <= length source -> index (b :: source) x = S (index source x).
Proof. unfold index. cbn [length]. lia. Qed.

Lemma round_shift start str input :
  length input <= length source ->
  round (b :: source) (S start) str input
  = shiftRound (round source start str input).
Proof.
  intros Hl. unfold round.
  destruct input as [|char text1]; [reflexivity|].
  destruct (char =? backslash)%N;
    [|destruct (match str ++ [char] with _ :: _ => _ | [] => _ end);
      reflexivity].
  assert (H1 : length text1 <= length source) by (simpl in Hl; lia).
  destruct text1 as [|escape text2].
  { cbn [shiftRound shiftError lmessage lcontent lstart lstop].
    now rewrite index_shift. }
  assert (H2 : length text2 <= length source) by (simpl in H1; lia).
  assert (H3 : length (eat 1 text2) <= length source)
    by (unfold eat; rewrite length_skipn; lia).
  repeat (match goal with
          | |- context [if isUnit ?a escape then _ else _] =>
              destruct (isUnit a escape)
          end; try reflexivity).
  - destruct (negb (isUpperHex 2 (firstn 2 text2))); [|reflexivity].
    cbn [shiftRound shiftError lmessage lcontent lstart lstop].
    now rewrite index_shift.
  - destruct (match text2 with next :: _ => _ | [] => _ end).
    + destruct (negb (endsWithUnit (throughCurly (eat 1 text2)) closeCurly)).
      * cbn [shiftRound shiftError lmessage lcontent lstart lstop].
        now rewrite index_shift.
      * destruct (aboveUnicode _); [|reflexivity].
        cbn [shiftRound shiftError lmessage lcontent lstart lstop].
        now rewrite index_shift.
    + destruct (negb (isUpperHex 4 (firstn 4 text2))); [|reflexivity].
      cbn [shiftRound shiftError lmessage lcontent lstart lstop].
      now rewrite index_shift.
Qed.

Lemma literal_shift fuel : forall from str input,
  length input <= length source ->
  literal fuel (b :: source) (S from) str input
  = (shiftConsumed 1 (fst (literal fuel source from str input)),
     snd (literal fuel source from str input)).
Proof.
  induction fuel as [|fuel IH]; intros from str input Hl;
    destruct input as [|c text1]; cbn [literal fst snd shiftConsumed];
    try reflexivity;
    try (cbn [shiftError lmessage lcontent lstart lstop];
         now rewrite index_shift).
  rewrite round_shift by assumption.
  pose proof (@round_shrinks source from str c text1) as Hs.
  destruct (round source from str (c :: text1)) as [s' t'|s' t'|e'] eqn:Er;
    cbn [shiftRound fst snd shiftConsumed].
  - apply IH. specialize (Hs _ _ eq_refl). simpl in Hl. lia.
  - cbn [shiftToken type text start stop]. rewrite index_shift; [reflexivity|].
    pose proof (@round_readBy source from str (c :: text1)
                  ltac:(discriminate)) as R.
    rewrite Er in R. destruct R as (c0 & Ht & _).
    injection Ht as _ <-. simpl in Hl. lia.
  - reflexivity.
Qed.

Lemma consume_shift input :
  length input <= length source ->
  consume (b :: source) input
  = (shiftConsumed 1 (fst (consume source input)),
     snd (consume source input)).
Proof.
  intros Hl. unfold consume, lexeme.
  assert (He : forall n, index (b :: source) (eat n input)
                         = S (index source (eat n input))).
  { intros n. apply index_shift. unfold eat. rewrite length_skipn. lia. }
  rewrite (@index_shift input Hl). cbn [length Nat.leb].
  destruct (length source <=? index source input)%nat; [reflexivity|].
  destruct (Lexer.orElse _ _); [reflexivity|].
  destruct (matchIdentifier input) as [m|];
    [destruct (inKeywords m); cbn [fst snd shiftConsumed]; unfold shiftToken;
     simpl; now rewrite He|].
  destruct (matchHex input);
    [cbn [fst snd shiftConsumed]; unfold shiftToken; simpl; now rewrite He|].
  destruct (matchOctal input);
    [cbn [fst snd shiftConsumed]; unfold shiftToken; simpl; now rewrite He|].
  destruct (matchBinary input);
    [cbn [fst snd shiftConsumed]; unfold shiftToken; simpl; now rewrite He|].
  destruct (matchFloat input);
    [cbn [fst snd shiftConsumed]; unfold shiftToken; simpl; now rewrite He|].
  destruct (matchInt input);
    [cbn [fst snd shiftConsumed]; unfold shiftToken; simpl; now rewrite He|].
  destruct input as [|first text1]; [reflexivity|].
  destruct ((first =? quote1)%N || (first =? quote2)%N).
  - apply literal_shift. unfold eat. rewrite length_skipn. lia.
  - destruct (findOperator operatorEntries (first :: text1)) as [[m k]|];
      [cbn [fst snd shiftConsumed]; unfold shiftToken; simpl; now rewrite He|].
    reflexivity.
Qed.

End Shift.

Lemma loop_shift b fuel : forall pre input acc,
  loop fuel (b :: pre ++ input) input (map (shiftToken 1) acc)
  = shiftLexed 1 (loop fuel (pre ++ input) input acc).
Proof.
  induction fuel as [|fuel IH]; intros pre input acc; cbn [loop];
    rewrite index_shift by (rewrite length_app; lia);
    change (length (b :: pre ++ input)) with (S (length (pre ++ input)));
    change (S (index (pre ++ input) input) <? S (length (pre ++ input)))%nat
      with (index (pre ++ input) input <? length (pre ++ input))%nat;
    destruct (index (pre ++ input) input <? length (pre ++ input))%nat;
    try reflexivity.
  rewrite consume_shift by (rewrite length_app; lia).
  pose proof (consume_ok pre input) as C. unfold consumeOk in C.
  destruct (consume (pre ++ input) input) as [c text']. cbn [fst snd] in *.
  destruct c as [t| | |]; cbn [shiftConsumed shiftLexed]; try reflexivity.
  - destruct C as (m & _ & -> & _).
    change (map (shiftToken 1) acc ++ [shiftToken 1 t])
      with (map (shiftToken 1) acc ++ map (shiftToken 1) [t]).
    rewrite <- map_app, !app_assoc. apply IH.
  - destruct C as (m & _ & ->). rewrite !app_assoc. apply IH.
Qed.

Lemma shiftLexed_add d r :
  shiftLexed 1 (shiftLexed d r) = shiftLexed (S d) r.
Proof.
  destruct r as [ts|e|]; cbn [shiftLexed]; [|reflexivity|reflexivity].
  rewrite map_map. reflexivity.
Qed.

Lemma shiftLexed_zero r : shiftLexed 0 r = r.
Proof.
  destruct r as [ts|[]|]; cbn [shiftLexed]; try reflexivity.
  f_equal. rewrite <- (map_id ts) at 2. apply map_ext. now intros [].
Qed.

Lemma tokens_blank b source :
  isBlank b = true -> tokens (b :: source) = shiftLexed 1 (tokens source).
Proof.
  intros Hb. unfold tokens. change (length (b :: source)) with (S (length source)).
  cbn [loop]. rewrite index_self. cbn [length Nat.ltb Nat.leb].
  assert (consume (b :: source) (b :: source) = (Skipped, source)) as ->.
  { unfold consume. rewrite index_self. cbn [length Nat.leb matchBlank].
    rewrite Hb. reflexivity. }
  apply (loop_shift b (length source) [] source []).
Qed.

End ShiftFacts.

Module UtilsFacts.
Import Utils.

Lemma scan_past count l c : scan count [] l c = (l, c + count).
Proof.
  revert c. induction count as [|n IH]; intros c; cbn [scan].
  - f_equal. lia.
  - rewrite IH. f_equal. lia.
Qed.

Lemma scan_app a : forall k rest l c,
  scan (length a + k) (a ++ rest) l c
  = scan k rest (fst (scan (length a) a l c)) (snd (scan (length a) a l c)).
Proof.
  induction a as [|x a IH]; intros k rest l c; [reflexivity|].
  cbn [length app Nat.add scan].
  destruct (x =? 13)%N; [apply IH|].
  destruct (x =? 10)%N; apply IH.
Qed.

Lemma scan_lines a : forall l c,
  fst (scan (length a) a l c) = l + length (filter isLineFeed a).
Proof.
  induction a as [|x a IH]; intros l c; cbn [length scan filter].
  - simpl. lia.
  - unfold isLineFeed at 1.
    destruct (x =? 13)%N eqn:E13.
    + apply N.eqb_eq in E13. subst x. cbn. apply IH.
    + destruct (x =? 10)%N; rewrite IH; cbn [length]; lia.
Qed.

Lemma scan_line b : forall l c,
  forallb (fun x => negb (isLineFeed x)) b = true ->
  scan (length b) b l c
  = (l, c + length (filter (fun x => negb (isCarriageReturn x)) b)).
Proof.
  induction b as [|x b IH]; intros l c H; cbn [length scan filter].
  - f_equal. simpl. lia.
  - cbn [forallb] in H. apply andb_true_iff in H as [Hx Hb].
    unfold isLineFeed in Hx. apply negb_true_iff in Hx.
    unfold isCarriageReturn at 1. rewrite Hx.
    destruct (x =? 13)%N; cbn [negb]; rewrite IH by assumption;
      f_equal; cbn [length]; lia.
Qed.

Lemma scan_feed a : forall l c,
  snd (scan (length (a ++ [10%N])) (a ++ [10%N]) l c) = 1.
Proof.
  intros l c. rewrite length_app. cbn [length].
  rewrite (scan_app a 1 [10%N] l c). reflexivity.
Qed.

Lemma pushAll_copy {T} original content :
  original <> content ->
  forall fuel i (h : Store T),
    length (h content) - i < fuel ->
    exists h',
      pushAll fuel original content i h = Some h'
      /\ h' original = h original ++ skipn i (h content)
      /\ forall other, other <> original -> h' other = h other.
Proof.
  intros Hne. induction fuel as [|fuel IH]; intros i h Hl; cbn [pushAll].
  - lia.
  - destruct (nth_error (h content) i) as [item|] eqn:E.
    + destruct (IH (S i) (write original (h original ++ [item]) h))
        as (h' & Hp & Ho & Hr).
      * unfold write. destruct (Nat.eqb_spec content original);
          [congruence|].
        assert (i < length (h content))
          by (apply nth_error_Some; congruence).
        lia.
      * exists h'. split; [exact Hp|]. split.
        -- rewrite Ho. unfold write. rewrite Nat.eqb_refl.
           destruct (Nat.eqb_spec content original); [congruence|].
           rewrite <- app_assoc. f_equal.
           clear -E. revert i E. induction (h content) as [|x l IHl];
             intros [|i] E; try discriminate.
           ++ injection E as ->. reflexivity.
           ++ cbn [skipn]. now apply IHl.
        -- intros other Hother. rewrite (Hr other Hother). unfold write.
           destruct (Nat.eqb_spec other original); congruence.
    + exists h. split; [reflexivity|]. split; [|reflexivity].
      apply nth_error_None in E. rewrite skipn_all2 by lia.
      now rewrite app_nil_r.
Qed.

End UtilsFacts.

Module SpanFacts.

Import Parser ParserSpec ParserFacts ParserTermination SpanSpec.

#[local] Arguments pos : simpl never.

(** *** Order of the tokens *)

Lemma pos_cons tks t c : pos tks (t :: c) = start t.
Proof. reflexivity. Qed.

Lemma ordered_app a : forall b, ordered (a ++ b) = true -> ordered b = true.
Proof.
  induction a as [|t a IH]; intros b H; [exact H|].
  cbn [app ordered] in H. apply andb_true_iff in H as [_ H]. now apply IH.
Qed.

(** In ordered tokens the first token starts no later than any other. *)
Lemma ordered_first : forall c t u,
  ordered (t :: c) = true -> In u (t :: c) -> start t <= start u.
Proof.
  induction c as [|v c IH]; intros t u H [<-|Hin]; try lia;
    [destruct Hin|].
  cbn [ordered] in H. apply andb_true_iff in H as [H Hc].
  apply andb_true_iff in H as [H1 H2]. apply Nat.leb_le in H1, H2.
  specialize (IH v u Hc Hin). lia.
Qed.

Lemma lastToken_In ts u : lastToken ts = Some u -> In u ts.
Proof.
  unfold lastToken. intros H. apply in_rev.
  destruct (rev ts) as [|x l]; [discriminate|].
  injection H as ->. now left.
Qed.

Lemma lastToken_app pre t c : lastToken (pre ++ t :: c) = lastToken (t :: c).
Proof.
  unfold lastToken. rewrite rev_app_distr.
  destruct (rev (t :: c)) as [|x l] eqn:E; [|reflexivity].
  cbn [rev] in E. destruct (rev c); discriminate.
Qed.

Lemma lastToken_some t c : exists u, lastToken (t :: c) = Some u.
Proof.
  unfold lastToken. cbn [rev]. destruct (rev c ++ [t]) as [|x l] eqn:E.
  - destruct (rev c); discriminate.
  - eauto.
Qed.

(** The cursor moves forward through ordered tokens. *)
Lemma pos_mono tks c c' :
  ordered tks = true -> rest c tks -> rest c' c ->
  pos tks c <= pos tks c'.
Proof.
  intros Ho [pre ->] [mid ->].
  apply ordered_app in Ho.
  destruct (mid ++ c') as [|t l] eqn:E.
  - destruct mid; [|discriminate]. cbn [app] in E. subst c'. lia.
  - rewrite pos_cons. destruct c' as [|u c'].
    + destruct (lastToken_some t l) as [u Hu].
      unfold pos, startOf. cbn [tokens]. rewrite lastToken_app, Hu.
      eapply ordered_first; [exact Ho|]. now apply lastToken_In.
    + rewrite pos_cons. eapply ordered_first; [exact Ho|].
      rewrite <- E. apply in_or_app. right. now left.
Qed.

Lemma rest_valid tks c c' : rest c tks -> rest c' c -> rest c' tks.
Proof. intros H1 H2. exact (rest_trans H2 H1). Qed.

(** What is known of a token at the head of a cursor. *)
Lemma token_placed tks t c :
  ordered tks = true -> rest (t :: c) tks ->
  rest c tks /\ start t <= stop t /\ start t <= pos tks c /\ follows t c.
Proof.
  intros Ho V. split; [exact (rest_trans (rest_cons t c) V)|].
  pose proof (@pos_mono tks (t :: c) c Ho V (rest_cons t c)) as M.
  rewrite pos_cons in M.
  destruct V as [pre ->]. apply ordered_app in Ho.
  cbn [ordered] in Ho. apply andb_true_iff in Ho as [Ho _].
  apply andb_true_iff in Ho as [H1 H2]. apply Nat.leb_le in H1.
  repeat split; try assumption.
  destruct c as [|u c]; [exact I|]. cbn [follows].
  now apply Nat.leb_le in H2.
Qed.

(** *** Items in their places *)

Lemma placed_nil lo hi : lo <= hi -> placed lo [] hi.
Proof. exact (fun H => H). Qed.

Lemma placed_cons lo i r hi :
  lo <= itemStart i -> itemGood i -> placed (itemStop i) r hi ->
  placed lo (i :: r) hi.
Proof. cbn [placed]. auto. Qed.

Lemma placed_weaken items : forall lo hi hi',
  placed lo items hi -> hi <= hi' -> placed lo items hi'.
Proof.
  induction items as [|i r IH]; intros lo hi hi'; cbn [placed].
  - lia.
  - intros (H1 & H2 & H3) H. repeat split; try assumption.
    now apply (IH _ hi).
Qed.

Lemma placed_lower items : forall lo lo' hi,
  placed lo items hi -> lo' <= lo -> placed lo' items hi.
Proof.
  destruct items as [|i r]; intros lo lo' hi; cbn [placed].
  - lia.
  - intros (H1 & H2 & H3) H. repeat split; try assumption. lia.
Qed.

Lemma placed_app a : forall b lo mid hi,
  placed lo a mid -> placed mid b hi -> placed lo (a ++ b) hi.
Proof.
  induction a as [|i a IH]; intros b lo mid hi; cbn [placed app].
  - intros H1 H2. now apply (placed_lower _ _ H2).
  - intros (H1 & H2 & H3) H. repeat split; try assumption.
    now apply (IH b _ mid).
Qed.

Lemma placed_inOrder items : forall lo hi,
  placed lo items hi -> inOrder items = true.
Proof.
  induction items as [|i r IH]; intros lo hi H; [reflexivity|].
  destruct H as (_ & _ & H). cbn [inOrder]. destruct r as [|j r'];
    [reflexivity|].
  pose proof H as (Hj & _). apply andb_true_iff. split.
  - now apply Nat.leb_le.
  - exact (IH _ _ H).
Qed.

Lemma placed_last items : forall lo hi l,
  placed lo items hi -> lastItem items = Some l -> itemStop l <= hi.
Proof.
  unfold lastItem.
  induction items as [|i r IH]; intros lo hi l H L; [discriminate|].
  destruct H as (_ & _ & H). destruct r as [|j r'].
  - cbn in L. injection L as <-. exact H.
  - apply (IH _ _ _ H). cbn [rev] in L |- *.
    destruct (rev r' ++ [j]) as [|x y] eqn:E;
      [destruct (rev r'); discriminate|].
    cbn [app] in L. exact L.
Qed.

Lemma placed_good items : forall lo hi,
  placed lo items hi ->
  (fix all (l : list Item) : bool :=
     match l with
     | [] => true
     | inl _ :: r => all r
     | inr c :: r => spanInvariant c && all r
     end) items = true.
Proof.
  induction items as [|i r IH]; intros lo hi H; [reflexivity|].
  destruct H as (_ & Hg & H). destruct i as [t|c].
  - exact (IH _ _ H).
  - cbn [itemGood] in Hg. rewrite Hg. exact (IH _ _ H).
Qed.

(** Items in their places make a tree that keeps the span invariant. *)
Lemma placed_span k lo hi items :
  placed lo items hi -> spanInvariant (mkTree k lo hi items) = true.
Proof.
  intros H. cbn [spanInvariant].
  apply andb_true_iff; split; [apply andb_true_iff; split;
                               [apply andb_true_iff; split|]|].
  - destruct items as [|i r]; [reflexivity|].
    destruct H as (H & _). now apply Nat.leb_le.
  - destruct (lastItem items) as [l|] eqn:L; [|reflexivity].
    apply Nat.leb_le. exact (placed_last _ _ _ H L).
  - exact (placed_inOrder _ _ _ H).
  - exact (placed_good _ _ _ H).
Qed.

(** *** Token kinds *)

Lemma isKind_other v k k' :
  isKind v k = true -> k <> k' -> isKind v k' = false.
Proof.
  destruct v as [k0|key]; cbn [isKind]; [|discriminate].
  intros H Hne. apply internal_TokenType_dec_bl in H. subst k0.
  destruct (TokenType_beq k k') eqn:E; [|reflexivity].
  apply internal_TokenType_dec_bl in E. congruence.
Qed.

(** *** Weakest preconditions, with what is learnt on the way *)

Lemma wp_consume2 k tks c stk e (Q : option Token -> State -> Prop) :
  (forall t c1, c = t :: c1 -> isKind (type t) k = true ->
                Q (Some t) (mkState tks (c1 :: stk) e)) ->
  Q None (mkState tks (c :: stk) e) ->
  wp (consume k) Q (mkState tks (c :: stk) e).
Proof.
  intros Hs Hn. unfold wp, consume. cbn [current stack].
  destruct c as [|t c1].
  - eexists. eexists. split; [reflexivity | exact Hn].
  - destruct (isKind (type t) k) eqn:E.
    + eexists. eexists. split; [reflexivity | now apply Hs].
    + eexists. eexists. split; [reflexivity | exact Hn].
Qed.

Lemma wp_expected2 {A} msg tks c stk e (Q : option A -> State -> Prop) :
  (forall e', Q None (mkState tks stk (Some e'))) ->
  wp (expected msg) Q (mkState tks (c :: stk) e).
Proof.
  intros H. unfold wp, expected, throw.
  destruct e as [old|]; cbn [error];
    [destruct (estart old <=? _)%nat|]; eexists; eexists;
    (split; [reflexivity | apply H]).
Qed.

Lemma wp_finish2 k items tks c0 c stk e (Q : option Tree -> State -> Prop) :
  entered tks stk c0 ->
  Q (Some (mkTree k (pos tks c0) (pos tks c) items))
    (setCurrent c (mkState tks stk e)) ->
  wp (finish k items) Q (mkState tks (c :: stk) e).
Proof.
  unfold entered. intros -> H. eexists. eexists.
  split; [|exact H]. destruct stk; reflexivity.
Qed.

Section Deliveries.

Variable n : nat.
Variable call : Production -> M (option Tree).
Hypothesis calls_deliver :
  forall q s,
    need q (length (current s)) <= n ->
    wp (call q) (delivers q (tokens s) (stack s) (current s)) s.

Lemma wp_call2 q tks c stk e (Q : option Tree -> State -> Prop) :
  need q (length c) <= n ->
  (forall e', Q None (mkState tks (c :: stk) (Some e'))) ->
  (forall t c' e',
      rest c' c -> length c' <= length c ->
      (q <> ParseBody -> length c' < length c) ->
      Tree.start t = pos tks c -> Tree.stop t = pos tks c' ->
      (ordered tks = true -> rest c tks -> settled q c' = true ->
       spanInvariant t = true) ->
      Q (Some t) (mkState tks (c' :: stk) e')) ->
  wp (call q) Q (mkState tks (c :: stk) e).
Proof.
  intros Hn HN HS.
  eapply wp_weaken; [apply (calls_deliver q (mkState tks (c :: stk) e) Hn)|].
  cbn [tokens stack current]. intros [t|] s' H; cbn [delivers] in H.
  - destruct H as (c' & e' & -> & Hr & Hl & Hs & He & Hg).
    cbn [setCurrent stack tokens error].
    apply HS; try assumption. now apply rest_length.
  - destruct H as (e' & ->). apply HN.
Qed.

Ltac fuel_enough :=
  unfold need in *; cbn [rank length current stack tokens] in *; lia.

Ltac rest_known :=
  eauto 8 using rest_trans, rest_cons, rest_refl.

(** Everything the order of the tokens tells of the cursors at hand. *)
Ltac survey Hord :=
  repeat match goal with
    | V : rest (?t :: ?c) ?tks |- _ =>
        lazymatch goal with
        | _ : surveyed (t :: c) |- _ => fail
        | _ =>
            let H := fresh "V" in
            pose proof (I : surveyed (t :: c));
            destruct (@token_placed tks t c Hord V) as (H & ? & ? & ?)
        end
    | V : rest ?c ?tks, R : rest ?c' ?c |- _ =>
        lazymatch goal with
        | _ : compared c c' |- _ => fail
        | _ =>
            let H := fresh "V" in
            pose proof (I : compared c c');
            pose proof (@rest_valid tks c c' V R) as H;
            pose proof (@pos_mono tks c c' Hord V R)
        end
    end.

Ltac kinds :=
  repeat match goal with
    | Hk : isKind (type ?u) ?K = true
      |- context [isKind (type ?u) PlusOperator] =>
        rewrite (@isKind_other (type u) K PlusOperator Hk) by discriminate
    | Hk : isKind (type ?u) ?K = true
      |- context [isKind (type ?u) MinusOperator] =>
        rewrite (@isKind_other (type u) K MinusOperator Hk) by discriminate
    end.

(** What is left settles a tree. *)
Ltac settle :=
  cbn [settled settledAt class inner nonEmpty startsTerm andb];
  first
    [ reflexivity
    | assumption
    | kinds; reflexivity ].

Ltac arith :=
  cbn [itemStart itemStop follows] in *; rewrite ?pos_cons in *; lia.

Ltac good :=
  cbn [itemGood];
  first
    [ exact I
    | match goal with
      | Hg : _ -> _ -> settled _ _ = true -> spanInvariant ?x = true
        |- spanInvariant ?x = true =>
          apply Hg; [assumption | assumption | settle]
      end ].

Ltac place :=
  first
    [ match goal with
      | Hi : _ -> _ -> settledAt _ _ = true -> placed _ ?r _
        |- placed _ ?r _ =>
          eapply placed_weaken;
          [ apply Hi; [assumption | assumption | settle]
          | first [apply le_n | arith] ]
      end
    | lazymatch goal with
      | |- placed _ (_ ++ _) _ => eapply placed_app; [place | place]
      | |- placed _ [] _ => apply placed_nil; first [apply le_n | arith]
      | |- placed _ (_ :: _) _ =>
          apply placed_cons; [arith | good | place]
      end ].

(** The premise that what is left settles the tree: an empty cursor
    or a cursor that starts with an operator given back refutes it. *)
Ltac premise Hset :=
  cbn [settled settledAt class inner] in Hset;
  try match type of Hset with
      | context [nonEmpty ?c] =>
          is_var c; destruct c; [discriminate Hset|]
      end;
  cbn [nonEmpty startsTerm andb] in Hset;
  try match goal with
      | Hk : isKind (type ?u) _ = true |- _ =>
          match type of Hset with
          | context [isKind (type u) _] =>
              rewrite Hk, ?orb_true_r in Hset; discriminate Hset
          end
      end.

Ltac spans :=
  let Hord := fresh "Hord" in
  let Hval := fresh "Hval" in
  let Hset := fresh "Hset" in
  intros Hord Hval Hset; premise Hset; survey Hord.

Ltac deliver :=
  cbn [delivers];
  first
    [ eexists; reflexivity
    | do 2 eexists; split; [reflexivity|];
      split; [rest_known|];
      split; [intros ?; try congruence; fuel_enough|];
      split; [reflexivity|];
      split; [reflexivity|];
      spans; apply placed_span; place ].

Ltac collect :=
  unfold collects; do 2 eexists; split; [reflexivity|];
  split; [rest_known|]; spans; place.

(** After a call that consumed tokens, the cursor it started from is
    not empty. *)
Ltac nonempty c H :=
  try (is_var c; destruct c; [cbn [length] in H; lia|]).

Ltac span_step p :=
  cbn [setCurrent stack tokens error option_map fst snd]; cbv beta iota;
  lazymatch goal with
  | |- wp (bind _ _) _ _ => apply wp_bind
  | |- wp (ret _) _ _ => apply wp_ret
  | |- wp push _ _ => apply wp_push; cbn [current stack]
  | |- wp (pop _) _ _ => apply wp_pop
  | |- wp (consume _) _ _ =>
      apply wp_consume2;
      [ let H := fresh in
        intros ? ? H ?; first [injection H as <- <- | subst] |]
  | |- wp (expected _) _ _ => apply wp_expected2; intros ?
  | |- wp (finish _ _) _ _ => eapply wp_finish2; [eassumption|]
  | |- wp (orElse _ _) _ _ => apply wp_orElse
  | |- wp (leaf _) _ _ => unfold leaf
  | |- wp (node _) _ _ => unfold node
  | |- wp (call ?q) _ (mkState _ (?c :: _) _) =>
      eapply wp_call2;
      [ fuel_enough
      | intros ?
      | let H := fresh "Hlt" in
        intros ? ? ? ? ? H ? ? ?;
        try (specialize (H ltac:(discriminate)); nonempty c H) ]
  | |- wp (loop _ _ (_, ?r)) _ (mkState ?tks (?c :: ?stk) _) =>
      match goal with
      | E : entered tks stk ?c0 |- _ =>
          eapply (wp_loop
                    (fun a s => collects tks stk (inner p) c0 c (snd a) s));
          [ let H := fresh "Hrest" in
            let Hi := fresh "Hinv" in
            intros [? ?] ? (? & ? & -> & H & Hi); cbn [snd fst] in *;
            pose proof (rest_length H)
          | cbn [snd]; collect
          | fuel_enough ]
      end
  | |- wp (loop _ _ _) _ (mkState ?tks (?c :: ?stk) _) =>
      match goal with
      | E : entered tks stk ?c0 |- _ =>
          eapply (wp_loop (collects tks stk (inner p) c0 c));
          [ let H := fresh "Hrest" in
            let Hi := fresh "Hinv" in
            intros ? ? (? & ? & -> & H & Hi); pose proof (rest_length H)
          | collect
          | fuel_enough ]
      end
  | |- wp (while _ _ _) _ (mkState ?tks (?c :: ?stk) _) =>
      match goal with
      | E : entered tks stk ?c0 |- _ =>
          eapply (wp_while (collects tks stk (inner p) c0 c));
          [ let H := fresh "Hrest" in
            let Hi := fresh "Hinv" in
            intros ? ? (? & ? & -> & H & Hi); pose proof (rest_length H)
          | collect
          | fuel_enough ]
      end
  | |- wp (if nonEmpty ?r then _ else _) _ _ => destruct r; cbn [nonEmpty]
  | |- wp (if negb (nonEmpty ?r) then _ else _) _ _ =>
      destruct r; cbn [nonEmpty negb]
  | |- wp (match ?x with _ => _ end) _ _ => destruct x
  | |- _ /\ _ => split; [collect | fuel_enough]
  | |- delivers _ _ _ _ _ _ => deliver
  | |- False => fail
  end.

Ltac span_prod p :=
  unfold_production;
  apply wp_bind; apply wp_push;
  match goal with
  | |- context [current (mkState ?tks ?stk ?e)] =>
      let c0 := fresh "c0" in
      let E := fresh "E" in
      assert (E : entered tks stk (current (mkState tks stk e)))
        by reflexivity;
      remember (current (mkState tks stk e)) as c0 eqn:Hc0 in *;
      clear Hc0
  end;
  unfold_helpers; repeat span_step p.

Lemma production_delivers p tks stk e :
  need p (length (current (mkState tks stk e))) <= S n ->
  wp (production n call p)
     (delivers p tks stk (current (mkState tks stk e)))
     (mkState tks stk e).
Proof.
  intros Hfuel.
  destruct p;
    match goal with
    | |- wp (production _ _ ?p) _ _ => span_prod p
    end.
Qed.

End Deliveries.

(** Every production returns as [delivers] says, given fuel in
    proportion to the tokens in the cursor. *)
Lemma parse_delivers n : forall p s,
  need p (length (current s)) <= n ->
  wp (parse n p) (delivers p (tokens s) (stack s) (current s)) s.
Proof.
  induction n as [|n IH]; intros p s H.
  - unfold need in H. lia.
  - destruct s as [tks stk e]. cbn [parse tokens stack].
    now apply production_delivers.
Qed.

(** Whatever fuel it is given, a production that returns returns as
    [delivers] says. *)
Lemma parse_delivered fuel p s r s' :
  parse fuel p s = Done r s' ->
  delivers p (tokens s) (stack s) (current s) r s'.
Proof.
  intros H.
  set (m := Nat.max fuel (need p (length (current s)))).
  assert (Hm : parse m p s = Done r s')
    by (apply (@parse_mono fuel m p); [lia | exact H]).
  destruct (@parse_delivers m p s ltac:(lia)) as (r' & s'' & E & D).
  rewrite Hm in E. injection E as <- <-. exact D.
Qed.

Lemma ordered_spans : forall ts lo hi,
  spansWithin lo hi ts = true -> ordered ts = true.
Proof.
  induction ts as [|t r IH]; intros lo hi H; [reflexivity|].
  cbn [spansWithin] in H. apply andb_true_iff in H as [H Hr].
  apply andb_true_iff in H as [_ Hs]. apply Nat.ltb_lt in Hs.
  cbn [ordered]. rewrite (IH _ _ Hr), andb_true_r.
  apply andb_true_iff. split; [apply Nat.leb_le; lia|].
  destruct r as [|u r']; [reflexivity|].
  cbn [spansWithin] in Hr. apply andb_true_iff in Hr as [Hr _].
  apply andb_true_iff in Hr as [Hr _]. exact Hr.
Qed.

End SpanFacts.

Module CommentFacts.
Import Lexer LexerSpec LexerFacts JsStringFacts LexerLoop ShiftFacts.

Lemma loop_fuel fuel : forall fuel' source input acc,
  loop fuel source input acc <> LexStuck -> fuel <= fuel' ->
  loop fuel' source input acc = loop fuel source input acc.
Proof.
  induction fuel as [|fuel IH]; intros fuel' source input acc H Hle;
    cbn [loop] in *.
  - destruct fuel'; cbn [loop];
      destruct (index source input <? length source)%nat;
      try reflexivity; congruence.
  - destruct fuel' as [|fuel']; [lia|]. cbn [loop].
    destruct (index source input <? length source)%nat; [|reflexivity].
    destruct (consume source input) as [[t| |e|] text'];
      try reflexivity; apply IH; try assumption; lia.
Qed.

Lemma shiftToken_add d t : shiftToken 1 (shiftToken d t) = shiftToken (S d) t.
Proof. reflexivity. Qed.

(** The tokens read from [input] within a longer source are those read
    from it on its own, moved to the right. *)
Lemma loop_prefix fuel prefix : forall input,
  loop fuel (prefix ++ input) input []
  = shiftLexed (length prefix) (loop fuel input input []).
Proof.
  induction prefix as [|b prefix IH]; intros input.
  - cbn [app length]. now rewrite shiftLexed_zero.
  - cbn [app length].
    pose proof (loop_shift b fuel prefix input []) as H.
    cbn [map] in H. rewrite H, IH.
    apply shiftLexed_add.
Qed.

(** A prefix that [consume] skips leaves the tokens of what follows,
    moved to the right. *)
Lemma tokens_skip prefix source :
  prefix <> [] ->
  consume (prefix ++ source) (prefix ++ source) = (Skipped, source) ->
  tokens (prefix ++ source) = shiftLexed (length prefix) (tokens source).
Proof.
  intros Hne Hc. unfold tokens.
  destruct prefix as [|b prefix]; [congruence|].
  change (length ((b :: prefix) ++ source))
    with (S (length (prefix ++ source))).
  cbn [loop]. rewrite index_self.
  change (0 <? length ((b :: prefix) ++ source))%nat with true. cbv iota.
  rewrite Hc, loop_prefix. f_equal.
  apply loop_fuel.
  - apply tokens_total.
  - rewrite length_app. lia.
Qed.

Lemma throughCommentEnd_first body : forall after,
  closesComment body = false ->
  throughCommentEnd (body ++ 42%N :: 47%N :: after)
  = Some (body ++ [42%N; 47%N]).
Proof.
  induction body as [|c body IH]; intros after H.
  - reflexivity.
  - cbn [closesComment] in H. apply orb_false_iff in H as [Hc Hb].
    cbn [app throughCommentEnd].
    assert (Hnext : (c =? 42)%N
                    && match body ++ 42%N :: 47%N :: after with
                       | d :: _ => (d =? 47)%N
                       | [] => false
                       end = false).
    { destruct body as [|d body']; [|exact Hc].
      cbn [app]. now rewrite andb_false_r. }
    rewrite Hnext, (IH after Hb). reflexivity.
Qed.

End CommentFacts.

Module CutFacts.

Import Lexer LexerSpec LexerFacts JsStringFacts LexerLoop EscapeFacts.
Import ShiftFacts CommentFacts.

(** *** The regular expressions read no further than their match *)

Lemma takeWhile_app p x w :
  takeWhile p (x ++ w)
  = if forallb p x then x ++ takeWhile p w else takeWhile p x.
Proof.
  induction x as [|c x IH]; cbn [app takeWhile forallb]; [reflexivity|].
  destruct (p c); cbn [andb]; [|reflexivity].
  rewrite IH. now destruct (forallb p x).
Qed.

Lemma takeWhile_cut p x w :
  length (takeWhile p (x ++ w)) <= length x ->
  takeWhile p x = takeWhile p (x ++ w).
Proof.
  rewrite takeWhile_app. destruct (forallb p x) eqn:E; [|reflexivity].
  rewrite length_app. intros H.
  destruct (takeWhile p w); cbn [length] in H; [|lia].
  rewrite app_nil_r. now apply takeWhile_all.
Qed.

Lemma takeWhile_nil_cut p x w :
  takeWhile p (x ++ w) = [] -> takeWhile p x = [].
Proof.
  intros H. rewrite takeWhile_cut with (w := w); [exact H|].
  rewrite H. cbn [length]. lia.
Qed.

Lemma takeWhile_length p x : length (takeWhile p x) <= length x.
Proof.
  induction x as [|c x IH]; cbn [takeWhile length]; [lia|].
  destruct (p c); cbn [length]; lia.
Qed.

(** What follows the run that [takeWhile] takes from a text that does
    not end it. *)
Lemma takeWhile_next p x :
  forallb p x = false ->
  exists c r, skipn (length (takeWhile p x)) x = c :: r.
Proof.
  induction x as [|c x IH]; cbn [forallb takeWhile]; [discriminate|].
  destruct (p c); cbn [andb length skipn]; [exact IH|].
  intros _. now exists c, x.
Qed.

Lemma stable_blank : stable matchBlank.
Proof.
  intros [|c x] w; cbn [app matchBlank].
  - destruct w as [|d w]; cbn [matchBlank]; [reflexivity|].
    destruct (isBlank d); [cbn [length]; lia | reflexivity].
  - now destruct (isBlank c).
Qed.

Lemma stable_lineComment : stable matchLineComment.
Proof.
  intros x w. unfold matchLineComment.
  destruct x as [|a [|b x]]; cbn [app].
  - destruct w as [|a [|b r]]; try reflexivity.
    destruct ((a =? 47)%N && (b =? 47)%N); [cbn [length]; lia | reflexivity].
  - destruct w as [|b r]; try reflexivity.
    destruct ((a =? 47)%N && (b =? 47)%N); [cbn [length]; lia | reflexivity].
  - destruct ((a =? 47)%N && (b =? 47)%N); [|reflexivity].
    cbn [length]. intros H. do 3 f_equal. apply takeWhile_cut. lia.
Qed.

Lemma throughCommentEnd_some s : throughCommentEnd s <> Some [].
Proof.
  destruct s as [|c r]; cbn [throughCommentEnd]; [discriminate|].
  destruct ((c =? 42)%N && _); [discriminate|].
  destruct (throughCommentEnd r); discriminate.
Qed.

Lemma stable_throughCommentEnd : stable throughCommentEnd.
Proof.
  intros x. induction x as [|c x IH]; intros w.
  - cbn [app]. destruct (throughCommentEnd w) as [m|] eqn:E; [|reflexivity].
    intros H. destruct m; [|cbn [length] in H; lia].
    now apply throughCommentEnd_some in E.
  - specialize (IH w). cbn [app throughCommentEnd].
    destruct x as [|d x].
    + cbn [app] in *. rewrite andb_false_r. cbn [throughCommentEnd option_map].
      destruct w as [|d w].
      * rewrite andb_false_r. reflexivity.
      * destruct ((c =? 42)%N && (d =? 47)%N); [cbn [firstn length]; lia|].
        destruct (throughCommentEnd (d :: w)) as [m|] eqn:E;
          cbn [option_map]; [|reflexivity].
        intros H. destruct m; [|cbn [length] in H; lia].
        now apply throughCommentEnd_some in E.
    + cbn [app] in *.
      destruct ((c =? 42)%N && (d =? 47)%N); [intros _; reflexivity|].
      destruct (throughCommentEnd (d :: x ++ w)) as [m|];
        cbn [option_map length] in *.
      * intros H. rewrite IH; [reflexivity | lia].
      * now rewrite IH.
Qed.

Lemma stable_blockComment : stable matchBlockComment.
Proof.
  intros x w. unfold matchBlockComment.
  destruct x as [|a [|b x]]; cbn [app].
  - destruct w as [|a [|b r]]; try reflexivity.
    destruct ((a =? 47)%N && (b =? 42)%N); [|reflexivity].
    destruct (throughCommentEnd r); cbn [option_map length];
      [lia | reflexivity].
  - destruct w as [|b r]; try reflexivity.
    destruct ((a =? 47)%N && (b =? 42)%N); [|reflexivity].
    destruct (throughCommentEnd r); cbn [option_map length];
      [lia | reflexivity].
  - destruct ((a =? 47)%N && (b =? 42)%N); [|reflexivity].
    pose proof (stable_throughCommentEnd x w) as S.
    destruct (throughCommentEnd (x ++ w)) as [m|]; cbn [option_map length].
    + intros H. rewrite S; [reflexivity | lia].
    + now rewrite S.
Qed.

Lemma identifierTail_cut x : forall w,
  length (identifierTail (x ++ w)) <= length x ->
  identifierTail x = identifierTail (x ++ w).
Proof.
  induction x as [|c x IH]; intros w.
  - cbn [app length identifierTail]. intros H.
    destruct (identifierTail w); [reflexivity | cbn [length] in H; lia].
  - cbn [app identifierTail].
    destruct (isAlnum c).
    { cbn [length]. intros H. f_equal. apply IH. lia. }
    destruct (c =? 95)%N; [|reflexivity].
    destruct x as [|d x].
    + cbn [app]. destruct w as [|d w]; [reflexivity|].
      destruct (isAlnum d) eqn:Ed; [|reflexivity].
      cbn [identifierTail]. rewrite Ed. cbn [length]. lia.
    + cbn [app]. destruct (isAlnum d); [|reflexivity].
      cbn [length]. intros H. f_equal. apply (IH w). cbn [app length]. lia.
Qed.

Lemma stable_identifier : stable matchIdentifier.
Proof.
  intros [|c x] w; cbn [app matchIdentifier].
  - destruct w as [|d w]; cbn [matchIdentifier]; [reflexivity|].
    destruct (isAlpha d); [cbn [length]; lia | reflexivity].
  - destruct (isAlpha c); [|reflexivity].
    cbn [length]. intros H. do 2 f_equal. apply identifierTail_cut. lia.
Qed.

Lemma stable_prefixed lower upper digit :
  stable (matchPrefixed lower upper digit).
Proof.
  intros x w. unfold matchPrefixed.
  assert (short : forall z a r,
             match
               (if (z =? 48)%N && ((a =? lower)%N || (a =? upper)%N)
                then match takeWhile digit r with
                     | [] => None
                     | d :: ds => Some (z :: a :: d :: ds)
                     end
                else None)
             with
             | Some m => 3 <= length m
             | None => True
             end).
  { intros z a r. destruct ((z =? 48)%N && _); [|exact I].
    destruct (takeWhile digit r); [exact I | cbn [length]; lia]. }
  destruct x as [|z [|a x]]; cbn [app].
  - destruct w as [|z [|a r]]; try reflexivity.
    specialize (short z a r).
    destruct (if (z =? 48)%N && _ then _ else _); [|reflexivity].
    cbn [length]. lia.
  - destruct w as [|a r]; try reflexivity.
    specialize (short z a r).
    destruct (if (z =? 48)%N && _ then _ else _); [|reflexivity].
    cbn [length]. lia.
  - destruct ((z =? 48)%N && _); [|reflexivity].
    destruct (takeWhile digit (x ++ w)) as [|d ds] eqn:E.
    + now rewrite (takeWhile_nil_cut _ _ _ E).
    + cbn [length]. intros H.
      rewrite (@takeWhile_cut digit x w), E; [reflexivity|].
      rewrite E. cbn [length]. lia.
Qed.

Lemma exponent_cut x w :
  length (exponent (x ++ w)) <= length x -> exponent x = exponent (x ++ w).
Proof.
  unfold exponent. destruct x as [|e [|sg x]]; cbn [app].
  - cbn [length]. intros H.
    destruct w as [|e r]; [reflexivity|].
    destruct ((e =? 101)%N || (e =? 69)%N); [|reflexivity].
    destruct r as [|sg r']; [reflexivity|].
    destruct ((sg =? 43)%N || (sg =? 45)%N).
    + destruct (takeWhile isDigit r'); [reflexivity | cbn [length] in H; lia].
    + destruct (takeWhile isDigit (sg :: r'));
        [reflexivity | cbn [length] in H; lia].
  - cbn [length]. intros H.
    destruct ((e =? 101)%N || (e =? 69)%N); [|reflexivity].
    destruct w as [|sg r']; [reflexivity|].
    destruct ((sg =? 43)%N || (sg =? 45)%N).
    + destruct (takeWhile isDigit r'); [reflexivity | cbn [length] in H; lia].
    + destruct (takeWhile isDigit (sg :: r')) as [|d [|d' ds]] eqn:E;
        [reflexivity | | cbn [length] in H; lia].
      cbn [length] in H. lia.
  - destruct ((e =? 101)%N || (e =? 69)%N); [|reflexivity].
    destruct ((sg =? 43)%N || (sg =? 45)%N).
    + destruct (takeWhile isDigit (x ++ w)) as [|d ds] eqn:E.
      * now rewrite (takeWhile_nil_cut _ _ _ E).
      * cbn [length]. intros H.
        rewrite (@takeWhile_cut isDigit x w), E; [reflexivity|].
        rewrite E. cbn [length]. lia.
    + change (sg :: x ++ w) with ((sg :: x) ++ w).
      destruct (takeWhile isDigit ((sg :: x) ++ w)) as [|d ds] eqn:E.
      * now rewrite (takeWhile_nil_cut _ _ _ E).
      * cbn [length]. intros H.
        rewrite (@takeWhile_cut isDigit (sg :: x) w), E; [reflexivity|].
        rewrite E. cbn [length]. lia.
Qed.

Lemma skipn_cut {A} n (x w : list A) :
  n <= length x -> skipn n (x ++ w) = skipn n x ++ w.
Proof.
  intros H. rewrite skipn_app.
  replace (n - length x) with 0 by lia. reflexivity.
Qed.

Lemma stable_int : stable matchInt.
Proof.
  intros x w. unfold matchInt.
  destruct (takeWhile isDigit (x ++ w)) as [|d ds] eqn:E.
  - now rewrite (takeWhile_nil_cut _ _ _ E).
  - rewrite length_app. intros H.
    assert (Hc : takeWhile isDigit x = d :: ds).
    { rewrite (@takeWhile_cut isDigit x w), E; [reflexivity|].
      rewrite E. lia. }
    rewrite Hc. do 2 f_equal.
    rewrite skipn_cut in * by lia.
    apply exponent_cut. rewrite length_skipn. lia.
Qed.

Lemma stable_float : stable matchFloat.
Proof.
  intros x w. destruct (forallb isDigit x) eqn:Ea.
  - assert (Hx : matchFloat x = None).
    { unfold matchFloat. rewrite (takeWhile_all _ _ Ea).
      destruct x; [reflexivity|]. now rewrite skipn_all. }
    rewrite Hx. destruct (matchFloat (x ++ w)) as [m|] eqn:E; [|reflexivity].
    intros H. exfalso. unfold matchFloat in E.
    rewrite takeWhile_app, Ea in E.
    destruct (x ++ takeWhile isDigit w) as [|i ip] eqn:Eip; [discriminate|].
    destruct (skipn (length (i :: ip)) (x ++ w)) as [|dot r]; [discriminate|].
    destruct (dot =? 46)%N; [|discriminate].
    destruct (takeWhile isDigit r); [discriminate|].
    injection E as <-. apply (f_equal (@length N)) in Eip.
    cbn [app length] in *. rewrite !length_app in *. cbn [length] in *. lia.
  - unfold matchFloat. rewrite takeWhile_app, Ea.
    pose proof (takeWhile_length isDigit x) as Hl.
    destruct (takeWhile_next _ _ Ea) as (c & r & Hs).
    destruct (takeWhile isDigit x) as [|d ds] eqn:Et; [reflexivity|].
    rewrite skipn_cut by exact Hl. rewrite Hs. cbn [app].
    destruct (c =? 46)%N; [|reflexivity].
    assert (Hx : length x = length (d :: ds) + S (length r)).
    { rewrite <- (firstn_skipn (length (d :: ds)) x) at 1.
      rewrite Hs, length_app, length_firstn. cbn [length] in *. lia. }
    destruct (takeWhile isDigit (r ++ w)) as [|f fs] eqn:Ef.
    + now rewrite (takeWhile_nil_cut _ _ _ Ef).
    + intros H. cbn [app length] in H. rewrite ?length_app in H.
      cbn [length] in H. rewrite ?length_app in H.
      assert (Hc : takeWhile isDigit r = f :: fs).
      { rewrite (@takeWhile_cut isDigit r w), Ef; [reflexivity|].
        rewrite Ef. cbn [length] in *. lia. }
      rewrite Hc.
      rewrite skipn_cut in * by (cbn [length] in *; lia).
      rewrite <- exponent_cut; [reflexivity|].
      rewrite length_skipn. cbn [length] in *. lia.
Qed.

Lemma startsWith_app s w : forall p,
  startsWith s p = true -> startsWith (s ++ w) p = true.
Proof.
  induction s as [|x s IH]; intros [|y p]; cbn [app startsWith];
    try (intros; destruct w; reflexivity); try discriminate.
  intros H. apply andb_true_iff in H as [-> H]. now apply IH.
Qed.

Lemma startsWith_cut s w : forall p,
  startsWith (s ++ w) p = true -> length p <= length s ->
  startsWith s p = true.
Proof.
  induction s as [|x s IH]; intros [|y p]; cbn [app startsWith length];
    try (intros; reflexivity); try lia.
  intros H Hl. apply andb_true_iff in H as [-> H]. apply IH; [exact H | lia].
Qed.

Lemma findOperator_cut tbl x w :
  match findOperator tbl (x ++ w) with
  | Some (m, k) => length m <= length x -> findOperator tbl x = Some (m, k)
  | None => findOperator tbl x = None
  end.
Proof.
  induction tbl as [|[n v] tbl IH]; cbn [findOperator]; [reflexivity|].
  destruct (startsWith (x ++ w) (js n)) eqn:E.
  - intros H. now rewrite (startsWith_cut _ _ _ E H).
  - destruct (startsWith x (js n)) eqn:E';
      [apply startsWith_app with (w := w) in E'; congruence|].
    exact IH.
Qed.

(** *** One call of [consume] reads no further than its lexeme *)

Lemma index_past pre m rest :
  index (pre ++ m ++ rest) rest = length pre + length m.
Proof. unfold index. rewrite !length_app. lia. Qed.

Lemma eat_past (m' m rest : JsString.t) :
  length m' = length m -> eat (length m') (m ++ rest) = rest.
Proof.
  intros H. unfold eat. rewrite H.
  now rewrite skipn_app, skipn_all, Nat.sub_diag.
Qed.

(** A prefix of [m ++ rest] that leaves [rest] is as long as [m]. *)
Lemma eat_length (m' m rest : JsString.t) :
  begins (m ++ rest) m' -> eat (length m') (m ++ rest) = rest ->
  length m' = length m.
Proof.
  unfold begins, eat. intros Hb He. rewrite He in Hb.
  apply (f_equal (@length N)) in Hb. rewrite !length_app in Hb. lia.
Qed.

Lemma lexeme_past pre m rest k m' :
  length m' = length m ->
  lexeme (pre ++ m ++ rest) (length pre) k m' (m ++ rest)
  = (Tok (mkToken k m' (length pre) (length pre + length m)), rest).
Proof.
  intros H. unfold lexeme. rewrite eat_past by exact H. now rewrite index_past.
Qed.

(** What [consume] reads from a text it reads again when the text is
    cut anywhere after it. *)
Lemma consume_cut pre m z w c :
  m <> [] -> (forall e, c <> Failed e) -> c <> Stuck ->
  consume (pre ++ m ++ z ++ w) (m ++ z ++ w) = (c, z ++ w) ->
  consume (pre ++ m ++ z) (m ++ z) = (c, z).
Proof.
  intros Hm Hf Hs. unfold consume. rewrite !index_app.
  assert (Hl : forall r, (length (pre ++ m ++ r) <=? length pre)%nat = false).
  { intros r. apply Nat.leb_gt. rewrite !length_app.
    destruct m; [congruence | cbn [length]; lia]. }
  rewrite !Hl.
  assert (skip : forall f,
             matcherOk f -> stable f ->
             match f (m ++ z ++ w) with
             | Some m' =>
                 eat (length m') (m ++ z ++ w) = z ++ w ->
                 f (m ++ z) = Some m' /\ length m' = length m
             | None => f (m ++ z) = None
             end).
  { intros f Ok St. specialize (St (m ++ z) w). rewrite <- app_assoc in St.
    destruct (f (m ++ z ++ w)) as [m'|] eqn:E; [|exact St].
    intros He. apply Ok in E as [_ Hb].
    pose proof (@eat_length m' m (z ++ w) Hb He) as Hlen.
    split; [|exact Hlen]. apply St. rewrite length_app. lia. }
  assert (read : forall k m',
             length m' = length m ->
             lexeme (pre ++ m ++ z ++ w) (length pre) k m' (m ++ z ++ w)
             = (c, z ++ w) ->
             lexeme (pre ++ m ++ z) (length pre) k m' (m ++ z) = (c, z)).
  { intros k m' Hlen. rewrite !lexeme_past by exact Hlen.
    now intros [= <-]. }
  assert (token : forall f k,
             matcherOk f -> stable f ->
             match f (m ++ z ++ w) with
             | Some m' =>
                 lexeme (pre ++ m ++ z ++ w) (length pre) k m' (m ++ z ++ w)
                 = (c, z ++ w) ->
                 f (m ++ z) = Some m' /\
                 lexeme (pre ++ m ++ z) (length pre) k m' (m ++ z) = (c, z)
             | None => f (m ++ z) = None
             end).
  { intros f k Ok St. specialize (skip f Ok St).
    destruct (f (m ++ z ++ w)) as [m'|]; [|exact skip].
    intros H. assert (He : eat (length m') (m ++ z ++ w) = z ++ w)
      by (unfold lexeme in H; now injection H).
    destruct (skip He) as [Hx Hlen]. split; [exact Hx|]. now apply read. }
  pose proof (skip _ matchBlank_ok stable_blank) as S1.
  pose proof (skip _ matchLineComment_ok stable_lineComment) as S2.
  pose proof (skip _ matchBlockComment_ok stable_blockComment) as S3.
  destruct (matchBlank (m ++ z ++ w)) as [b|]; cbn [Lexer.orElse].
  { intros [= <- He]. destruct (S1 He) as [-> Hlen]. cbn [Lexer.orElse].
    now rewrite eat_past by exact Hlen. }
  rewrite S1. clear S1.
  destruct (matchLineComment (m ++ z ++ w)) as [b|]; cbn [Lexer.orElse].
  { intros [= <- He]. destruct (S2 He) as [-> Hlen]. cbn [Lexer.orElse].
    now rewrite eat_past by exact Hlen. }
  rewrite S2. clear S2.
  destruct (matchBlockComment (m ++ z ++ w)) as [b|]; cbn [Lexer.orElse].
  { intros [= <- He]. destruct (S3 He) as [-> Hlen]. cbn [Lexer.orElse].
    now rewrite eat_past by exact Hlen. }
  rewrite S3. clear S3.
  pose proof (skip _ matchIdentifier_ok stable_identifier) as S1.
  destruct (matchIdentifier (m ++ z ++ w)) as [b|].
  { intros H.
    assert (He : eat (length b) (m ++ z ++ w) = z ++ w)
      by (destruct (inKeywords b); unfold lexeme in H; now injection H).
    destruct (S1 He) as [-> Hlen].
    destruct (inKeywords b); now apply read. }
  rewrite S1. clear S1.
  pose proof (token _ (Kind HexadecimalLiteral)
                (@matchPrefixed_ok _ _ _)
                (@stable_prefixed 120 88 isHexAny)) as S1.
  fold matchHex in S1.
  destruct (matchHex (m ++ z ++ w)) as [b|].
  { intros H. destruct (S1 H) as [-> H']. exact H'. }
  rewrite S1. clear S1.
  pose proof (token _ (Kind OctalLiteral)
                (@matchPrefixed_ok _ _ _)
                (@stable_prefixed 111 79 isOctal)) as S1.
  fold matchOctal in S1.
  destruct (matchOctal (m ++ z ++ w)) as [b|].
  { intros H. destruct (S1 H) as [-> H']. exact H'. }
  rewrite S1. clear S1.
  pose proof (token _ (Kind BinaryLiteral)
                (@matchPrefixed_ok _ _ _)
                (@stable_prefixed 98 66 isBinary)) as S1.
  fold matchBinary in S1.
  destruct (matchBinary (m ++ z ++ w)) as [b|].
  { intros H. destruct (S1 H) as [-> H']. exact H'. }
  rewrite S1. clear S1.
  pose proof (token _ (Kind FloatLiteral) matchFloat_ok stable_float) as S1.
  destruct (matchFloat (m ++ z ++ w)) as [b|].
  { intros H. destruct (S1 H) as [-> H']. exact H'. }
  rewrite S1. clear S1.
  pose proof (token _ (Kind IntLiteral) matchInt_ok stable_int) as S1.
  destruct (matchInt (m ++ z ++ w)) as [b|].
  { intros H. destruct (S1 H) as [-> H']. exact H'. }
  rewrite S1. clear S1.
  destruct m as [|first m1]; [congruence|]. cbn [app].
  destruct ((first =? quote1)%N || (first =? quote2)%N).
  - change (eat 1 (first :: m1 ++ z ++ w)) with (m1 ++ z ++ w).
    change (eat 1 (first :: m1 ++ z)) with (m1 ++ z).
    intros H. pose proof (literal_read _ _ _ _ _ H) as R.
    destruct c as [tok| |e|]; [|destruct R|now destruct (Hf e)|congruence].
    destruct R as (consumed & txt & Ht & -> & _ & Hr).
    assert (Hc : consumed = m1).
    { rewrite !app_assoc in Ht. do 2 apply app_inv_tail in Ht. congruence. }
    subst consumed.
    rewrite (Hr (pre ++ first :: m1 ++ z) (length pre) z (length (m1 ++ z)))
      by (rewrite length_app; lia).
    do 3 f_equal.
    change (first :: m1 ++ z ++ w) with ((first :: m1) ++ z ++ w).
    change (first :: m1 ++ z) with ((first :: m1) ++ z).
    now rewrite !index_past.
  - pose proof (findOperator_cut operatorEntries (first :: m1 ++ z) w) as S1.
    change ((first :: m1 ++ z) ++ w) with (first :: (m1 ++ z) ++ w) in S1.
    rewrite <- app_assoc in S1.
    destruct (findOperator operatorEntries (first :: m1 ++ z ++ w))
      as [[b k]|] eqn:E.
    + intros H.
      apply findOperator_ok in E as (_ & Hb & _); [|reflexivity].
      change (first :: m1 ++ z ++ w) with ((first :: m1) ++ z ++ w) in *.
      change (first :: m1 ++ z) with ((first :: m1) ++ z) in *.
      assert (He : eat (length b) ((first :: m1) ++ z ++ w) = z ++ w)
        by (unfold lexeme in H; now injection H).
      pose proof (@eat_length b (first :: m1) (z ++ w) Hb He) as Hlen.
      rewrite S1 by (rewrite length_app; lia).
      now apply read.
    + intros [= <- _]. now destruct (Hf (mkLexerError "Unexpected character"
                                           (Some [first]) (length pre)
                                           (length pre + 1))).
Qed.

(** *** The error of a lexeme that cannot be read *)

Lemma round_abort_message source start str text e :
  round source start str text = Abort e ->
  In (lmessage e) literalMessages
  /\ (lmessage e = "Unterminated string literal"
      \/ lmessage e = "Unexpected end of escape" ->
      lstop e = length source).
Proof.
  unfold round.
  destruct text as [|char text1]; [discriminate|].
  destruct (char =? backslash)%N;
    [|destruct (match str ++ [char] with _ :: _ => _ | [] => _ end);
      discriminate].
  destruct text1 as [|escape text2].
  { intros [= <-]. cbn [lmessage lstop]. split; [simpl; tauto|].
    intros _. apply index_nil. }
  assert (other : forall msg stop,
             msg <> "Unterminated string literal" ->
             msg <> "Unexpected end of escape" ->
             In msg literalMessages ->
             Abort (mkLexerError msg None start stop) = Abort e ->
             In (lmessage e) literalMessages
             /\ (lmessage e = "Unterminated string literal"
                 \/ lmessage e = "Unexpected end of escape" ->
                 lstop e = length source)).
  { intros msg stop H1 H2 Hin [= <-]. cbn [lmessage lstop].
    split; [exact Hin | intros [H|H]; congruence]. }
  repeat (match goal with
          | |- context [if isUnit ?a escape then _ else _] =>
              destruct (isUnit a escape)
          end; try discriminate).
  - destruct (negb (isUpperHex 2 (firstn 2 text2))); [|discriminate].
    apply other; [discriminate | discriminate | simpl; tauto].
  - destruct (match text2 with next :: _ => _ | [] => _ end).
    + destruct (negb (endsWithUnit (throughCurly (eat 1 text2)) closeCurly)).
      * apply other; [discriminate | discriminate | simpl; tauto].
      * destruct (aboveUnicode _); [|discriminate].
        apply other; [discriminate | discriminate | simpl; tauto].
    + destruct (negb (isUpperHex 4 (firstn 4 text2))); [|discriminate].
      apply other; [discriminate | discriminate | simpl; tauto].
Qed.

Lemma literal_failed_message fuel : forall source start str text e text',
  literal fuel source start str text = (Failed e, text') ->
  In (lmessage e) literalMessages
  /\ (lmessage e = "Unterminated string literal"
      \/ lmessage e = "Unexpected end of escape" ->
      lstop e = length source).
Proof.
  induction fuel as [|fuel IH]; intros source start str text e text';
    destruct text as [|c text1]; cbn [literal];
    try (intros [= <- _]; cbn [lmessage lstop];
         split; [simpl; tauto | intros _; apply index_nil]);
    try discriminate.
  destruct (round source start str (c :: text1)) as [s' t'|s' t'|e'] eqn:Er.
  - apply IH.
  - discriminate.
  - intros [= <- _]. now apply round_abort_message in Er.
Qed.

(** The error of a text whose first lexeme cannot be read. *)
Lemma consume_failsAt rest e text' :
  rest <> [] -> consume rest rest = (Failed e, text') -> failsAt rest e.
Proof.
  intros Hne. unfold consume, lexeme. rewrite index_self.
  destruct (length rest <=? 0)%nat eqn:El.
  { apply Nat.leb_le in El. destruct rest; [congruence | simpl in El; lia]. }
  destruct (Lexer.orElse _ _); [discriminate|].
  destruct (matchIdentifier rest) as [m|];
    [destruct (inKeywords m); discriminate|].
  destruct (matchHex rest); [discriminate|].
  destruct (matchOctal rest); [discriminate|].
  destruct (matchBinary rest); [discriminate|].
  destruct (matchFloat rest); [discriminate|].
  destruct (matchInt rest); [discriminate|].
  destruct rest as [|first text1]; [congruence|].
  cbn [failsAt].
  destruct ((first =? quote1)%N || (first =? quote2)%N).
  - change (eat 1 (first :: text1)) with text1. intros H.
    pose proof (literal_failed_message _ _ _ _ _ H) as [Hm He].
    apply literal_failed in H.
    destruct H as (H1 & H2 & _ & x & H4 & H5).
    repeat split; try assumption.
    + rewrite H4. unfold index. cbn [length]. lia.
    + rewrite H4. unfold index. lia.
  - destruct (findOperator operatorEntries (first :: text1)) as [[m k]|];
      [discriminate|].
    now intros [= <- _].
Qed.

(** *** Where the token loop stops *)

(** The loop fails at the first lexeme of a part [rest] of the text;
    the part [mid] before it is read without error, also when the
    source ends with it. *)
Lemma loop_split fuel : forall pre text acc e,
  loop fuel (pre ++ text) text acc = LexError e ->
  exists mid rest ts text',
    text = mid ++ rest /\ rest <> []
    /\ consume (pre ++ text) rest = (Failed e, text')
    /\ forall fuel',
        length mid <= fuel' ->
        loop fuel' (pre ++ mid) mid acc = Tokens (acc ++ ts).
Proof.
  induction fuel as [|fuel IH]; intros pre text acc e; cbn [loop];
    rewrite index_app, length_app;
    destruct (length pre <? length pre + length text)%nat eqn:El;
    try discriminate.
  apply Nat.ltb_lt in El.
  pose proof (consume_ok pre text) as C. unfold consumeOk in C.
  destruct (consume (pre ++ text) text) as [c text'] eqn:Ec.
  cbn [fst snd] in C.
  assert (next : forall m mid f2,
             m <> [] -> length (m ++ mid) <= f2 ->
             exists f3,
               f2 = S f3 /\ length mid <= f3 /\
               (index (pre ++ m ++ mid) (m ++ mid)
                <? length (pre ++ m ++ mid))%nat = true).
  { intros m mid f2 Hm Hl. rewrite length_app in Hl.
    assert (0 < length m) by (destruct m; [congruence | simpl; lia]).
    destruct f2 as [|f3]; [lia|]. exists f3.
    repeat split; [lia|]. rewrite index_app, length_app.
    apply Nat.ltb_lt. rewrite length_app. lia. }
  destruct c as [t| |e'|]; [| | |discriminate].
  - destruct C as (m & Hm & Ht & _). subst text. intros H.
    rewrite app_assoc in H.
    destruct (IH _ _ _ _ H) as (mid & rest & ts & t2 & -> & Hr & Hc & Hk).
    rewrite <- app_assoc in Hc.
    exists (m ++ mid), rest, (t :: ts), t2.
    split; [now rewrite app_assoc|]. split; [exact Hr|].
    split; [exact Hc|]. intros f2 Hl.
    destruct (next m mid f2 Hm Hl) as (f3 & -> & Hl3 & Hi).
    cbn [loop]. rewrite Hi.
    rewrite (@consume_cut pre m mid rest (Tok t) Hm); try discriminate;
      [|exact Ec].
    rewrite app_assoc, (Hk f3 Hl3), <- app_assoc. reflexivity.
  - destruct C as (m & Hm & Ht). subst text. intros H.
    rewrite app_assoc in H.
    destruct (IH _ _ _ _ H) as (mid & rest & ts & t2 & -> & Hr & Hc & Hk).
    rewrite <- app_assoc in Hc.
    exists (m ++ mid), rest, ts, t2.
    split; [now rewrite app_assoc|]. split; [exact Hr|].
    split; [exact Hc|]. intros f2 Hl.
    destruct (next m mid f2 Hm Hl) as (f3 & -> & Hl3 & Hi).
    cbn [loop]. rewrite Hi.
    rewrite (@consume_cut pre m mid rest Skipped Hm); try discriminate;
      [|exact Ec].
    rewrite app_assoc. exact (Hk f3 Hl3).
  - intros [= <-]. exists [], text, [], text'.
    assert (Hne : text <> []) by (intros ->; simpl in El; lia).
    rewrite app_nil_r. repeat split; try assumption.
    intros fuel' _. rewrite app_nil_r. apply loop_end.
Qed.

(** A source that the lexer refuses is a part that it reads, followed
    by a part whose first lexeme cannot be read. *)
Lemma tokens_split source e :
  tokens source = LexError e ->
  exists before rest ts e0,
    source = before ++ rest
    /\ tokens before = Tokens ts
    /\ tokens rest = LexError e0
    /\ failsAt rest e0
    /\ e = shiftError (length before) e0.
Proof.
  unfold tokens. intros H.
  destruct (@loop_split (length source) [] source [] e H)
    as (mid & rest & ts & t2 & -> & Hr & Hc & Hk).
  cbn [app] in Hc, Hk.
  assert (H1 : loop 1 (mid ++ rest) rest [] = LexError e).
  { cbn [loop]. rewrite index_app, length_app.
    assert (Hi : (length mid <? length mid + length rest)%nat = true).
    { apply Nat.ltb_lt. destruct rest; [congruence | simpl; lia]. }
    now rewrite Hi, Hc. }
  rewrite loop_prefix in H1. cbn [loop] in H1. rewrite index_self in H1.
  destruct rest as [|c r]; [congruence|].
  change (0 <? length (c :: r))%nat with true in H1. cbv iota in H1.
  destruct (consume (c :: r) (c :: r)) as [[t| |e0|] t1] eqn:E0;
    try discriminate;
    try (destruct (index (c :: r) t1 <? length (c :: r))%nat; discriminate).
  injection H1 as <-.
  exists mid, (c :: r), ts, e0. repeat split.
  - apply (Hk (length mid) (le_n _)).
  - cbn [length loop]. rewrite index_self. cbn [Nat.ltb Nat.leb].
    now rewrite E0.
  - eapply consume_failsAt; [discriminate | exact E0].
Qed.

End CutFacts.

Module NodeFacts.

(** The span invariant of a tree is the invariant at each of the
    nodes contained in it. *)
Lemma spanInvariant_nodes : forall t,
  spanInvariant t = true -> forall n, In n (nodes t) -> spanned n = true.
Proof.
  fix IH 1. intros [k s e items] H n Hin.
  cbn [spanInvariant] in H.
  apply andb_true_iff in H as [H Hall].
  cbn [nodes] in Hin. destruct Hin as [<-|Hin].
  - exact H.
  - clear H. induction items as [|[tok|c] r IHr].
    + destruct Hin.
    + apply IHr; assumption.
    + apply andb_true_iff in Hall as [Hc Hr].
      apply in_app_or in Hin as [Hin|Hin].
      * exact (IH c Hc n Hin).
      * apply IHr; assumption.
Qed.

End NodeFacts.

Module AstFacts.
Import Parser ParserSpec ParserFacts ParserTermination SpanSpec SpanFacts.

(** What [ast] returns when it returns a tree: the tree of
    [parseBody], which left no token. *)
Lemma ast_tree fuel ts t s' :
  ast fuel (init ts) = Done (AstTree t) s' ->
  exists s1, parseBody fuel (init ts) = Done (Some t) s1 /\ tokens s1 = [].
Proof.
  unfold ast, bind. destruct (parseBody fuel (init ts)) as [r s1| |] eqn:E;
    try discriminate.
  destruct s1 as [tk st er]. unfold astResult. cbn [tokens error].
  destruct tk as [|token l].
  - destruct r as [t'|].
    + intros [= <- _]. eexists. now split.
    + destruct er; discriminate.
  - unfold bind, throw. cbn [error tokens stack].
    destruct er as [old|];
      [destruct (estart old <=? _)%nat|]; cbn [tokens error];
      destruct r; discriminate.
Qed.

End AstFacts.

Module FurtherFacts.

Import Lexer Parser LexerSpec ParserSpec LexerFacts ParserFacts.
Import ParserTermination LexerOrder UtilsFacts SpanSpec SpanFacts AstFacts.

Lemma scan_split index input : forall l c,
  Utils.scan index input l c
  = (fst (Utils.scan (length (firstn index input)) (firstn index input) l c),
     snd (Utils.scan (length (firstn index input)) (firstn index input) l c)
     + (index - length input)).
Proof.
  intros l c.
  rewrite <- (firstn_skipn index input) at 1.
  replace index with (length (firstn index input)
                      + (index - length (firstn index input))) at 1
    by (rewrite length_firstn; lia).
  rewrite scan_app.
  destruct (Nat.le_gt_cases index (length input)) as [Hle|Hgt].
  - replace (index - length (firstn index input)) with 0
      by (rewrite length_firstn; lia).
    replace (index - length input) with 0 by lia.
    cbn [Utils.scan]. now rewrite Nat.add_0_r.
  - rewrite skipn_all2 by lia. rewrite scan_past.
    rewrite length_firstn. f_equal. lia.
Qed.

Lemma filter_firstn_le {A} (p : A -> bool) n : forall l,
  length (filter p (firstn n l)) <= length (filter p l).
Proof.
  induction n as [|n IH]; intros [|x l]; cbn [firstn filter length];
    try lia.
  specialize (IH l). destruct (p x); cbn [length]; lia.
Qed.

Lemma scan_column index : forall input l c,
  1 <= c -> 1 <= snd (Utils.scan index input l c).
Proof.
  induction index as [|n IH]; intros input l c H; cbn [Utils.scan snd];
    [exact H|].
  destruct input as [|x r]; [apply IH; lia|].
  destruct (x =? 13)%N; [now apply IH|].
  destruct (x =? 10)%N; apply IH; lia.
Qed.

Lemma current_setCurrent c s : current (setCurrent c s) = c.
Proof. destruct s as [tks [|top stk] e]; reflexivity. Qed.

Lemma error_setCurrent c s : error (setCurrent c s) = error s.
Proof. destruct s as [tks [|top stk] e]; reflexivity. Qed.

Lemma parse_backtracked fuel p s s' :
  parse fuel p s = Done None s' ->
  Parser.tokens s' = Parser.tokens s /\ stack s' = stack s
  /\ error s' <> None.
Proof.
  intros H. apply parse_delivered in H.
  cbn [delivers] in H. destruct H as (e' & ->).
  repeat split. discriminate.
Qed.

Lemma parse_consumed fuel p s t s' :
  parse fuel p s = Done (Some t) s' ->
  (exists consumed,
      current s = consumed ++ current s'
      /\ (p <> ParseBody -> consumed <> []))
  /\ s' = setCurrent (current s')
            (mkState (Parser.tokens s) (stack s) (error s'))
  /\ Tree.start t = startOf s (current s)
  /\ Tree.stop t = startOf s (current s').
Proof.
  intros H. apply parse_delivered in H.
  cbn [delivers] in H.
  destruct H as (c' & e' & -> & [pre Hr] & Hl & Hs & He & _).
  rewrite current_setCurrent, error_setCurrent. cbn [error].
  repeat split; try assumption.
  exists pre. split; [exact Hr|]. intros Hp ->. specialize (Hl Hp).
  rewrite Hr in Hl. cbn [app] in Hl. lia.
Qed.

Lemma parse_spans fuel p s t s' :
  parse fuel p s = Done (Some t) s' ->
  ordered (Parser.tokens s) = true ->
  rest (current s) (Parser.tokens s) ->
  settled p (current s') = true ->
  spanInvariant t = true.
Proof.
  intros H Ho Hr Hs. apply parse_delivered in H.
  cbn [delivers] in H. destruct H as (c' & e' & -> & _ & _ & _ & _ & Hg).
  rewrite current_setCurrent in Hs. now apply Hg.
Qed.

Lemma ast_spans fuel ts t s' :
  ordered ts = true ->
  ast fuel (init ts) = Done (AstTree t) s' ->
  spanInvariant t = true.
Proof.
  intros Ho H.
  destruct (ast_tree _ _ H) as (s1 & Hb & _).
  apply (@parse_spans fuel ParseBody (init ts) t s1);
    try assumption; [apply rest_refl | reflexivity].
Qed.

Lemma ast_root fuel ts t s' :
  ast fuel (init ts) = Done (AstTree t) s' ->
  Tree.type t = Body
  /\ Tree.start t = match ts with
                    | first :: _ => start first
                    | [] => 0
                    end
  /\ Tree.stop t = match lastToken ts with
                   | Some l => start l
                   | None => 0
                   end.
Proof.
  intros H.
  destruct (ast_tree _ _ H) as (s1 & Hb & Ht).
  pose proof (@parse_builds _ _ _ _ _ Hb) as Hk. cbn [ofKind builds] in Hk.
  apply parse_delivered in Hb.
  cbn [delivers init Parser.tokens stack current] in Hb.
  destruct Hb as (c' & e' & -> & _ & _ & Hs & He & _).
  cbn in Ht. subst c'.
  repeat split; try assumption.
  rewrite Hs. destruct ts; reflexivity.
Qed.

Lemma spansWithin_length : forall ts lo hi,
  spansWithin lo hi ts = true -> lo + length ts <= hi.
Proof.
  induction ts as [|t r IH]; intros lo hi H; cbn [spansWithin] in H.
  - apply Nat.leb_le in H. cbn [length]. lia.
  - apply andb_true_iff in H as [H Hr].
    apply andb_true_iff in H as [Hl Hs].
    apply Nat.leb_le in Hl. apply Nat.ltb_lt in Hs.
    apply IH in Hr. cbn [length]. lia.
Qed.

Lemma skipn_prefix {A} (a b : list A) : skipn (length a) (a ++ b) = b.
Proof. now rewrite skipn_app, skipn_all, Nat.sub_diag. Qed.

Lemma takeWhile_stop p body : forall after,
  forallb p body = true ->
  match after with [] => true | c :: _ => negb (p c) end = true ->
  takeWhile p (body ++ after) = body.
Proof.
  induction body as [|c body IH]; intros after Hb Ha.
  - cbn [app]. destruct after as [|d after']; [reflexivity|].
    cbn [takeWhile]. apply negb_true_iff in Ha. now rewrite Ha.
  - cbn [forallb] in Hb. apply andb_true_iff in Hb as [Hc Hb].
    cbn [app takeWhile]. rewrite Hc. f_equal. now apply IH.
Qed.

End FurtherFacts.

(* ================================================================= *)
(** * The stated properties *)

Module Claims.

Import Lexer Parser LexerSpec ParserSpec LexerFacts ParserFacts.
Import ParserTermination.

(** C1.  Every node contained in a tree that parsing returns keeps
    the span invariant: its span starts no later than its first child
    starts, ends no earlier than its last child ends, and its
    children are in source order.  This holds of the trees that
    lexing and parsing a source return, whatever the source, and of
    the trees that [ast] returns for tokens in source order; both
    return for every input.  It holds in particular of every
    [TermExpression] contained in such a tree. *)
Theorem parse_result_keeps_span :
  (forall source fuel,
      need ParseBody (length source) <= fuel ->
      compile fuel source <> Unfinished
      /\ forall t n,
          compile fuel source = ParsedTree t -> In n (nodes t) ->
          spanned n = true)
  /\ (forall ts fuel,
      ordered ts = true ->
      need ParseBody (length ts) <= fuel ->
      exists a s',
        ast fuel (init ts) = Done a s' /\ a <> AstNull
        /\ forall t n,
            a = AstTree t -> In n (nodes t) -> spanned n = true).
Proof.
  split.
  - intros source fuel H. unfold compile.
    destruct (Lexer.tokens source) as [ts|e|] eqn:El.
    + assert (Hs := El). apply LexerOrder.tokens_spans in Hs.
      assert (Hl := Hs). apply FurtherFacts.spansWithin_length in Hl.
      assert (Hf : need ParseBody (length ts) <= fuel)
        by (unfold need in *; nia).
      destruct (ast_returns ts Hf) as (a & s' & E & Hn). rewrite E.
      split.
      * destruct a; [discriminate | discriminate | congruence].
      * intros t n Ht. destruct a as [t'|e|]; try discriminate.
        injection Ht as <-. apply NodeFacts.spanInvariant_nodes.
        eapply FurtherFacts.ast_spans; [|exact E].
        eapply SpanFacts.ordered_spans. exact Hs.
    + split; [discriminate | intros t n [=]].
    + now apply tokens_total in El.
  - intros ts fuel Ho H.
    destruct (ast_returns ts H) as (a & s' & E & Hn).
    exists a, s'. split; [exact E|]. split; [exact Hn|]. intros t n ->.
    apply NodeFacts.spanInvariant_nodes.
    eapply FurtherFacts.ast_spans; eassumption.
Qed.

Lemma parse_result_keeps_span_witness :
  (need ParseBody (length (js "a + b;")) <= 200
   /\ compile 200 (js "a + b;") = ParsedTree sumProgram
   /\ In sumTree (nodes sumProgram)
   /\ spanned sumTree = true)
  /\ (ordered sumTokens = true
      /\ need ParseBody (length sumTokens) <= 200
      /\ exists a s',
          ast 200 (init sumTokens) = Done a s' /\ a <> AstNull
          /\ forall t n,
              a = AstTree t -> In n (nodes t) -> spanned n = true).
Proof.
  split.
  - refine ((fun H1 H2 H3 =>
               conj H1 (conj H2 (conj H3
                 (proj2 (proj1 parse_result_keeps_span (js "a + b;") 200 H1)
                    sumProgram sumTree H2 H3)))) _ _ _).
    + apply Nat.leb_le. vm_compute. reflexivity.
    + vm_compute. reflexivity.
    + cbv [sumProgram fold_right nodes].
      repeat first [left; reflexivity | right].
  - refine ((fun H1 H2 =>
               conj H1 (conj H2
                 (proj2 parse_result_keeps_span sumTokens 200 H1 H2))) _ _).
    + reflexivity.
    + apply Nat.leb_le. vm_compute. reflexivity.
Defined.

(** A production on its own.  The tree that [parseTermExpression]
    returns for [a +] does not keep the span invariant: the operator
    is put among the children before the right-hand side is parsed,
    and stays there when that fails and the operator is given back to
    the cursor.  The node spans [0, 2) and its last child is the [+]
    token at [2, 3).  The sibling [parseShiftExpression], which pushes
    operator and operand together, keeps the invariant on [a <<]. *)
Theorem term_operator_outside_span : forall n,
  Lexer.tokens (js "a +") = Tokens danglingPlus /\
  exists lhs s,
    parseTermExpression (7 + n) (init danglingPlus)
    = Done (Some (mkTree TermExpression 0 2
                    [inr lhs; inl (mkToken (Kind PlusOperator) (js "+") 2 3)]))
           s
    /\ Parser.tokens s = [mkToken (Kind PlusOperator) (js "+") 2 3]
    /\ spanInvariant (mkTree TermExpression 0 2
                        [inr lhs;
                         inl (mkToken (Kind PlusOperator) (js "+") 2 3)])
       = false
    /\ exists t s',
        Lexer.tokens (js "a <<")
        = Tokens [ mkToken (Kind Identifier) (js "a") 0 1;
                   mkToken (Kind LeftShiftOperator) (js "<<") 2 4 ]
        /\ parse (8 + n) ParseShiftExpression
             (init [ mkToken (Kind Identifier) (js "a") 0 1;
                     mkToken (Kind LeftShiftOperator) (js "<<") 2 4 ])
           = Done (Some t) s'
        /\ length (Tree.items t) = 1 /\ spanInvariant t = true.
Proof.
  intros n. split; [reflexivity|].
  eexists. eexists. split; [|split; [|split]].
  - apply (@parse_mono 7 (7 + n) ParseTermExpression ltac:(lia)).
    vm_compute. reflexivity.
  - reflexivity.
  - vm_compute. reflexivity.
  - eexists. eexists. split; [reflexivity|]. split; [|split].
    + apply (@parse_mono 8 (8 + n) ParseShiftExpression ltac:(lia)).
      vm_compute. reflexivity.
    + reflexivity.
    + vm_compute. reflexivity.
Qed.

(** C2.  The literal with the escape [\u{1F600}] lexes to a
    [StringLiteral] whose text is the single code unit [0xF600]:
    [String.fromCharCode] keeps the low 16 bits of [0x1F600], so the
    text does not hold the code point [0x1F600].  The escape
    [\u{110000}] is refused with the out-of-range error. *)
Theorem unicode_escape_keeps_low_16_bits :
  Lexer.tokens (quoted "\u{1F600}")
  = Tokens [mkToken (Kind StringLiteral) [62976%N] 0 11]
  /\ parseInt16 (js "1F600") = Int 128512
  /\ fromCharCode (Int 128512) = 62976%N
  /\ codePoints [62976%N] = [62976%N]
  /\ codePoints [55357%N; 56832%N] = [128512%N]
  /\ ~ In 128512%N (codePoints [62976%N])
  /\ Lexer.tokens (quoted "\u{110000}")
     = LexError (mkLexerError "Out of range unicode escape sequence"
                   None 0 4).
Proof.
  repeat split; try reflexivity.
  intros [H|[]]. discriminate.
Qed.

(** C3.  A braced unicode escape written with lowercase hex digits is
    accepted: [\u{ab}] lexes to the code unit [0xAB].  Only the
    four-digit form tests its digits against [[0-9A-F]]: [\u00ab] is
    refused and [\u00AB] is read. *)
Theorem braced_escape_accepts_lowercase :
  Lexer.tokens (quoted "\u{ab}")
  = Tokens [mkToken (Kind StringLiteral) [171%N] 0 8]
  /\ Lexer.tokens (quoted "\u{1f600}")
     = Tokens [mkToken (Kind StringLiteral) [62976%N] 0 11]
  /\ Lexer.tokens (quoted "\u00ab")
     = LexError (mkLexerError
                   "Invalid or lowercase unicode escape sequence" None 0 3)
  /\ Lexer.tokens (quoted "\u00AB")
     = Tokens [mkToken (Kind StringLiteral) [171%N] 0 8].
Proof. repeat split; reflexivity. Qed.

(** C4, as stated, fails: for [a +] the body is parsed (it is empty),
    two tokens are left, and [ast] returns the error stored at the
    [+], not "Unexpected token" at [a]. *)
Lemma leftover_error_not_unexpected_token :
  ~ (forall fuel ts result s token rest,
        parseBody fuel (init ts) = Done result s ->
        Parser.tokens s = token :: rest ->
        exists s', ast fuel (init ts)
                   = Done (AstError (unexpected token)) s').
Proof.
  intros H.
  destruct (H 22 danglingPlus (Some (mkTree Body 0 0 []))
              (mkState danglingPlus []
                 (Some (mkParserError "Expected semicolon" None 2 3)))
              (mkToken (Kind Identifier) (js "a") 0 1)
              [mkToken (Kind PlusOperator) (js "+") 2 3])
    as [s' E]; [vm_compute; reflexivity | reflexivity |].
  vm_compute in E. discriminate.
Qed.

(** C4, amended.  When [parseBody] leaves tokens in the root cursor,
    [ast] returns the "Unexpected token" error of the first of them
    if the error slot is empty or holds an error that starts no later
    than that token; otherwise it returns the error in the slot. *)
Theorem leftover_error : forall fuel ts result s token rest,
  parseBody fuel (init ts) = Done result s ->
  Parser.tokens s = token :: rest ->
  exists s',
    ast fuel (init ts)
    = Done (AstError
              match error s with
              | None => unexpected token
              | Some old =>
                  if (estart old <=? start token)%nat
                  then unexpected token else old
              end) s'.
Proof.
  intros fuel ts result s token rest Hb Ht.
  destruct (astResult_leftover result _ Ht) as (s' & E & _).
  exists s'. unfold ast, bind. rewrite Hb, E. unfold stored.
  destruct (error s) as [old|]; [|reflexivity].
  change (estart (unexpected token)) with (start token).
  destruct (estart old <=? start token)%nat; reflexivity.
Qed.

Lemma leftover_error_witness :
  parseBody 22 (init danglingPlus)
  = Done (Some (mkTree Body 0 0 []))
         (mkState danglingPlus []
            (Some (mkParserError "Expected semicolon" None 2 3)))
  /\ exists s',
      ast 22 (init danglingPlus)
      = Done (AstError (mkParserError "Expected semicolon" None 2 3)) s'.
Proof.
  split; [vm_compute; reflexivity|].
  exact (@leftover_error 22 danglingPlus (Some (mkTree Body 0 0 []))
           (mkState danglingPlus []
              (Some (mkParserError "Expected semicolon" None 2 3)))
           (mkToken (Kind Identifier) (js "a") 0 1)
           [mkToken (Kind PlusOperator) (js "+") 2 3]
           ltac:(vm_compute; reflexivity) eq_refl).
Defined.

(** C5.  [throw] replaces the stored error exactly when the slot is
    empty or the new error starts no earlier than the stored one; no
    other operation writes the slot, so every production leaves it
    alone or leaves in it an error that starts no earlier. *)
Theorem furthest_error_slot :
  (forall A e b s (a : option A) s',
      throw e b s = Done a s' ->
      error s' = match error s with
                 | None => Some e
                 | Some old =>
                     if (estart old <=? estart e)%nat
                     then Some e else Some old
                 end)
  /\ (forall s a s', push s = Done a s' -> error s' = error s)
  /\ (forall b s a s', pop b s = Done a s' -> error s' = error s)
  /\ (forall k s a s', consume k s = Done a s' -> error s' = error s)
  /\ (forall k items b s a s',
         tree k items b s = Done a s' -> error s' = error s)
  /\ (forall fuel p s r s',
         parse fuel p s = Done r s' ->
         error s' = error s
         \/ exists e',
             error s' = Some e' /\
             forall e, error s = Some e -> estart e <= estart e').
Proof.
  split; [intros A e b s a s' H; exact (throw_error _ _ _ H)|].
  split; [exact push_error|].
  split; [exact pop_error|].
  split; [exact consume_error|].
  split; [exact tree_error|].
  intros fuel p s r s' H.
  destruct (@parse_respects fuel p _ _ _ H) as [E | (e' & E & _ & Hle)]; eauto.
Qed.

Lemma furthest_error_slot_witness :
  parse 22 ParseStatement
    (mkState danglingPlus []
       (Some (mkParserError "Expected statement" None 0 1)))
  = Done None
         (mkState danglingPlus []
            (Some (mkParserError "Expected semicolon" None 2 3)))
  /\ (Some (mkParserError "Expected semicolon" None 2 3)
      = Some (mkParserError "Expected statement" None 0 1)
      \/ exists e',
          Some (mkParserError "Expected semicolon" None 2 3) = Some e' /\
          forall e, Some (mkParserError "Expected statement" None 0 1)
                    = Some e -> estart e <= estart e').
Proof.
  split; [vm_compute; reflexivity|].
  exact (proj2 (proj2 (proj2 (proj2 (proj2 furthest_error_slot))))
           22 ParseStatement
           (mkState danglingPlus []
              (Some (mkParserError "Expected statement" None 0 1)))
           None
           (mkState danglingPlus []
              (Some (mkParserError "Expected semicolon" None 2 3)))
           ltac:(vm_compute; reflexivity)).
Defined.

(** C6.  Every token of a lexed source spans the slice of the source
    it was made from: the slice is the token's text, except for a
    [StringLiteral], where the slice is the literal between its two
    quotes and the text is what the lexer decodes from that slice. *)
Theorem token_spans_its_lexeme : forall source ts t,
  Lexer.tokens source = Tokens ts -> In t ts ->
  (type t <> Kind StringLiteral ->
   slice (start t) (stop t) source = text t)
  /\ (type t = Kind StringLiteral ->
      exists q body,
        (q = quote1 \/ q = quote2) /\
        slice (start t) (stop t) source = q :: body ++ [q] /\
        Lexer.tokens (slice (start t) (stop t) source)
        = Tokens [mkToken (Kind StringLiteral) (text t) 0
                    (length (slice (start t) (stop t) source))]).
Proof.
  intros source ts t Hlex Hin.
  pose proof (tokens_lexemeAt _ Hlex) as Hall.
  rewrite Forall_forall in Hall. specialize (Hall _ Hin).
  unfold lexemeAt, madeFrom in Hall.
  destruct Hall as [[Hk Ht] | [Hk Hs]]; split; intros H;
    try congruence; assumption.
Qed.

Lemma token_spans_its_lexeme_witness :
  Lexer.tokens (js "x = 'a\n';")
  = Tokens [ mkToken (Kind Identifier) (js "x") 0 1;
             mkToken (Kind AssignOperator) (js "=") 2 3;
             mkToken (Kind StringLiteral) [97%N; 10%N] 4 9;
             mkToken (Kind SemicolonPunctuator) (js ";") 9 10 ]
  /\ (slice 0 1 (js "x = 'a\n';") = js "x")
  /\ exists q body,
      (q = quote1 \/ q = quote2) /\
      slice 4 9 (js "x = 'a\n';") = q :: body ++ [q] /\
      Lexer.tokens (slice 4 9 (js "x = 'a\n';"))
      = Tokens [mkToken (Kind StringLiteral) [97%N; 10%N] 0
                  (length (slice 4 9 (js "x = 'a\n';")))].
Proof.
  split; [reflexivity|]. split.
  - refine (proj1 (@token_spans_its_lexeme (js "x = 'a\n';") _
                     (mkToken (Kind Identifier) (js "x") 0 1)
                     eq_refl _) _).
    + simpl. tauto.
    + discriminate.
  - refine (proj2 (@token_spans_its_lexeme (js "x = 'a\n';") _
                     (mkToken (Kind StringLiteral) [97%N; 10%N] 4 9)
                     eq_refl _) eq_refl).
    simpl. tauto.
Defined.

(** C7.  [a = b;] parses, to an assignment of one ternary expression
    to another; [a = b = c;] does not: the right-hand side stops
    before the second [=], where a semicolon is missing.  An
    assignment expression never has more than one operator, and both
    its operands are ternary expressions. *)
Theorem assignment_does_not_chain :
  (forall n,
      exists t a lhs rhs,
        compile (22 + n) (js "a = b;") = ParsedTree t /\
        descend 4 t = Some a /\
        a = mkTree AssignmentExpression 0 5
              [inr lhs; inl (mkToken (Kind AssignOperator) (js "=") 2 3);
               inr rhs])
  /\ (forall n,
         compile (22 + n) (js "a = b = c;")
         = ParseFailed (mkParserError "Expected semicolon" None 6 7))
  /\ (forall fuel s t s',
         parseAssignmentExpression fuel s = Done (Some t) s' ->
         assignmentShape t).
Proof.
  split; [|split].
  - intros n. do 4 eexists.
    rewrite (@compile_mono 22 (22 + n) (js "a = b;") ltac:(lia));
      [|vm_compute; discriminate].
    split; [vm_compute; reflexivity|]. split; vm_compute; reflexivity.
  - intros n.
    rewrite (@compile_mono 22 (22 + n) (js "a = b = c;") ltac:(lia));
      [|vm_compute; discriminate].
    vm_compute. reflexivity.
  - intros fuel s t s' H.
    exact (@parseAssignmentExpression_shape fuel _ _ _ H t eq_refl).
Qed.

Lemma assignment_does_not_chain_witness :
  exists t s',
    parseAssignmentExpression 21
      (init [ mkToken (Kind Identifier) (js "a") 0 1;
              mkToken (Kind AssignOperator) (js "=") 2 3;
              mkToken (Kind Identifier) (js "b") 4 5;
              mkToken (Kind AssignOperator) (js "=") 6 7;
              mkToken (Kind Identifier) (js "c") 8 9 ])
    = Done (Some t) s'
    /\ length (Parser.tokens s') = 2
    /\ assignmentShape t.
Proof.
  eexists. eexists.
  split; [vm_compute; reflexivity|].
  split; [vm_compute; reflexivity|].
  eapply (proj2 (proj2 assignment_does_not_chain) 21
            (init [ mkToken (Kind Identifier) (js "a") 0 1;
                    mkToken (Kind AssignOperator) (js "=") 2 3;
                    mkToken (Kind Identifier) (js "b") 4 5;
                    mkToken (Kind AssignOperator) (js "=") 6 7;
                    mkToken (Kind Identifier) (js "c") 8 9 ])).
  vm_compute. reflexivity.
Defined.

(** C8.  [parseBody] always returns, and what it returns is a tree, so
    the branch of [parseMatchStatement] that reports "Expected match
    options or fallback" is never taken: no production ever stores that
    message.  A match statement without options and with an empty body
    parses, its fallback being an empty [Body]. *)
Theorem match_fallback_always_parses :
  (forall s, exists fuel,
      forall fuel', fuel <= fuel' ->
                    exists body s', parseBody fuel' s = Done (Some body) s')
  /\ (forall fuel s r s', parseBody fuel s = Done r s' -> r <> None)
  /\ (forall fuel p s r s',
         parse fuel p s = Done r s' ->
         (forall e, error s = Some e -> message e <> dead) ->
         forall e, error s' = Some e -> message e <> dead)
  /\ (forall fuel ts a s',
         ast fuel (init ts) = Done a s' ->
         forall e, a = AstError e -> message e <> dead)
  /\ (forall n,
         exists value,
           compile (25 + n) (js "match (n) { }")
           = ParsedTree
               (mkTree Body 0 12
                  [inr (mkTree Statement 0 12
                          [inr (mkTree MatchStatement 0 12
                                  [inr value;
                                   inr (mkTree Body 12 12 [])])])])
           /\ Tree.type value = ExpressionSequence).
Proof.
  assert (keeps : forall s s',
             furthest s s' ->
             (forall e, error s = Some e -> message e <> dead) ->
             forall e, error s' = Some e -> message e <> dead).
  { intros s s' [E | (e' & E & L & _)] Hs e He.
    - apply Hs. congruence.
    - assert (e = e') by congruence. subst e'. unfold live in L.
      intros C. rewrite C, String.eqb_refl in L. discriminate. }
  split; [|split; [|split; [|split]]].
  - intros s. destruct (parse_returns ParseBody s) as [fuel Hf].
    exists fuel. intros fuel' Hle. destruct (Hf fuel' Hle) as (r & s' & E).
    pose proof (@parseBody_returns fuel' _ _ _ E) as Hr.
    destruct r as [body|]; [eauto | congruence].
  - intros fuel s r s' H. exact (@parseBody_returns fuel _ _ _ H).
  - intros fuel p s r s' H. apply keeps.
    exact (@parse_respects fuel p _ _ _ H).
  - intros fuel ts a s' H e ->.
    pose proof (@respects_ast fuel _ _ _ H) as F.
    assert (Es : error s' = Some e).
    { unfold ast in H. apply bind_Done in H as (r & s1 & _ & H).
      unfold astResult in H. destruct (Parser.tokens s1) as [|tok rest].
      - injection H as H <-. destruct r; destruct (error s1); congruence.
      - apply bind_Done in H as (x & s2 & _ & H). injection H as H <-.
        destruct r; destruct (Parser.tokens s2); destruct (error s2);
          congruence. }
    apply (keeps _ _ F); [discriminate | exact Es].
  - intros n. eexists.
    rewrite (@compile_mono 25 (25 + n) (js "match (n) { }") ltac:(lia));
      [|vm_compute; discriminate].
    split; vm_compute; reflexivity.
Qed.

Lemma match_fallback_always_parses_witness :
  parseBody 22 (init danglingPlus)
  = Done (Some (mkTree Body 0 0 []))
         (mkState danglingPlus []
            (Some (mkParserError "Expected semicolon" None 2 3)))
  /\ Some (mkTree Body 0 0 []) <> None
  /\ "Expected semicolon" <> dead.
Proof.
  split; [vm_compute; reflexivity|]. split.
  - exact (proj1 (proj2 match_fallback_always_parses) 22 (init danglingPlus)
             (Some (mkTree Body 0 0 []))
             (mkState danglingPlus []
                (Some (mkParserError "Expected semicolon" None 2 3)))
             ltac:(vm_compute; reflexivity)).
  - exact (proj1 (proj2 (proj2 match_fallback_always_parses)) 22 ParseBody
             (init danglingPlus) (Some (mkTree Body 0 0 []))
             (mkState danglingPlus []
                (Some (mkParserError "Expected semicolon" None 2 3)))
             ltac:(vm_compute; reflexivity) ltac:(discriminate)
             (mkParserError "Expected semicolon" None 2 3) eq_refl).
Defined.

(** C9.  Inside a literal, a backslash followed by [n], [r], [f],
    [v], [t], [b] or [0] appends the control character of that name,
    [\x1F] appends the unit [0x1F], and [\xff] is refused. *)
Theorem simple_escapes_decode :
  (forall source start str rest,
      round source start str (backslash :: code "n" :: rest)
      = Continue (str ++ [10%N]) rest
      /\ round source start str (backslash :: code "r" :: rest)
         = Continue (str ++ [13%N]) rest
      /\ round source start str (backslash :: code "f" :: rest)
         = Continue (str ++ [12%N]) rest
      /\ round source start str (backslash :: code "v" :: rest)
         = Continue (str ++ [11%N]) rest
      /\ round source start str (backslash :: code "t" :: rest)
         = Continue (str ++ [9%N]) rest
      /\ round source start str (backslash :: code "b" :: rest)
         = Continue (str ++ [8%N]) rest
      /\ round source start str (backslash :: code "0" :: rest)
         = Continue (str ++ [0%N]) rest
      /\ round source start str
           (backslash :: code "x" :: code "1" :: code "F" :: rest)
         = Continue (str ++ [31%N]) rest
      /\ round source start str
           (backslash :: code "x" :: code "f" :: code "f" :: rest)
         = Abort (mkLexerError
                    "Invalid or lowercase hexadecimal escape sequence"
                    None start
                    (index source (code "f" :: code "f" :: rest))))
  /\ Lexer.tokens (quoted "\n\r\f\v\t\b\0")
     = Tokens [mkToken (Kind StringLiteral)
                 [10%N; 13%N; 12%N; 11%N; 9%N; 8%N; 0%N] 0 16]
  /\ Lexer.tokens (quoted "\x1F")
     = Tokens [mkToken (Kind StringLiteral) [31%N] 0 6]
  /\ Lexer.tokens (quoted "\xff")
     = LexError (mkLexerError
                   "Invalid or lowercase hexadecimal escape sequence"
                   None 0 3).
Proof.
  split; [|repeat split; reflexivity].
  intros source start str rest. repeat split; reflexivity.
Qed.

(** C10.  On every token sequence [parseBody] returns a tree, and
    [ast] returns an error exactly when tokens are left in the root
    cursor after it; otherwise it returns the body.  For no tokens at
    all it returns an empty [Body] that starts and stops at 0. *)
Theorem ast_fails_iff_tokens_left :
  (forall ts, exists fuel,
      forall fuel', fuel <= fuel' ->
                    exists body s a s',
                      parseBody fuel' (init ts) = Done (Some body) s /\
                      ast fuel' (init ts) = Done a s' /\ a <> AstNull)
  /\ (forall fuel ts r s,
      parseBody fuel (init ts) = Done r s ->
      exists body a s',
        r = Some body /\
        ast fuel (init ts) = Done a s' /\
        ((exists e, a = AstError e) <-> Parser.tokens s <> []) /\
        (Parser.tokens s = [] -> a = AstTree body))
  /\ (forall n,
         exists s',
           ast (22 + n) (init []) = Done (AstTree (mkTree Body 0 0 [])) s').
Proof.
  split; [|split].
  - intros ts. exists (need ParseBody (length ts)). intros fuel' Hle.
    destruct (parseBody_finishes ts Hle) as (body & l & e & E & _).
    destruct (ast_returns ts Hle) as (a & s' & Ea & Hn).
    exists body, (mkState l [] e), a, s'. auto.
  - intros fuel ts r s H.
    pose proof (@parseBody_returns fuel _ _ _ H) as Hr.
    destruct r as [body|]; [|congruence]. exists body.
    destruct (Parser.tokens s) as [|token rest] eqn:Et.
    + exists (AstTree body), s. split; [reflexivity|].
      split; [unfold ast, bind; rewrite H; now apply astResult_consumed|].
      split; [|reflexivity].
      split; [intros [e [=]] | congruence].
    + destruct (astResult_leftover (Some body) _ Et) as (s' & E & _).
      unfold stored in E.
      eexists. exists s'. split; [reflexivity|].
      split; [unfold ast, bind; rewrite H; exact E|].
      split; [|discriminate].
      split; [discriminate|]. intros _.
      destruct (error s) as [old|];
        [destruct (estart old <=? estart (unexpected token))%nat|];
        eauto.
  - intros n. eexists.
    apply (@ast_mono 22 (22 + n) ltac:(lia)). vm_compute. reflexivity.
Qed.

Lemma ast_fails_iff_tokens_left_witness :
  parseBody 22 (init [mkToken (Kind CloseParenthesis) (js ")") 0 1])
  = Done (Some (mkTree Body 0 0 []))
         (mkState [mkToken (Kind CloseParenthesis) (js ")") 0 1] []
            (Some (mkParserError "Expected statement" None 0 1)))
  /\ exists body a s',
      Some (mkTree Body 0 0 []) = Some body /\
      ast 22 (init [mkToken (Kind CloseParenthesis) (js ")") 0 1])
      = Done a s' /\
      ((exists e, a = AstError e)
       <-> [mkToken (Kind CloseParenthesis) (js ")") 0 1] <> []) /\
      ([mkToken (Kind CloseParenthesis) (js ")") 0 1] = [] ->
       a = AstTree body).
Proof.
  refine ((fun H => conj H
             (proj1 (proj2 ast_fails_iff_tokens_left) _ _ _ _ H)) _).
  vm_compute. reflexivity.
Defined.

End Claims.

(* ================================================================= *)
(** * Further properties of the lexer, the utilities and the parser *)

Module Further.

Import Lexer Parser LexerSpec ParserSpec LexerFacts ParserFacts.
Import ParserTermination JsStringFacts.
Import LexerOrder OperatorFacts IdentifierFacts LexerLoop EscapeFacts.
Import LiteralFacts ShiftFacts CommentFacts CutFacts UtilsFacts SpanSpec.
Import SpanFacts AstFacts FurtherFacts.

(** ** The lexer *)

(** X1.  The lexer returns for every source, and the tokens it gives
    lie in the source one after another: none is empty, none starts
    before the one before it ends, and the last one ends within the
    source. *)
Theorem tokens_in_order : forall source,
  Lexer.tokens source <> LexStuck
  /\ forall ts,
      Lexer.tokens source = Tokens ts ->
      spansWithin 0 (length source) ts = true.
Proof.
  intros source. split; [apply tokens_total | apply tokens_spans].
Qed.

Lemma tokens_in_order_witness :
  Lexer.tokens (js "a <<= 'b'")
  = Tokens [ mkToken (Kind Identifier) (js "a") 0 1;
             mkToken (Kind LeftShiftAssignOperator) (js "<<=") 2 5;
             mkToken (Kind StringLiteral) (js "b") 6 9 ]
  /\ spansWithin 0 9
       [ mkToken (Kind Identifier) (js "a") 0 1;
         mkToken (Kind LeftShiftAssignOperator) (js "<<=") 2 5;
         mkToken (Kind StringLiteral) (js "b") 6 9 ] = true.
Proof.
  refine ((fun H => conj H
             (proj2 (tokens_in_order (js "a <<= 'b'")) _ H)) _).
  vm_compute. reflexivity.
Defined.

(** X2.  The operator that [find] picks from the table is the longest
    entry the text starts with: the order of the table never lets a
    shorter operator hide a longer one. *)
Theorem operator_longest_match : forall input m k n' k',
  findOperator operatorEntries input = Some (m, k) ->
  In (n', k') operatorEntries ->
  startsWith input (js n') = true ->
  length (js n') <= length m.
Proof.
  intros input m k n' k' Hf Hin Hs.
  eapply (@findOperator_longest operatorEntries); try eassumption.
  vm_compute. reflexivity.
Qed.

Lemma operator_longest_match_witness :
  findOperator operatorEntries (js ">>>= 1")
  = Some (js ">>>=", UnsignedRightShiftAssignOperator)
  /\ In (">>", RightShiftOperator) operatorEntries
  /\ startsWith (js ">>>= 1") (js ">>") = true
  /\ length (js ">>") <= length (js ">>>=").
Proof.
  refine ((fun H1 H2 H3 =>
             conj H1 (conj H2 (conj H3
               (@operator_longest_match (js ">>>= 1") _ _ ">>"
                  RightShiftOperator H1 H2 H3)))) _ _ _).
  - vm_compute. reflexivity.
  - simpl. tauto.
  - vm_compute. reflexivity.
Defined.

(** X3.  The identifier expression matches exactly the longest prefix
    that is a letter followed by letters, digits and underscores in
    which every underscore is followed by a letter or a digit: an
    identifier never ends in an underscore and never holds two in a
    row. *)
Theorem identifier_shape : forall input m,
  matchIdentifier input = Some m <->
  exists c tail after,
    input = m ++ after /\ m = c :: tail /\ isAlpha c = true /\
    underscoresJoin tail /\ endsWord after.
Proof.
  intros input m. unfold matchIdentifier. split.
  - destruct input as [|c r]; [discriminate|].
    destruct (isAlpha c) eqn:Ec; [|discriminate].
    intros [= <-].
    exists c, (identifierTail r), (skipn (length (identifierTail r)) r).
    repeat split; try assumption.
    + cbn [app]. f_equal. apply identifierTail_begins.
    + apply identifierTail_join.
    + apply identifierTail_join.
    + apply identifierTail_stops.
  - intros (c & tail & after & -> & -> & Hc & Hj & He).
    cbn [app]. rewrite Hc. f_equal. f_equal.
    now apply identifierTail_whole.
Qed.



(** X5.  The text of a token of a fixed kind is a spelling of that
    kind in the table of keywords or of operators, and a token of kind
    [Identifier] never spells a keyword: a word is a keyword or an
    identifier by its whole text. *)
Theorem token_kind_matches_text : forall source ts t,
  Lexer.tokens source = Tokens ts -> In t ts -> wellSpelled t.
Proof.
  intros source ts t H Hin.
  assert (Hall : Forall wellSpelled ts).
  { eapply (@loop_Forall wellSpelled source); [|constructor|exact H].
    intros ? ? ?. apply consume_wellSpelled. }
  rewrite Forall_forall in Hall. now apply Hall.
Qed.

Lemma token_kind_matches_text_witness :
  Lexer.tokens (js "iffy if")
  = Tokens [ mkToken (Kind Identifier) (js "iffy") 0 4;
             mkToken (Kind IfKeyword) (js "if") 5 7 ]
  /\ In (mkToken (Kind IfKeyword) (js "if") 5 7)
        [ mkToken (Kind Identifier) (js "iffy") 0 4;
          mkToken (Kind IfKeyword) (js "if") 5 7 ]
  /\ wellSpelled (mkToken (Kind IfKeyword) (js "if") 5 7).
Proof.
  refine ((fun H1 H2 =>
             conj H1 (conj H2
               (@token_kind_matches_text (js "iffy if") _ _ H1 H2))) _ _).
  - vm_compute. reflexivity.
  - right. left. reflexivity.
Defined.

(** X6.  A source that the lexer refuses splits in two at the start
    of the error.  The part before it lexes without error on its own;
    the rest fails at its first lexeme, and the error is the one of
    the rest moved right by the length of the first part.  When the
    rest begins with a quote, the error has no content, one of the
    five messages of the literal loop, and ends within the source, at
    its end when the literal or an escape is cut off by it; otherwise
    the error is [Unexpected character], and spans and holds the
    first character of the rest.  [Unexpected end of file] is never
    returned. *)
Theorem lexer_error_located : forall source e,
  Lexer.tokens source = LexError e ->
  exists before rest ts e0,
    source = before ++ rest
    /\ lstart e = length before
    /\ Lexer.tokens before = Tokens ts
    /\ Lexer.tokens rest = LexError e0
    /\ failsAt rest e0
    /\ e = shiftError (length before) e0.
Proof.
  intros source e H.
  destruct (@tokens_split source e H)
    as (before & rest & ts & e0 & Hs & Hb & Hr & Hf & He).
  exists before, rest, ts, e0.
  split; [exact Hs|]. split; [|now repeat split].
  subst e. cbn [shiftError lstart].
  destruct rest as [|c r]; [destruct Hf|]. cbn [failsAt] in Hf.
  destruct ((c =? quote1)%N || (c =? quote2)%N).
  - destruct Hf as (-> & _). lia.
  - subst e0. cbn [lstart]. lia.
Qed.

Lemma lexer_error_located_witness :
  Lexer.tokens (js "a = 'b")
  = LexError (mkLexerError "Unterminated string literal" None 4 6)
  /\ exists before rest ts e0,
      js "a = 'b" = before ++ rest
      /\ 4 = length before
      /\ Lexer.tokens before = Tokens ts
      /\ Lexer.tokens rest = LexError e0
      /\ failsAt rest e0
      /\ mkLexerError "Unterminated string literal" None 4 6
         = shiftError (length before) e0.
Proof.
  refine ((fun H => conj H (@lexer_error_located (js "a = 'b") _ H)) _).
  vm_compute. reflexivity.
Defined.

(** X7.  Every keyword and every operator of the two tables, lexed on
    its own, gives one token of its own kind that spans it: no entry
    is hidden by another entry or by another rule of the lexer. *)
Theorem table_entries_lex_to_themselves : forall n k,
  In (n, k) (keywords ++ operatorEntries) ->
  Lexer.tokens (js n) = Tokens [spelled n k].
Proof.
  intros n k H. apply in_app_or in H as [H|H].
  - pose proof keywords_spelled as F. rewrite Forall_forall in F.
    exact (F _ H).
  - pose proof operators_spelled as F. rewrite Forall_forall in F.
    exact (F _ H).
Qed.

Lemma table_entries_lex_to_themselves_witness :
  In (">>>=", UnsignedRightShiftAssignOperator) (keywords ++ operatorEntries)
  /\ Lexer.tokens (js ">>>=")
     = Tokens [spelled ">>>=" UnsignedRightShiftAssignOperator].
Proof.
  refine ((fun H => conj H (@table_entries_lex_to_themselves _ _ H)) _).
  apply in_or_app. right. simpl. tauto.
Defined.

(** X8.  Inside a literal, a code unit written as a backslash, [u]
    and its four uppercase hexadecimal digits is read back as that
    code unit. *)
Theorem unicode_escape_round_trip : forall n source from str after,
  (n < 65536)%N ->
  round source from str (backslash :: code "u" :: hexDigits 4 n ++ after)
  = Continue (str ++ [n]) after.
Proof.
  intros n source from str after H.
  rewrite round_unicode4.
  - rewrite radix16_hexDigits; [reflexivity | exact H].
  - unfold isUpperHex. rewrite hexDigits_length, hexDigits_upper.
    reflexivity.
Qed.

Lemma unicode_escape_round_trip_witness :
  (43981 < 65536)%N
  /\ round [] 0 [] (backslash :: code "u" :: js "ABCD" ++ js "'")
     = Continue [43981%N] (js "'").
Proof.
  refine ((fun H => conj H
             (@unicode_escape_round_trip 43981 [] 0 [] (js "'") H)) _).
  reflexivity.
Defined.

(** X9.  Inside a literal, a code unit below 256 written as a
    backslash, [x] and its two uppercase hexadecimal digits is read
    back as that code unit. *)
Theorem hex_escape_round_trip : forall n source from str after,
  (n < 256)%N ->
  round source from str (backslash :: code "x" :: hexDigits 2 n ++ after)
  = Continue (str ++ [n]) after.
Proof.
  intros n source from str after H.
  rewrite round_hex2.
  - rewrite radix16_hexDigits; [reflexivity | exact H].
  - unfold isUpperHex. rewrite hexDigits_length, hexDigits_upper.
    reflexivity.
Qed.

Lemma hex_escape_round_trip_witness :
  (127 < 256)%N
  /\ round [] 0 [] (backslash :: code "x" :: js "7F" ++ js "'")
     = Continue [127%N] (js "'").
Proof.
  refine ((fun H => conj H
             (@hex_escape_round_trip 127 [] 0 [] (js "'") H)) _).
  reflexivity.
Defined.

(** X10.  A braced unicode escape of one to thirteen hexadecimal
    digits, of either case, is refused when the number they spell is
    above [0x10FFFF]; otherwise it appends one code unit, that number
    modulo 65536. *)
Theorem braced_escape_value : forall ds source from str after,
  ds <> [] -> forallb isHexAny ds = true -> length ds <= 13 ->
  round source from str
    (backslash :: code "u" :: openCurly :: ds ++ closeCurly :: after)
  = if (1114111 <? radix16 ds)%N
    then Abort (mkLexerError "Out of range unicode escape sequence" None
                  from (Lexer.index source (ds ++ closeCurly :: after)))
    else Continue (str ++ [(radix16 ds mod 65536)%N]) after.
Proof. intros. now apply round_braced. Qed.

Lemma braced_escape_value_witness :
  js "1f600" <> [] /\ forallb isHexAny (js "1f600") = true
  /\ length (js "1f600") <= 13
  /\ round [] 0 []
       (backslash :: code "u" :: openCurly :: js "1f600"
          ++ closeCurly :: js "'")
     = Continue [62976%N] (js "'").
Proof.
  refine ((fun H1 H2 H3 =>
             conj H1 (conj H2 (conj H3
               (@braced_escape_value (js "1f600") [] 0 [] (js "'")
                  H1 H2 H3)))) _ _ _).
  - discriminate.
  - reflexivity.
  - simpl. lia.
Defined.

(** X11.  Every string of code units can be written as a literal and
    is read back: between two quotes of either kind, each code unit as
    it is, or as an escape of four digits when it is a backslash or
    the quote, lexes to one [StringLiteral] whose text is the
    string. *)
Theorem literal_round_trip : forall q s,
  q = quote1 \/ q = quote2 ->
  forallb (fun c => (c <? 65536)%N) s = true ->
  Lexer.tokens (q :: flat_map (written q) s ++ [q])
  = Tokens [mkToken (Kind StringLiteral) s 0
              (length (q :: flat_map (written q) s ++ [q]))].
Proof.
  intros q s Hq Hs.
  set (parts := map (fun c => (written q c, [c])) s
                : list (JsString.t * JsString.t)).
  assert (E1 : flat_map fst parts = flat_map (written q) s).
  { subst parts. clear. induction s as [|c s IH]; [reflexivity|].
    cbn [map flat_map fst]. now rewrite IH. }
  assert (E2 : flat_map snd parts = s).
  { subst parts. clear. induction s as [|c s IH]; [reflexivity|].
    cbn [map flat_map snd app]. now rewrite IH. }
  rewrite <- E2 at 2. rewrite <- E1. apply tokens_parts; [exact Hq|].
  apply Forall_forall. intros p Hp. subst parts.
  apply in_map_iff in Hp as (c & <- & Hc).
  cbn [fst snd]. apply readsAs_written.
  rewrite forallb_forall in Hs. apply N.ltb_lt. now apply Hs.
Qed.

Lemma literal_round_trip_witness :
  (quote2 = quote1 \/ quote2 = quote2)
  /\ forallb (fun c => (c <? 65536)%N) (js "a\b") = true
  /\ Lexer.tokens (quote2 :: js "a\u005Cb" ++ [quote2])
     = Tokens [mkToken (Kind StringLiteral) (js "a\b") 0 10].
Proof.
  refine ((fun H1 H2 =>
             conj H1 (conj H2 (@literal_round_trip quote2 (js "a\b") H1 H2)))
            _ _).
  - now right.
  - reflexivity.
Defined.

(** X12.  Blank characters in front of a source change nothing but
    the positions: the tokens, or the error, are those of the source
    without them, moved to the right by their number. *)
Theorem leading_blanks_shift : forall blanks source,
  forallb isBlank blanks = true ->
  Lexer.tokens (blanks ++ source)
  = shiftLexed (length blanks) (Lexer.tokens source).
Proof.
  induction blanks as [|b blanks IH]; intros source H.
  - cbn [app length]. now rewrite shiftLexed_zero.
  - cbn [forallb] in H. apply andb_true_iff in H as [Hb Hr].
    cbn [app length]. rewrite (@tokens_blank b _ Hb), (IH _ Hr).
    apply shiftLexed_add.
Qed.

Lemma leading_blanks_shift_witness :
  forallb isBlank (js "  ") = true
  /\ Lexer.tokens (js "  " ++ js "a;")
     = Tokens [ mkToken (Kind Identifier) (js "a") 2 3;
                mkToken (Kind SemicolonPunctuator) (js ";") 3 4 ].
Proof.
  refine ((fun H => conj H (@leading_blanks_shift (js "  ") (js "a;") H)) _).
  reflexivity.
Defined.

(** X13.  A block comment in front of a source is skipped up to the
    first [*/]: the tokens, or the error, are those of what follows
    it, moved to the right by its length. *)
Theorem block_comment_skipped : forall body source,
  closesComment body = false ->
  Lexer.tokens (js "/*" ++ body ++ js "*/" ++ source)
  = shiftLexed (4 + length body) (Lexer.tokens source).
Proof.
  intros body source H.
  replace (js "/*" ++ body ++ js "*/" ++ source)
    with ((js "/*" ++ body ++ js "*/") ++ source)
    by (rewrite <- !app_assoc; reflexivity).
  rewrite tokens_skip.
  - f_equal. rewrite !length_app. cbn [length js map list_ascii_of_string].
    lia.
  - discriminate.
  - unfold Lexer.consume. rewrite index_self.
    assert (Hl : (length ((js "/*" ++ body ++ js "*/") ++ source) <=? 0)%nat
                 = false) by reflexivity.
    rewrite Hl.
    assert (Hm : matchBlockComment ((js "/*" ++ body ++ js "*/") ++ source)
                 = Some (js "/*" ++ body ++ js "*/")).
    { change ((js "/*" ++ body ++ js "*/") ++ source)
        with (47%N :: 42%N :: (body ++ js "*/") ++ source).
      unfold matchBlockComment. cbn [N.eqb Pos.eqb andb].
      rewrite <- app_assoc.
      change (js "*/" ++ source) with (42%N :: 47%N :: source).
      now rewrite (throughCommentEnd_first body source H). }
    change (matchBlank ((js "/*" ++ body ++ js "*/") ++ source)) with (@None JsString.t).
    change (matchLineComment ((js "/*" ++ body ++ js "*/") ++ source))
      with (@None JsString.t).
    cbn [Lexer.orElse]. rewrite Hm. f_equal.
    exact (skipn_prefix (js "/*" ++ body ++ js "*/") source).
Qed.

Lemma block_comment_skipped_witness :
  closesComment (js " a * b ") = false
  /\ Lexer.tokens (js "/*" ++ js " a * b " ++ js "*/" ++ js "x;")
     = Tokens [ mkToken (Kind Identifier) (js "x") 11 12;
                mkToken (Kind SemicolonPunctuator) (js ";") 12 13 ].
Proof.
  refine ((fun H => conj H
             (@block_comment_skipped (js " a * b ") (js "x;") H)) _).
  reflexivity.
Defined.

(** X14.  A line comment in front of a source is skipped up to the
    end of its line: the tokens, or the error, are those of what
    follows it, moved to the right by its length. *)
Theorem line_comment_skipped : forall body source,
  forallb (fun c => negb (isLineTerminator c)) body = true ->
  match source with [] => true | c :: _ => isLineTerminator c end = true ->
  Lexer.tokens (js "//" ++ body ++ source)
  = shiftLexed (2 + length body) (Lexer.tokens source).
Proof.
  intros body source Hb Hs.
  replace (js "//" ++ body ++ source) with ((js "//" ++ body) ++ source)
    by (rewrite <- !app_assoc; reflexivity).
  rewrite tokens_skip.
  - f_equal.
  - discriminate.
  - unfold Lexer.consume. rewrite index_self.
    assert (Hl : (length ((js "//" ++ body) ++ source) <=? 0)%nat = false)
      by reflexivity.
    rewrite Hl.
    change (matchBlank ((js "//" ++ body) ++ source)) with (@None JsString.t).
    assert (Hm : matchLineComment ((js "//" ++ body) ++ source)
                 = Some (js "//" ++ body)).
    { change ((js "//" ++ body) ++ source)
        with (47%N :: 47%N :: body ++ source).
      unfold matchLineComment. cbn [N.eqb Pos.eqb andb].
      rewrite takeWhile_stop; [reflexivity | exact Hb |].
      destruct source as [|c r]; [reflexivity|]. now rewrite Hs. }
    rewrite Hm. cbn [Lexer.orElse]. f_equal.
    exact (skipn_prefix (js "//" ++ body) source).
Qed.

Lemma line_comment_skipped_witness :
  forallb (fun c => negb (isLineTerminator c)) (js " to do") = true
  /\ match [10%N; 120%N] with
     | [] => true
     | c :: _ => isLineTerminator c
     end = true
  /\ Lexer.tokens (js "//" ++ js " to do" ++ [10%N; 120%N])
     = Tokens [mkToken (Kind Identifier) (js "x") 9 10].
Proof.
  refine ((fun H1 H2 =>
             conj H1 (conj H2
               (@line_comment_skipped (js " to do") [10%N; 120%N] H1 H2)))
            _ _).
  - reflexivity.
  - reflexivity.
Defined.

(** ** The utilities *)

(** X15.  [toPosition] counts lines and columns from 1: the line is
    one more than the number of line feeds before [index], and the
    column is one more than the number of characters since the last
    of them, carriage returns not counted.  An index past the end of
    the text is not refused: every missing character counts as a
    column. *)
Theorem toPosition_counts : forall index input before after,
  firstn index input = before ++ after ->
  before = [] \/ (exists b, before = b ++ [10%N]) ->
  forallb (fun x => negb (isLineFeed x)) after = true ->
  Utils.toPosition index input
  = Utils.mkPosition
      (1 + length (filter isLineFeed before))
      (1 + length (filter (fun x => negb (isCarriageReturn x)) after)
       + (index - length input))
      index.
Proof.
  intros index input before after Hf Hb Ha.
  unfold Utils.toPosition. rewrite scan_split, Hf.
  rewrite length_app, (scan_app before (length after) after 1 1).
  rewrite (scan_line _ _ _ Ha).
  cbn [fst snd]. rewrite scan_lines.
  assert (Hc : snd (Utils.scan (length before) before 1 1) = 1).
  { destruct Hb as [->|[b ->]]; [reflexivity | apply scan_feed]. }
  rewrite Hc. reflexivity.
Qed.

Lemma toPosition_counts_witness :
  firstn 7 (js "ab" ++ [13%N; 10%N] ++ js "cde") = (js "ab" ++ [13%N; 10%N]) ++ js "cde"
  /\ (js "ab" ++ [13%N; 10%N] = []
      \/ exists b, js "ab" ++ [13%N; 10%N] = b ++ [10%N])
  /\ forallb (fun x => negb (isLineFeed x)) (js "cde") = true
  /\ Utils.toPosition 7 (js "ab" ++ [13%N; 10%N] ++ js "cde")
     = Utils.mkPosition 2 4 7.
Proof.
  refine ((fun H1 H2 H3 =>
             conj H1 (conj H2 (conj H3
               (@toPosition_counts 7 (js "ab" ++ [13%N; 10%N] ++ js "cde")
                  _ _ H1 H2 H3)))) _ _ _).
  - reflexivity.
  - right. exists (js "ab" ++ [13%N]). reflexivity.
  - reflexivity.
Defined.

(** X16.  Whatever the index, the line that [toPosition] returns is
    at least 1 and at most the number of lines of the text, so that
    [line - 1] is an index into the lines of the text; the column is
    at least 1, and the index is returned as it was given. *)
Theorem toPosition_within : forall index input,
  1 <= Utils.line (Utils.toPosition index input)
       <= 1 + length (filter isLineFeed input)
  /\ 1 <= Utils.column (Utils.toPosition index input)
  /\ Utils.index (Utils.toPosition index input) = index.
Proof.
  intros index input. unfold Utils.toPosition.
  pose proof (scan_column index input 1 (le_n 1)) as Hc.
  pose proof (scan_split index input 1 1) as Hs.
  destruct (Utils.scan index input 1 1) as [l c].
  cbn [Utils.line Utils.column Utils.index snd] in *.
  injection Hs as Hl _. rewrite scan_lines in Hl.
  pose proof (filter_firstn_le isLineFeed index input).
  repeat split; first [lia | exact Hc].
Qed.

(** X17.  [mutate] returns, and makes the array [original] hold the
    items of [content] and leaves every other array as it was; called
    with the same array twice it empties it. *)
Theorem mutate_copies : forall (T : Type) original content (h : Utils.Store T),
  exists h',
    Utils.mutate original content h = Some h'
    /\ (original <> content -> h' original = h content)
    /\ (original = content -> h' original = [])
    /\ forall other, other <> original -> h' other = h other.
Proof.
  intros T original content h. unfold Utils.mutate.
  assert (Hw : Utils.write original [] h original = [])
    by (unfold Utils.write; now rewrite Nat.eqb_refl).
  assert (Hr : forall other, other <> original ->
                 Utils.write original [] h other = h other).
  { intros other Hne. unfold Utils.write.
    destruct (Nat.eqb_spec other original); congruence. }
  destruct (Nat.eq_dec original content) as [<-|Hne].
  - rewrite Hw. cbn [length Utils.pushAll nth_error]. rewrite Hw.
    cbn [nth_error]. eexists. split; [reflexivity|].
    repeat split; try assumption; congruence.
  - destruct (@pushAll_copy T original content Hne
                (S (length (Utils.write original [] h content))) 0
                (Utils.write original [] h) ltac:(lia))
      as (h' & Hp & Ho & Hk).
    exists h'. split; [exact Hp|]. repeat split.
    + intros _. rewrite Ho, Hw. cbn [app skipn]. apply Hr. congruence.
    + congruence.
    + intros other Hother. rewrite (Hk other Hother). now apply Hr.
Qed.

(** ** The parser *)

(** X18.  Every production returns, given fuel in proportion to the
    tokens in its cursor.  When it returns no tree it leaves the
    cursor and the frames below it as it found them, and an error is
    stored. *)
Theorem production_backtracks : forall p s fuel,
  need p (length (current s)) <= fuel ->
  exists r s',
    parse fuel p s = Done r s'
    /\ (r = None ->
        Parser.tokens s' = Parser.tokens s /\ stack s' = stack s
        /\ error s' <> None).
Proof.
  intros p s fuel H.
  destruct (parse_finishes p s H) as (r & s' & E & _).
  exists r, s'. split; [exact E|]. intros ->.
  eapply parse_backtracked, E.
Qed.

Lemma production_backtracks_witness :
  need ParseWhileStatement (length (current (init whileTokens))) <= 60
  /\ parse 60 ParseWhileStatement (init whileTokens)
     = Done None
         (mkState whileTokens []
            (Some (mkParserError "Expected while condition" None 6 7)))
  /\ exists r s',
      parse 60 ParseWhileStatement (init whileTokens) = Done r s'
      /\ (r = None ->
          Parser.tokens s' = Parser.tokens (init whileTokens)
          /\ stack s' = stack (init whileTokens)
          /\ error s' <> None).
Proof.
  refine ((fun H1 H2 =>
             conj H1 (conj H2
               (@production_backtracks ParseWhileStatement
                  (init whileTokens) 60 H1))) _ _).
  - apply Nat.leb_le. vm_compute. reflexivity.
  - vm_compute. reflexivity.
Defined.

(** X19.  Every production returns, given fuel in proportion to the
    tokens in its cursor.  When it returns a tree it has consumed the
    first tokens of the cursor, at least one of them unless it is
    [parseBody], and has left the frames below the cursor alone.  The
    tree starts where the first token of the cursor starts and stops
    where the first token left in it starts; when none is left it
    stops where the last token of the input starts. *)
Theorem production_consumes : forall p s fuel,
  need p (length (current s)) <= fuel ->
  exists r s',
    parse fuel p s = Done r s'
    /\ forall t,
        r = Some t ->
        (exists consumed,
            current s = consumed ++ current s'
            /\ (p <> ParseBody -> consumed <> []))
        /\ s' = setCurrent (current s')
                  (mkState (Parser.tokens s) (stack s) (error s'))
        /\ Tree.start t = startOf s (current s)
        /\ Tree.stop t = startOf s (current s').
Proof.
  intros p s fuel H.
  destruct (parse_finishes p s H) as (r & s' & E & _).
  exists r, s'. split; [exact E|]. intros t ->.
  eapply parse_consumed, E.
Qed.

Lemma production_consumes_witness :
  need ParsePropertyAccess (length (current accessState)) <= 80
  /\ parse 80 ParsePropertyAccess accessState
     = Done (Some (mkTree PropertyAccess 1 2
                     [inl (mkToken (Kind Identifier) (js "b") 2 3)]))
         (mkState accessTokens [[]] None)
  /\ exists r s',
      parse 80 ParsePropertyAccess accessState = Done r s'
      /\ forall t,
          r = Some t ->
          (exists consumed,
              current accessState = consumed ++ current s'
              /\ (ParsePropertyAccess <> ParseBody -> consumed <> []))
          /\ s' = setCurrent (current s')
                    (mkState (Parser.tokens accessState)
                       (stack accessState) (error s'))
          /\ Tree.start t = startOf accessState (current accessState)
          /\ Tree.stop t = startOf accessState (current s').
Proof.
  refine ((fun H1 H2 =>
             conj H1 (conj H2
               (@production_consumes ParsePropertyAccess accessState
                  80 H1))) _ _).
  - apply Nat.leb_le. vm_compute. reflexivity.
  - vm_compute. reflexivity.
Defined.

(** X20.  Every production returns, given fuel in proportion to the
    tokens in its cursor, and its tree keeps the span invariant at
    every node when the tokens are in order and what is left in the
    cursor settles it: any tree of a statement or of a bracketed
    list; any other tree if a token is left, which for an expression
    must not be [+] or [-]. *)
Theorem production_keeps_span : forall p s fuel,
  need p (length (current s)) <= fuel ->
  ordered (Parser.tokens s) = true ->
  rest (current s) (Parser.tokens s) ->
  exists r s',
    parse fuel p s = Done r s'
    /\ forall t,
        r = Some t ->
        settled p (current s') = true ->
        spanInvariant t = true.
Proof.
  intros p s fuel H Ho Hr.
  destruct (parse_finishes p s H) as (r & s' & E & _).
  exists r, s'. split; [exact E|]. intros t -> Hs.
  eapply parse_spans; eassumption.
Qed.

Lemma production_keeps_span_witness :
  need ParseTermExpression (length (current (init sumTokens))) <= 120
  /\ ordered (Parser.tokens (init sumTokens)) = true
  /\ rest (current (init sumTokens)) (Parser.tokens (init sumTokens))
  /\ parse 120 ParseTermExpression (init sumTokens)
     = Done (Some sumTree)
         (mkState [mkToken (Kind SemicolonPunctuator) (js ";") 5 6] []
            (Some (mkParserError "Expected call" None 5 6)))
  /\ settled ParseTermExpression
       [mkToken (Kind SemicolonPunctuator) (js ";") 5 6] = true
  /\ exists r s',
      parse 120 ParseTermExpression (init sumTokens) = Done r s'
      /\ forall t,
          r = Some t ->
          settled ParseTermExpression (current s') = true ->
          spanInvariant t = true.
Proof.
  refine ((fun H1 H2 H3 H4 H5 =>
             conj H1 (conj H2 (conj H3 (conj H4 (conj H5
               (@production_keeps_span ParseTermExpression
                  (init sumTokens) 120 H1 H2 H3)))))) _ _ _ _ _).
  - apply Nat.leb_le. vm_compute. reflexivity.
  - reflexivity.
  - apply rest_refl.
  - vm_compute. reflexivity.
  - reflexivity.
Defined.

(** X21.  [ast] returns a tree or an error for every sequence of
    tokens in order, and every tree it returns keeps the span
    invariant at every node: a [TermExpression] whose last child is
    an operator that was given back never is part of it. *)
Theorem ast_keeps_span : forall ts fuel,
  ordered ts = true ->
  need ParseBody (length ts) <= fuel ->
  exists a s',
    ast fuel (init ts) = Done a s'
    /\ a <> AstNull
    /\ forall t, a = AstTree t -> spanInvariant t = true.
Proof.
  intros ts fuel Ho H.
  destruct (ast_returns ts H) as (a & s' & E & Hn).
  exists a, s'. split; [exact E|]. split; [exact Hn|]. intros t ->.
  eapply ast_spans; eassumption.
Qed.

Lemma ast_keeps_span_witness :
  ordered blockTokens = true
  /\ need ParseBody (length blockTokens) <= 100
  /\ ast 100 (init blockTokens)
     = Done (AstTree blockTree)
         (mkState [] []
            (Some (mkParserError "Expected statement" None 4 5)))
  /\ exists a s',
      ast 100 (init blockTokens) = Done a s'
      /\ a <> AstNull
      /\ forall t, a = AstTree t -> spanInvariant t = true.
Proof.
  refine ((fun H1 H2 H3 =>
             conj H1 (conj H2 (conj H3
               (@ast_keeps_span blockTokens 100 H1 H2)))) _ _ _).
  - reflexivity.
  - apply Nat.leb_le. vm_compute. reflexivity.
  - vm_compute. reflexivity.
Defined.

(** X22.  Lexing and parsing a source returns, given fuel in
    proportion to its length, and every tree it gives keeps the span
    invariant at every node. *)
Theorem compile_keeps_span : forall source fuel,
  need ParseBody (length source) <= fuel ->
  compile fuel source <> Unfinished
  /\ forall t, compile fuel source = ParsedTree t -> spanInvariant t = true.
Proof.
  intros source fuel H. unfold compile.
  destruct (Lexer.tokens source) as [ts|e|] eqn:El.
  - assert (Hs := El). apply tokens_spans in Hs.
    assert (Hl := Hs). apply spansWithin_length in Hl.
    assert (Hf : need ParseBody (length ts) <= fuel)
      by (unfold need in *; nia).
    destruct (ast_returns ts Hf) as (a & s' & E & Hn). rewrite E.
    split.
    + destruct a; [discriminate | discriminate | congruence].
    + intros t Ht. destruct a as [t'|e|]; try discriminate.
      injection Ht as <-.
      eapply ast_spans; [|exact E]. eapply ordered_spans. exact Hs.
  - split; [discriminate | intros t [=]].
  - now apply tokens_total in El.
Qed.

Lemma compile_keeps_span_witness :
  need ParseBody (length (js "{ ; }")) <= 150
  /\ compile 150 (js "{ ; }") = ParsedTree blockTree
  /\ compile 150 (js "{ ; }") <> Unfinished
  /\ forall t,
      compile 150 (js "{ ; }") = ParsedTree t -> spanInvariant t = true.
Proof.
  refine ((fun H1 H2 =>
             conj H1 (conj H2
               (@compile_keeps_span (js "{ ; }") 150 H1))) _ _).
  - apply Nat.leb_le. vm_compute. reflexivity.
  - vm_compute. reflexivity.
Defined.

(** X23.  The tree that [ast] returns is a [Body] that starts where
    the first token starts and stops where the last token starts, not
    where it ends: the span of the root never holds the last token of
    the input. *)
Theorem root_span : forall ts fuel,
  need ParseBody (length ts) <= fuel ->
  exists a s',
    ast fuel (init ts) = Done a s'
    /\ forall t,
        a = AstTree t ->
        Tree.type t = Body
        /\ Tree.start t = match ts with
                          | first :: _ => start first
                          | [] => 0
                          end
        /\ Tree.stop t = match lastToken ts with
                         | Some l => start l
                         | None => 0
                         end.
Proof.
  intros ts fuel H.
  destruct (ast_returns ts H) as (a & s' & E & _).
  exists a, s'. split; [exact E|]. intros t ->.
  eapply ast_root, E.
Qed.

Lemma root_span_witness :
  need ParseBody (length blockTokens) <= 100
  /\ ast 100 (init blockTokens)
     = Done (AstTree blockTree)
         (mkState [] [] (Some (mkParserError "Expected statement" None 4 5)))
  /\ exists a s',
      ast 100 (init blockTokens) = Done a s'
      /\ forall t,
          a = AstTree t ->
          Tree.type t = Body
          /\ Tree.start t = 0
          /\ Tree.stop t = 4.
Proof.
  refine ((fun H1 H2 =>
             conj H1 (conj H2 (@root_span blockTokens 100 H1))) _ _).
  - apply Nat.leb_le. vm_compute. reflexivity.
  - vm_compute. reflexivity.
Defined.

End Further.
